(** * Opytimizer: the optimizer engine and three of its meta-heuristics

    A shallow embedding of

      - [opytimizer/core/optimizer.py]            (class [Optimizer]),
      - [opytimizer/optimizers/science/gsa.py]    (class [GSA]),
      - [opytimizer/optimizers/swarm/ba.py]       (class [BA]),
      - [opytimizer/optimizers/swarm/sbo.py]      (class [SBO]),

    followed by the properties of the engine that are stated in the
    specification of the repository.

    Conventions of the embedding

      - Python floats and integers are exact rationals ([Q]); equalities
        between computed numbers are therefore stated with [==].
      - Agents are objects: they live in a heap ([gmap loc Agent]) and the
        code manipulates references to them.  The numpy arrays stored in an
        agent are held by value: every assignment to [position] in the
        sources installs a freshly built array (the result of an arithmetic
        expression or of [copy.deepcopy]), so no two objects share one.
      - A Python exception is a value of type [exn]; a computation that may
        raise returns a [result], and a stateful one keeps the state it had
        reached when it raised.
      - Attribute access on [self] goes through the class dictionaries along
        the method resolution order ([resolve]).                           *)

From Stdlib Require Import QArith Qabs Qminmax Lqa Sorted Permutation.
From stdpp Require Import gmap strings list fin_maps sorting.

Open Scope Q_scope.
Open Scope string_scope.
Open Scope list_scope.

(* ===================================================================== *)
(** * Exceptions and computations                                         *)
(* ===================================================================== *)

(** [E_TypeError] and [E_ValueError] are the two classes of
    [opytimizer.utils.exception]; the others are Python's own. *)
Inductive exn : Type :=
| E_TypeError (msg : string)
| E_ValueError (msg : string)
| NotImplementedError
| AttributeError (name : string)
| Builtin_TypeError (msg : string)
| IndexError
| ZeroDivisionError.

Inductive result (A : Type) : Type :=
| Ok (a : A)
| Raise (e : exn).
Arguments Ok {A} a.
Arguments Raise {A} e.

Definition is_ok {A} (r : result A) : bool :=
  match r with Ok _ => true | Raise _ => false end.

Definition result_bind {A B} (r : result A) (k : A -> result B) : result B :=
  match r with
  | Ok a => k a
  | Raise e => Raise e
  end.

(** A computation over a mutable state [S]: when it raises, the state
    reached so far is kept (Python does not roll anything back). *)
Definition M (S A : Type) : Type := S -> result A * S.

Definition ret {S A} (a : A) : M S A := fun s => (Ok a, s).
Definition raise {S A} (e : exn) : M S A := fun s => (Raise e, s).
Definition bind {S A B} (c : M S A) (k : A -> M S B) : M S B :=
  fun s => match c s with
           | (Ok a, s') => k a s'
           | (Raise e, s') => (Raise e, s')
           end.
Definition get {S} : M S S := fun s => (Ok s, s).
Definition put {S} (s : S) : M S unit := fun _ => (Ok tt, s).
Definition modify {S} (f : S -> S) : M S unit := fun s => (Ok tt, f s).
Definition lift {S A} (r : result A) : M S A := fun s => (r, s).

Declare Scope comp_scope.
Delimit Scope comp_scope with comp.
Notation "x <- c ;; k" := (bind c (fun x => k))
  (at level 100, c at next level, right associativity) : comp_scope.
Notation "c ;;; k" := (bind c (fun _ => k))
  (at level 100, right associativity) : comp_scope.

(** [for x in xs: body x] *)
Fixpoint for_each {S A} (xs : list A) (body : A -> M S unit) : M S unit :=
  match xs with
  | [] => ret tt
  | x :: xs' => bind (body x) (fun _ => for_each xs' body)
  end.

(* ===================================================================== *)
(** * Numbers and arrays                                                  *)
(* ===================================================================== *)

Definition Qltb (x y : Q) : bool := negb (Qle_bool y x).

(** Python's [/] on numbers.  A zero divisor makes Python raise
    [ZeroDivisionError] and numpy produce [nan] or [inf] with a warning: in
    both cases the quotient is not a number, which is the one outcome
    [Raise ZeroDivisionError] here. *)
Definition div (x y : Q) : result Q :=
  if Qeq_bool y 0 then Raise ZeroDivisionError else Ok (x / y).

(** [np.sum] of a list of numbers. *)
Definition np_sum (xs : list Q) : Q := fold_right Qplus 0 xs.

(** [np.mean] of a one-dimensional array; of an empty one it is not a
    number. *)
Definition np_mean (xs : list Q) : result Q :=
  div (np_sum xs) (inject_Z (Z.of_nat (length xs))).

(** A position or a velocity: [n_variables] rows of [n_dimensions] numbers. *)
Definition array : Type := list (list Q).

Definition row_map2 (f : Q -> Q -> Q) (r1 r2 : list Q) : list Q :=
  zip_with f r1 r2.
Definition arr_map (f : Q -> Q) (a : array) : array := map (map f) a.
Definition arr_map2 (f : Q -> Q -> Q) (a b : array) : array :=
  zip_with (row_map2 f) a b.

Definition arr_add : array -> array -> array := arr_map2 Qplus.
Definition arr_sub : array -> array -> array := arr_map2 Qminus.
Definition arr_scale (c : Q) : array -> array := arr_map (Qmult c).
Definition arr_shift (c : Q) : array -> array := arr_map (fun x => x + c).
Definition arr_zeros (n_variables n_dimensions : nat) : array :=
  replicate n_variables (replicate n_dimensions 0).

(* ===================================================================== *)
(** * Python values, classes and attribute resolution                     *)
(* ===================================================================== *)

(** The values a hyperparameter mapping can carry.  A [dict] keeps its
    insertion order, which is the order in which [_build] applies it. *)
#[warnings="-register-all"]
Inductive value : Type :=
| VNone
| VBool (b : bool)
| VInt (n : Z)
| VFloat (q : Q)
| VStr (s : string)
| VDict (items : list (string * value)).

(** [isinstance(v, dict) or v is None] *)
Definition is_dict_or_none (v : value) : bool :=
  match v with
  | VNone | VDict _ => true
  | _ => false
  end.

(** [isinstance(v, (float, int))]; [bool] is a subclass of [int]. *)
Definition as_number (v : value) : option Q :=
  match v with
  | VBool b => Some (if b then 1 else 0)
  | VInt n => Some (inject_Z n)
  | VFloat q => Some q
  | _ => None
  end.

(** Truth value of the argument of [if hyperparams:]. *)
Definition truthy (v : value) : bool :=
  match v with
  | VNone => false
  | VBool b => b
  | VInt n => negb (Z.eqb n 0)
  | VFloat q => negb (Qeq_bool q 0)
  | VStr s => negb (String.eqb s "")
  | VDict items => match items with [] => false | _ => true end
  end.

Definition dict_items (v : value) : list (string * value) :=
  match v with
  | VDict items => items
  | _ => []
  end.

Inductive klass : Type := cls_Optimizer | cls_GSA | cls_BA | cls_SBO.

(** The names bound in each class body. *)
Definition class_dict (c : klass) : list string :=
  match c with
  | cls_Optimizer =>
      ["__init__"; "algorithm"; "hyperparams"; "built";
       "_build"; "_update"; "_evaluate"; "run"]
  | cls_GSA =>
      ["__init__"; "G"; "_calculate_mass"; "_calculate_force";
       "_update_velocity"; "_update_position"; "update"; "run"]
  | cls_BA =>
      ["__init__"; "f_min"; "f_max"; "A"; "r"; "_update_frequency";
       "_update_velocity"; "_update_position"; "update"; "run"]
  | cls_SBO =>
      ["__init__"; "alpha"; "p_mutation"; "z"; "update"; "run"]
  end.

(** [class GSA(Optimizer)], [class BA(Optimizer)], [class SBO(Optimizer)]. *)
Definition mro (c : klass) : list klass :=
  match c with
  | cls_Optimizer => [cls_Optimizer]
  | _ => [c; cls_Optimizer]
  end.

Definition mem_string (x : string) (l : list string) : bool :=
  existsb (String.eqb x) l.

(** The class whose body provides attribute [name] for an instance of [c]. *)
Definition resolve (c : klass) (name : string) : option klass :=
  List.find (fun k => mem_string name (class_dict k)) (mro c).

(** An instance: its class and its [__dict__]. *)
Record object : Type := Object {
  cls : klass;
  attrs : gmap string value
}.

Definition store (name : string) (v : value) : M object unit :=
  modify (fun self => Object (cls self) (<[name := v]> (attrs self))).

(** Reading a private field through its property getter. *)
Definition load (name : string) : M object value :=
  fun self => match attrs self !! name with
              | Some v => (Ok v, self)
              | None => (Raise (AttributeError name), self)
              end.

(* ===================================================================== *)
(** * Agents, spaces and the world the optimizers run in                  *)
(* ===================================================================== *)

Definition loc : Type := nat.

(** Modelled from the spec: the class [Agent] of [opytimizer.core.agent]
    is not among the sources.  An agent carries a position of
    [n_variables] rows, a fitness (lower is better) and per-variable
    bounds [lb], [ub] copied into it for self-contained clipping. *)
Record Agent : Type := mkAgent {
  position : array;
  fit : Q;
  lb : list Q;
  ub : list Q;
  n_variables : nat
}.

#[global] Instance Agent_inhabited : Inhabited Agent :=
  populate (mkAgent [] 0 [] [] 0%nat).

Definition with_position (p : array) (a : Agent) : Agent :=
  mkAgent p (fit a) (lb a) (ub a) (n_variables a).
Definition with_fit (f : Q) (a : Agent) : Agent :=
  mkAgent (position a) f (lb a) (ub a) (n_variables a).

(** Modelled from the spec: bound clipping clamps every position component
    into [[lb, ub]] element-wise; row [j] uses [lb[j]] and [ub[j]].  A
    row without a bound is left as it is. *)
Definition clamp (lo hi x : Q) : Q := Qmin hi (Qmax lo x).

Fixpoint clip_rows (p : array) (los his : list Q) : array :=
  match p, los, his with
  | row :: p', lo :: los', hi :: his' =>
      map (clamp lo hi) row :: clip_rows p' los' his'
  | _, _, _ => p
  end.

Definition Agent_clip_by_bound (a : Agent) : Agent :=
  with_position (clip_rows (position a) (lb a) (ub a)) a.

(** Modelled from the spec: the search space used by the optimizers (the
    [search_space.py] of the sources is an earlier class without these
    fields).  It owns the ordered population, the iteration budget, the
    global bounds and a distinguished, standalone [best_agent]. *)
Record Space : Type := mkSpace {
  agents : list loc;
  best_agent : loc;
  n_agents : nat;
  s_n_variables : nat;
  n_dimensions : nat;
  n_iterations : nat;
  s_lb : list Q;
  s_ub : list Q
}.

Definition with_agents (l : list loc) (sp : Space) : Space :=
  mkSpace l (best_agent sp) (n_agents sp) (s_n_variables sp)
          (n_dimensions sp) (n_iterations sp) (s_lb sp) (s_ub sp).

(** What the sources import from [opytimizer.math] and
    [opytimizer.utils.constant], from numpy's transcendental functions, and
    the state a user's objective may keep.  Random draws thread a generator
    state. *)
Class Externals : Type := {
  Rng : Type;
  FState : Type;
  (* [r.generate_uniform_random_number()], a draw from [0, 1) *)
  generate_uniform_random_number : Rng -> Q * Rng;
  (* [r.generate_uniform_random_number(low, high, size)] *)
  generate_uniform_array : Q -> Q -> nat -> Rng -> list Q * Rng;
  (* [r.generate_gaussian_random_number()] *)
  generate_gaussian_random_number : Rng -> Q * Rng;
  (* [d.generate_choice_distribution(n, probs, 1)[0]] *)
  generate_choice_distribution : nat -> list Q -> Rng -> nat * Rng;
  (* [g.euclidean_distance] *)
  euclidean_distance : array -> array -> Q;
  (* [c.EPSILON] *)
  EPSILON : Q;
  (* [np.exp] *)
  np_exp : Q -> Q
}.

(** An objective: a position to a fitness, possibly reading the objective's
    own state; and a pre-evaluation hook acting on that state. *)
Definition Function `{Externals} : Type := FState -> array -> Q.
Definition Hook `{Externals} : Type := option (FState -> FState).

(** A marker left in the world each time the local random walk of the bat
    algorithm is performed (for agent number [i]); it is not program
    data. *)
Inductive event : Type :=
| LocalWalk (i : nat).

Record world `{Externals} : Type := mkWorld {
  heap : gmap loc Agent;
  rng : Rng;
  fstate : FState;
  trace : list event
}.
Arguments mkWorld {_} heap rng fstate trace.

Section WorldOps.
Context `{Externals}.

Definition with_heap (h : gmap loc Agent) (w : world) : world :=
  mkWorld h (rng w) (fstate w) (trace w).
Definition with_rng (g : Rng) (w : world) : world :=
  mkWorld (heap w) g (fstate w) (trace w).
Definition with_fstate (s : FState) (w : world) : world :=
  mkWorld (heap w) (rng w) s (trace w).

(** Appends an event to the trace. *)
Definition emit (e : event) : M world unit :=
  modify (fun w => mkWorld (heap w) (rng w) (fstate w) (trace w ++ [e])).

(** Dereferencing an agent. *)
Definition agent_at (w : world) (a : loc) : Agent := heap w !!! a.
Definition read (a : loc) : M world Agent :=
  fun w => (Ok (agent_at w a), w).

(** [agent.position = p] and [agent.fit = f] *)
Definition set_position (a : loc) (p : array) : M world unit :=
  modify (fun w => with_heap (alter (with_position p) a (heap w)) w).
Definition set_fit (a : loc) (f : Q) : M world unit :=
  modify (fun w => with_heap (alter (with_fit f) a (heap w)) w).

(** [agent.clip_by_bound()] *)
Definition clip_agent (a : loc) : M world unit :=
  modify (fun w => with_heap (alter Agent_clip_by_bound a (heap w)) w).

(** [copy.deepcopy(agent)]: a new object with the same contents. *)
Definition deepcopy (a : loc) : M world loc :=
  fun w => let l := fresh (dom (heap w)) in
           (Ok l, with_heap (<[l := agent_at w a]> (heap w)) w).

(** [function(agent.position)] *)
Definition call (function : Function) (p : array) : M world Q :=
  fun w => (Ok (function (fstate w) p), w).

Definition uniform : M world Q :=
  fun w => let '(x, g) := generate_uniform_random_number (rng w) in
           (Ok x, with_rng g w).
Definition uniform_array (low high : Q) (size : nat) : M world (list Q) :=
  fun w => let '(xs, g) := generate_uniform_array low high size (rng w) in
           (Ok xs, with_rng g w).
Definition gaussian : M world Q :=
  fun w => let '(x, g) := generate_gaussian_random_number (rng w) in
           (Ok x, with_rng g w).
Definition choice (n : nat) (probs : list Q) : M world nat :=
  fun w => let '(s, g) := generate_choice_distribution n probs (rng w) in
           (Ok s, with_rng g w).

(** Modelled from the spec: [Space.clip_by_bound()] clamps every agent of
  the population. *)
Definition Space_clip_by_bound (sp : Space) : M world unit :=
  for_each (agents sp) clip_agent.
End WorldOps.

(** [xs[i]] for a list or a one-dimensional numpy array. *)
Definition index {A S} (xs : list A) (i : nat) : M S A :=
  match xs !! i with
  | Some x => ret x
  | None => raise IndexError
  end.

(** [xs[i] = x] *)
Definition assign {A S} (xs : list A) (i : nat) (x : A) : M S (list A) :=
  if decide (i < length xs)%nat then ret (<[i := x]> xs) else raise IndexError.

(** [enumerate] *)
Definition enumerate {A} (xs : list A) : list (nat * A) :=
  zip (seq 0 (length xs)) xs.

(** Modelled from the spec: [opytimizer.utils.history.History].  [dump]
    appends one snapshot; with [store_best_only] it is the best agent's
    (position, fit), otherwise every agent's. *)
Definition snapshot : Type := list (array * Q).
Record History : Type := mkHistory {
  store_best_only : bool;
  snapshots : list snapshot
}.

Section HistoryOps.
Context `{Externals}.

Definition snap (w : world) (a : loc) : array * Q :=
  (position (agent_at w a), fit (agent_at w a)).

Definition dump (hist : History) (ags : list loc) (best : loc)
  : M world History :=
  fun w =>
    let s := if store_best_only hist then [snap w best]
             else map (snap w) ags in
    (Ok (mkHistory (store_best_only hist) (snapshots hist ++ [s])), w).
End HistoryOps.

(** [for x in xs: acc = body x acc], for loops that rebind local names. *)
Fixpoint for_fold {S A B} (xs : list A) (acc : B) (body : A -> B -> M S B)
  : M S B :=
  match xs with
  | [] => ret acc
  | x :: xs' => bind (body x acc) (fun acc' => for_fold xs' acc' body)
  end.

(** [[f x for x in xs]] where [f] may raise, on values. *)
Fixpoint map_r {A B} (f : A -> result B) (xs : list A) : result (list B) :=
  match xs with
  | [] => Ok []
  | x :: xs' =>
      result_bind (f x) (fun y =>
      result_bind (map_r f xs') (fun ys => Ok (y :: ys)))
  end.

(** [[f x for x in xs]] where [f] may raise, in a state. *)
Fixpoint map_m {S A B} (f : A -> M S B) (xs : list A) : M S (list B) :=
  match xs with
  | [] => ret []
  | x :: xs' =>
      bind (f x) (fun y => bind (map_m f xs') (fun ys => ret (y :: ys)))
  end.

(* ===================================================================== *)
(** * Property setters and attribute assignment                           *)
(* ===================================================================== *)

Section Setters.
Local Open Scope comp_scope.

(** [Optimizer.algorithm], [Optimizer.hyperparams], [Optimizer.built] *)
Definition fset_algorithm (algorithm : value) : M object unit :=
  store "_algorithm" algorithm.

Definition fset_hyperparams (hyperparams : value) : M object unit :=
  if negb (is_dict_or_none hyperparams)
  then raise (E_TypeError "`hyperparams` should be a dictionary")
  else store "_hyperparams" hyperparams.

Definition fset_built (built : value) : M object unit :=
  store "_built" built.

(** [GSA.G] *)
Definition fset_G (G : value) : M object unit :=
  match as_number G with
  | None => raise (E_TypeError "`G` should be a float or integer")
  | Some g =>
      if Qltb g 0 then raise (E_ValueError "`G` should be >= 0")
      else store "_G" G
  end.

(** [BA.f_min], [BA.f_max], [BA.A], [BA.r] *)
Definition fset_f_min (f_min : value) : M object unit :=
  match as_number f_min with
  | None => raise (E_TypeError "`f_min` should be a float or integer")
  | Some x =>
      if Qltb x 0 then raise (E_ValueError "`f_min` should be >= 0")
      else store "_f_min" f_min
  end.

Definition fset_f_max (f_max : value) : M object unit :=
  match as_number f_max with
  | None => raise (E_TypeError "`f_max` should be a float or integer")
  | Some x =>
      if Qltb x 0 then raise (E_ValueError "`f_max` should be >= 0")
      else
        self_f_min <- load "_f_min" ;;
        match as_number self_f_min with
        | None => raise (Builtin_TypeError "'<' not supported")
        | Some lo =>
            if Qltb x lo
            then raise (E_ValueError "`f_max` should be >= `f_min`")
            else store "_f_max" f_max
        end
  end.

Definition fset_A (A : value) : M object unit :=
  match as_number A with
  | None => raise (E_TypeError "`A` should be a float or integer")
  | Some x =>
      if Qltb x 0 then raise (E_ValueError "`A` should be >= 0")
      else store "_A" A
  end.

Definition fset_r (r : value) : M object unit :=
  match as_number r with
  | None => raise (E_TypeError "`r` should be a float or integer")
  | Some x =>
      if Qltb x 0 then raise (E_ValueError "`r` should be >= 0")
      else store "_r" r
  end.

(** [SBO.alpha], [SBO.p_mutation], [SBO.z] *)
Definition fset_alpha (alpha : value) : M object unit :=
  match as_number alpha with
  | None => raise (E_TypeError "`alpha` should be a float or integer")
  | Some x =>
      if Qltb x 0 then raise (E_ValueError "`alpha` should be >= 0")
      else store "_alpha" alpha
  end.

Definition fset_p_mutation (p_mutation : value) : M object unit :=
  match as_number p_mutation with
  | None => raise (E_TypeError "`p_mutation` should be a float or integer")
  | Some x =>
      if Qltb x 0 || Qltb 1 x
      then raise (E_ValueError "`p_mutation` should be between 0 and 1")
      else store "_p_mutation" p_mutation
  end.

Definition fset_z (z : value) : M object unit :=
  match as_number z with
  | None => raise (E_TypeError "`z` should be a float or integer")
  | Some x =>
      if Qltb x 0 || Qltb 1 x
      then raise (E_ValueError "`z` should be between 0 and 1")
      else store "_z" z
  end.

(** The properties with a setter that each class body declares. *)
Definition class_setters (c : klass)
  : list (string * (value -> M object unit)) :=
  match c with
  | cls_Optimizer =>
      [("algorithm", fset_algorithm); ("hyperparams", fset_hyperparams);
       ("built", fset_built)]
  | cls_GSA => [("G", fset_G)]
  | cls_BA =>
      [("f_min", fset_f_min); ("f_max", fset_f_max); ("A", fset_A);
       ("r", fset_r)]
  | cls_SBO =>
      [("alpha", fset_alpha); ("p_mutation", fset_p_mutation);
       ("z", fset_z)]
  end.

Fixpoint assoc {V} (name : string) (table : list (string * V)) : option V :=
  match table with
  | [] => None
  | (k, v) :: table' => if String.eqb name k then Some v else assoc name table'
  end.

(** [setattr(self, name, v)] and [self.name = v]: a property found along
  the MRO runs its setter, anything else lands in the instance
  dictionary. *)
Definition setattr (name : string) (v : value) : M object unit :=
  fun self =>
    match resolve (cls self) name with
    | Some owner =>
        match assoc name (class_setters owner) with
        | Some fset => fset v self
        | None => store name v self
        end
    | None => store name v self
    end.
End Setters.

(* ===================================================================== *)
(** * [opytimizer/core/optimizer.py]                                      *)
(* ===================================================================== *)

Module Optimizer.
Local Open Scope comp_scope.

(** [Optimizer.__init__(self, algorithm='')] *)
Definition __init__ (algorithm : value) : M object unit :=
  setattr "algorithm" algorithm ;;;
  setattr "hyperparams" VNone ;;;
  setattr "built" (VBool false).

(** [Optimizer._build(self, hyperparams)] *)
Definition _build (hyperparams : value) : M object unit :=
  (* We need to save the hyperparams object for faster looking up *)
  setattr "hyperparams" hyperparams ;;;
  (* Checks if hyperparams are really provided *)
  (if truthy hyperparams
   then for_each (dict_items hyperparams) (fun kv => setattr kv.1 kv.2)
   else ret tt) ;;;
  (* Set built variable to 'True' *)
  setattr "built" (VBool true).

(** [Optimizer._update(self)], called with [nargs] further positional
  arguments: the signature takes none, so any is refused before the body
  is entered. *)
Definition _update {S} (nargs : nat) : M S unit :=
  if (nargs =? 0)%nat then raise NotImplementedError
  else raise (Builtin_TypeError "_update() takes 1 positional argument").

(** [Optimizer.run(self, space, function, ...)] *)
Definition run {S A} : M S A := raise NotImplementedError.

Section Evaluate.
Context `{Externals}.

(** Modelled from the spec: the decorator [d.pre_evaluate] of
[opytimizer.utils.decorator] is not among the sources.  It invokes
the optional pre-evaluation hook, then the decorated method. *)
Definition pre_evaluate
  (f : Space -> Function -> M world unit)
  (space : Space) (function : Function) (hook : Hook) : M world unit :=
  match hook with
  | Some k => modify (fun w => with_fstate (k (fstate w)) w)
  | None => ret tt
  end ;;;
  f space function.

(** The body of the loop of [_evaluate], for one agent. *)
Definition evaluate_agent (space : Space) (function : Function)
  (agent : loc) : M world unit :=
  (* Calculates the fitness value of current agent *)
  a <- read agent ;;
  f <- call function (position a) ;;
  set_fit agent f ;;;
  (* If agent's fitness is better than global fitness *)
  a <- read agent ;;
  b <- read (best_agent space) ;;
  if Qltb (fit a) (fit b) then
    (* Makes a deep copy of agent's position and fitness *)
    a <- read agent ;;
    set_position (best_agent space) (position a) ;;;
    a <- read agent ;;
    set_fit (best_agent space) (fit a)
  else ret tt.

(** [Optimizer._evaluate(self, space, function)], decorated. *)
Definition _evaluate : Space -> Function -> Hook -> M world unit :=
  pre_evaluate
  (fun space function =>
     for_each (agents space) (evaluate_agent space function)).
End Evaluate.
End Optimizer.

#[global] Instance klass_eq_dec : EqDecision klass.
Proof. solve_decision. Defined.

(** Method calls on [self]: the name is resolved along the MRO of the class
    [c] of the instance, and the function bound to it in the class body that
    provides it is called.  [methods] lists the bodies that can be
    called with the arguments at hand. *)
Definition lookup_method {I} (methods : list (klass * string * I))
    (c : klass) (name : string) : option I :=
  match resolve c name with
  | Some owner =>
      snd <$> List.find
        (fun m => bool_decide (m.1.1 = owner) && String.eqb m.1.2 name) methods
  | None => None
  end.

Section Dispatch.
Context `{Externals}.

(** [self.build(params)] *)
Definition self_build (c : klass) (params : value) : M object unit :=
  match lookup_method [((cls_Optimizer, "_build"), Optimizer._build)]
                      c "build" with
  | Some m => m params
  | None => raise (AttributeError "build")
  end.

(** [self._update(...)] with [nargs] arguments *)
Definition self__update (c : klass) (nargs : nat) : M world unit :=
  match lookup_method [((cls_Optimizer, "_update"), Optimizer._update)]
                      c "_update" with
  | Some m => m nargs
  | None => raise (AttributeError "_update")
  end.

(** [self._evaluate(space, function, hook=pre_evaluate)] *)
Definition self__evaluate (c : klass)
    (space : Space) (function : Function) (hook : Hook) : M world unit :=
  match lookup_method [((cls_Optimizer, "_evaluate"), Optimizer._evaluate)]
                      c "_evaluate" with
  | Some m => m space function hook
  | None => raise (AttributeError "_evaluate")
  end.
End Dispatch.

(** Python's stable [list.sort(key=...)], by insertion: an element goes
    before the first one whose key is not smaller. *)
Section Sort.
Context {A : Type} (key : A -> Q).

Fixpoint insert_by (x : A) (l : list A) : list A :=
  match l with
  | [] => [x]
  | y :: l' =>
      if Qle_bool (key x) (key y) then x :: y :: l' else y :: insert_by x l'
  end.

Definition sort_by (l : list A) : list A := fold_right insert_by [] l.
End Sort.

(** [np.sum(arrays, axis=0)] for a list of arrays of one shape. *)
Definition arr_sum (l : list array) : array :=
  match l with
  | [] => []
  | a :: l' => fold_left arr_add l' a
  end.

(** An array divided by a scalar. *)
Definition arr_div {S} (a : array) (c : Q) : M S array :=
  if Qeq_bool c 0 then raise ZeroDivisionError else ret (arr_map (fun x => x / c) a).

(* ===================================================================== *)
(** * [opytimizer/optimizers/science/gsa.py]                              *)
(* ===================================================================== *)

Module GSA.
Local Open Scope comp_scope.

(** [GSA.__init__(self, params=None)] *)
Definition __init__ (params : value) : M object unit :=
  Optimizer.__init__ (VStr "") ;;;
  (* Initial gravity value *)
  setattr "G" (VFloat 2.467) ;;;
  (* Builds the class *)
  self_build cls_GSA params.

Section Methods.
Context `{Externals}.
(** [self.G] *)
Variable G : Q.

(** [GSA._calculate_mass(self, agents)] *)
Definition _calculate_mass (agents : list loc) : M world (list Q) :=
  (* Gathers the best and worst agents *)
  first <- index agents 0 ;;
  last <- index agents (length agents - 1) ;;
  a0 <- read first ;;
  a1 <- read last ;;
  let best := fit a0 in
  let worst := fit a1 in
  (* Calculating agents' masses using equation 15 *)
  mass <- map_m (fun agent =>
          a <- read agent ;;
          lift (div (fit a - worst) (best - worst))) agents ;;
  (* Normalizing agents' masses *)
  map_m (fun m => lift (div m (np_sum mass))) mass.

(** [GSA._calculate_force(self, agents, mass, gravity)] *)
Definition _calculate_force (agents : list loc) (mass : list Q)
  (gravity : Q) : M world (list array) :=
  (* Calculates the force *)
  force <- map_m (fun i =>
           map_m (fun j =>
             mi <- index mass i ;;
             mj <- index mass j ;;
             ai <- index agents i ;;
             aj <- index agents j ;;
             pi <- read ai ;;
             pj <- read aj ;;
             c <- lift (div (gravity * (mi * mj))
                            (euclidean_distance (position pi) (position pj)
                             + EPSILON)) ;;
             aj <- index agents j ;;
             ai <- index agents i ;;
             pj <- read aj ;;
             pi <- read ai ;;
             ret (arr_scale c (arr_sub (position pj) (position pi))))
             (seq 0 (length agents)))
           (seq 0 (length agents)) ;;
  (* Applying a stochastic trait to the force *)
  u <- uniform ;;
  ret (map (fun row => arr_sum (map (arr_scale u) row)) force).

(** [GSA._update_velocity(self, force, mass, velocity)] *)
Definition _update_velocity (force : array) (mass : Q) (velocity : array)
  : M world array :=
  (* Calculates the acceleration using paper's equation 10 *)
  acceleration <- arr_div force (mass + EPSILON) ;;
  (* Calculates the new velocity *)
  u <- uniform ;;
  ret (arr_add (arr_scale u velocity) acceleration).

(** [GSA._update_position(self, position, velocity)] *)
Definition _update_position (position velocity : array) : array :=
  arr_add position velocity.

(** [GSA.update(self, agents, velocity, iteration)].  The list [agents]
is sorted in place and [velocity] is written row by row: both are
returned. *)
Definition update (agents : list loc) (velocity : list array)
  (iteration : nat) : M world (list loc * list array) :=
  (* Sorting agents *)
  w <- get ;;
  let agents := sort_by (fun a => fit (agent_at w a)) agents in
  (* Calculating the current gravity *)
  gravity <- lift (div G (inject_Z (Z.of_nat iteration) + 1)) ;;
  (* Calculating agents' mass *)
  mass <- _calculate_mass agents ;;
  (* Calculating agents' attraction force *)
  force <- _calculate_force agents mass gravity ;;
  (* Iterates through all agents *)
  velocity <- for_fold (enumerate agents) velocity (fun ia velocity =>
    let '(i, agent) := ia in
    (* Updates current agent velocities *)
    fi <- index force i ;;
    mi <- index mass i ;;
    vi <- index velocity i ;;
    v <- _update_velocity fi mi vi ;;
    velocity <- assign velocity i v ;;
    (* Updates current agent positions *)
    a <- read agent ;;
    vi <- index velocity i ;;
    set_position agent (_update_position (position a) vi) ;;;
    ret velocity) ;;
  ret (agents, velocity).

(** [GSA.run(self, space, function, store_best_only, pre_evaluate)] *)
Definition run (space : Space) (function : Function)
  (store_best_only : bool) (pre_evaluate : Hook) : M world History :=
  (* Creates an array of velocities *)
  let velocity := replicate (n_agents space)
                  (arr_zeros (s_n_variables space) (n_dimensions space)) in
  (* Initial search space evaluation *)
  self__evaluate cls_GSA space function pre_evaluate ;;;
  (* We will define a History object for further dumping *)
  let history := mkHistory store_best_only [] in
  (* These are the number of iterations to converge *)
  for_fold (seq 0 (n_iterations space)) history (fun t history =>
    (* Updates agents *)
    self__update cls_GSA 3 ;;;
    (* Checking if agents meet the bounds limits *)
    Space_clip_by_bound space ;;;
    (* After the update, we need to re-evaluate the search space *)
    self__evaluate cls_GSA space function pre_evaluate ;;;
    (* Every iteration, we need to dump agents and best agent *)
    dump history (agents space) (best_agent space)).
End Methods.
End GSA.

(* ===================================================================== *)
(** * [opytimizer/optimizers/swarm/ba.py]                                 *)
(* ===================================================================== *)

Module BA.
Local Open Scope comp_scope.

(** [BA.__init__(self, params=None)] *)
Definition __init__ (params : value) : M object unit :=
  Optimizer.__init__ (VStr "") ;;;
  (* Minimum frequency range *)
  setattr "f_min" (VInt 0) ;;;
  (* Maximum frequency range *)
  setattr "f_max" (VInt 2) ;;;
  (* Loudness parameter *)
  setattr "A" (VFloat 0.5) ;;;
  (* Pulse rate *)
  setattr "r" (VFloat 0.5) ;;;
  (* Builds the class *)
  self_build cls_BA params.

(** The names that [update] rebinds or writes through: the local
  [best_agent] and the four arrays it receives. *)
Record locals : Type := mkLocals {
  local_best_agent : loc;
  frequency : list Q;
  velocity : list array;
  loudness : list Q;
  pulse_rate : list Q
  }.

Section Methods.
Context `{Externals}.
(** [self.f_min], [self.f_max], [self.A], [self.r] *)
Variables f_min f_max A r : Q.

(** [BA._update_frequency(self, min_frequency, max_frequency)] *)
Definition _update_frequency (min_frequency max_frequency : Q)
  : M world Q :=
  (* Generating beta random number *)
  beta <- uniform ;;
  (* Calculating new frequency *)
  (* Note that we have to apply (min - max) instead of (max - min) or it
   will not converge *)
  ret (min_frequency + (min_frequency - max_frequency) * beta).

(** [BA._update_velocity(self, position, best_position, frequency,
velocity)] *)
Definition _update_velocity (position best_position : array)
  (frequency : Q) (velocity : array) : array :=
  arr_add velocity
    (arr_map (fun x => x * frequency) (arr_sub position best_position)).

(** [BA._update_position(self, position, velocity)] *)
Definition _update_position (position velocity : array) : array :=
  arr_add position velocity.

(** The body of the loop of [update], for agent number [i]. *)
Definition update_agent (function : Function) (iteration : nat)
  (alpha : Q) (ia : nat * loc) (l : locals) : M world locals :=
  let '(i, agent) := ia in
  let '(mkLocals best_agent frequency velocity loudness pulse_rate) := l in
  (* Updates frequency *)
  f <- _update_frequency f_min f_max ;;
  frequency <- assign frequency i f ;;
  (* Updates velocity *)
  a <- read agent ;;
  b <- read best_agent ;;
  fi <- index frequency i ;;
  vi <- index velocity i ;;
  velocity <- assign velocity i
              (_update_velocity (position a) (position b) fi vi) ;;
  (* Updates agent's position *)
  a <- read agent ;;
  vi <- index velocity i ;;
  set_position agent (_update_position (position a) vi) ;;;
  (* Generating a random probability *)
  p <- uniform ;;
  (* Generating a random number *)
  e <- gaussian ;;
  (* Check if probability is bigger than current pulse rate *)
  pr <- index pulse_rate i ;;
  (if Qltb pr p then
    (* Performing a local random walk (eq. 5) *)
    emit (LocalWalk i) ;;;
    b <- read best_agent ;;
    m <- lift (np_mean loudness) ;;
    set_position agent (arr_shift (0.001 * e * m) (position b))
   else ret tt) ;;;
  (* Checks agent limits *)
  clip_agent agent ;;;
  (* Evaluates agent *)
  a <- read agent ;;
  fv <- call function (position a) ;;
  set_fit agent fv ;;;
  (* Checks if probability is smaller than loudness and if fit is
   better *)
  li <- index loudness i ;;
  a <- read agent ;;
  b <- read best_agent ;;
  if Qltb p li && Qltb (fit a) (fit b) then
    (* Copying the new solution to space's best agent *)
    best_agent <- deepcopy agent ;;
    (* Increasing pulse rate (eq. 6) *)
    pulse_rate <- assign pulse_rate i
      (r * (1 - np_exp (- alpha * inject_Z (Z.of_nat iteration)))) ;;
    (* Decreasing loudness (eq. 6) *)
    loudness <- assign loudness i (A * alpha) ;;
    ret (mkLocals best_agent frequency velocity loudness pulse_rate)
  else ret (mkLocals best_agent frequency velocity loudness pulse_rate).

(** [BA.update(self, agents, best_agent, function, iteration, frequency,
velocity, loudness, pulse_rate)] *)
Definition update (agents : list loc) (best_agent : loc)
  (function : Function) (iteration : nat)
  (frequency : list Q) (velocity : list array)
  (loudness pulse_rate : list Q) : M world locals :=
  (* Declaring alpha constant *)
  let alpha := 0.9 in
  (* Iterates through all agents *)
  for_fold (enumerate agents)
    (mkLocals best_agent frequency velocity loudness pulse_rate)
    (update_agent function iteration alpha).

(** [BA.run(self, space, function, store_best_only, pre_evaluate)] *)
Definition run (space : Space) (function : Function)
  (store_best_only : bool) (pre_evaluate : Hook) : M world History :=
  (* Instanciating array of frequencies, velocities, loudness and pulse
   rates *)
  frequency <- uniform_array f_min f_max (n_agents space) ;;
  let velocity := replicate (n_agents space)
                  (arr_zeros (s_n_variables space) (n_dimensions space)) in
  loudness <- uniform_array 0 A (n_agents space) ;;
  pulse_rate <- uniform_array 0 r (n_agents space) ;;
  (* Initial search space evaluation *)
  self__evaluate cls_BA space function pre_evaluate ;;;
  (* We will define a History object for further dumping *)
  let history := mkHistory store_best_only [] in
  (* These are the number of iterations to converge *)
  for_fold (seq 0 (n_iterations space)) history (fun t history =>
    (* Updates agents *)
    self__update cls_BA 8 ;;;
    (* Checks if agents meet the bounds limits *)
    Space_clip_by_bound space ;;;
    (* After the update, we need to re-evaluate the search space *)
    self__evaluate cls_BA space function pre_evaluate ;;;
    (* Every iteration, we need to dump agents and best agent *)
    dump history (agents space) (best_agent space)).
End Methods.
End BA.

(* ===================================================================== *)
(** * [opytimizer/optimizers/swarm/sbo.py]                                *)
(* ===================================================================== *)

Module SBO.
Local Open Scope comp_scope.

(** [SBO.__init__(self, params=None)] *)
Definition __init__ (params : value) : M object unit :=
  Optimizer.__init__ (VStr "") ;;;
  (* Step size *)
  setattr "alpha" (VFloat 0.9) ;;;
  (* Probability of mutation *)
  setattr "p_mutation" (VFloat 0.05) ;;;
  (* Percentage of width between lower and upper bounds *)
  setattr "z" (VFloat 0.02) ;;;
  (* Builds the class *)
  self_build cls_SBO params.

(** The three lists computed at the head of [update], from the fitness of
  each agent: [fitness], [total_fitness] and [probs]. *)
Definition fitness (fits : list Q) : result (list Q) :=
  map_r (fun fit => if Qle_bool 0 fit then div 1 (1 + fit)
                    else Ok (1 + Qabs fit)) fits.

Definition total_fitness (fitness : list Q) : Q := np_sum fitness.

Definition probs (fitness : list Q) : result (list Q) :=
  map_r (fun fit => div fit (total_fitness fitness)) fitness.

Section Methods.
Context `{Externals}.
(** [self.alpha], [self.p_mutation], [self.z] *)
Variables alpha p_mutation z : Q.

(** The body of the inner loop of [update]: decision variable [j] of
[agent]. *)
Definition update_variable (agents : list loc) (best_agent : loc)
  (sigma probs : list Q) (agent : loc) (j : nat) : M world unit :=
  (* Selects a random individual based on its probability *)
  s <- choice (length agents) probs ;;
  (* Calculates the lambda factor *)
  ps <- index probs s ;;
  lambda_k <- lift (div alpha (1 + ps)) ;;
  (* Updates the decision variable position *)
  a <- read agent ;;
  xj <- index (position a) j ;;
  donor <- index agents s ;;
  d <- read donor ;;
  dj <- index (position d) j ;;
  b <- read best_agent ;;
  bj <- index (position b) j ;;
  a <- read agent ;;
  yj <- index (position a) j ;;
  let step :=
    map (Qmult lambda_k)
        (row_map2 Qminus (map (fun x => x / 2) (row_map2 Qplus dj bj)) yj) in
  set_position agent (<[j := row_map2 Qplus xj step]> (position a)) ;;;
  (* Generates an uniform random number *)
  r1 <- uniform ;;
  (* If random number is smaller than probability of mutation *)
  if Qltb r1 p_mutation then
    (* Mutates the decision variable position *)
    a <- read agent ;;
    xj <- index (position a) j ;;
    sj <- index sigma j ;;
    g <- gaussian ;;
    set_position agent (<[j := map (fun x => x + sj * g) xj]> (position a))
  else ret tt.

(** [SBO.update(self, agents, best_agent, function, sigma)] *)
Definition update (agents : list loc) (best_agent : loc)
  (function : Function) (sigma : list Q) : M world unit :=
  (* Calculates a list of fitness per agent *)
  w <- get ;;
  fitness <- lift (fitness (map (fun a => fit (agent_at w a)) agents)) ;;
  (* Calculates the probability of each agent's fitness *)
  probs <- lift (probs fitness) ;;
  (* Iterates through all agents *)
  for_each agents (fun agent =>
    (* For every decision variable *)
    a <- read agent ;;
    for_each (seq 0 (n_variables a))
      (update_variable agents best_agent sigma probs agent) ;;;
    (* Checks agent's limits *)
    clip_agent agent ;;;
    (* Calculates its fitness *)
    a <- read agent ;;
    f <- call function (position a) ;;
    set_fit agent f).

(** [SBO.run(self, space, function, store_best_only, pre_evaluate)] *)
Definition run (space : Space) (function : Function)
  (store_best_only : bool) (pre_evaluate : Hook) : M world History :=
  (* Calculates the width between lower and upper bounds *)
  let sigma := zip_with (fun lb ub => z * (ub - lb))
                      (s_lb space) (s_ub space) in
  (* Initial search space evaluation *)
  self__evaluate cls_SBO space function pre_evaluate ;;;
  (* We will define a History object for further dumping *)
  let history := mkHistory store_best_only [] in
  (* These are the number of iterations to converge *)
  for_fold (seq 0 (n_iterations space)) history (fun t history =>
    (* Updates agents *)
    self__update cls_SBO 4 ;;;
    (* Checks if agents meet the bounds limits *)
    Space_clip_by_bound space ;;;
    (* After the update, we need to re-evaluate the search space *)
    self__evaluate cls_SBO space function pre_evaluate ;;;
    (* Every iteration, we need to dump agents and best agent *)
    dump history (agents space) (best_agent space)).
End Methods.
End SBO.

(* ===================================================================== *)
(** * A concrete environment                                              *)
(* ===================================================================== *)

(** An instance of the externals on which the model can be run: the
    generator state is a counter, uniform draws cycle through
    0, 1/4, 1/2, 3/4, gaussian draws through -1, 0, 1, a choice among [n]
    is the counter modulo [n]; the distance is the sum of the absolute
    differences and the exponential is replaced by a rational function with
    values in (0, 1] on negative arguments. *)
Definition sample_distance (a b : array) : Q :=
  np_sum (map (fun row => np_sum (map Qabs row)) (arr_sub a b)).

#[global] Instance sample_externals : Externals := {|
  Rng := nat;
  FState := unit;
  generate_uniform_random_number g :=
    (inject_Z (Z.of_nat (g mod 4)) / 4, S g);
  generate_uniform_array low high size g :=
    (map (fun k => low + (high - low) * (inject_Z (Z.of_nat ((g + k) mod 4)) / 4))
         (seq 0 size), (g + size)%nat);
  generate_gaussian_random_number g :=
    (inject_Z (Z.of_nat (g mod 3)) - 1, S g);
  generate_choice_distribution n probs g := ((g mod n)%nat, S g);
  euclidean_distance := sample_distance;
  EPSILON := 1 / 1000000;
  np_exp x := 1 / (1 + Qabs x)
|}.

(** The sphere function, [sum(x ** 2)]. *)
Definition sphere : @Function sample_externals :=
  fun _ p => np_sum (map (fun row => np_sum (map (fun x => x * x) row)) p).

(** A heap of agents with one variable of one dimension each, bounds
    [[-10, 10]], at the positions and with the fitness given; they are
    stored at locations 1, 2, ... and location 0 holds a standalone best
    agent. *)
Definition sample_agent (x f : Q) : Agent := mkAgent [[x]] f [-10] [10] 1.

Definition sample_heap (best : Q * Q) (pop : list (Q * Q)) : gmap loc Agent :=
  list_to_map
    ((0%nat, sample_agent best.1 best.2)
       :: zip (seq 1 (length pop)) (map (fun xf => sample_agent xf.1 xf.2) pop)).

Definition sample_world (best : Q * Q) (pop : list (Q * Q))
  : @world sample_externals :=
  mkWorld (sample_heap best pop) 0%nat tt [].

Definition sample_space (n_agents n_iterations : nat) : Space :=
  mkSpace (seq 1 n_agents) 0%nat n_agents 1 1 n_iterations [-10] [10].

(* ===================================================================== *)
(** * Vocabulary of the properties                                        *)
(* ===================================================================== *)

(** Modelled from the spec: the invariant of a search space.  Its
    [best_agent] is a standalone agent that never aliases a member of the
    population, and every reference of the space is to a live agent. *)
Definition Space_wf `{Externals} (sp : Space) (w : world) : Prop :=
  (best_agent sp ∉ agents sp) /\
  is_Some (heap w !! best_agent sp) /\
  Forall (fun a => is_Some (heap w !! a)) (agents sp).

(** [c] keeps the state inside [I], whether it returns or raises. *)
Definition preserves {S A} (I : S -> Prop) (c : M S A) : Prop :=
  forall s, I s -> I (c s).2.

(** [c] never raises. *)
Definition total {S A} (c : M S A) : Prop :=
  forall s, is_ok (c s).1 = true.

(** The fitness of the agent behind a reference. *)
Definition fit_at `{Externals} (w : world) (a : loc) : Q := fit (agent_at w a).
Definition position_at `{Externals} (w : world) (a : loc) : array :=
  position (agent_at w a).

(** The generator after the three draws that open [BA.run]. *)
Definition ba_rng `{Externals} (f_min f_max A r : Q) (n : nat) (g : Rng) : Rng :=
  let g1 := (generate_uniform_array f_min f_max n g).2 in
  let g2 := (generate_uniform_array 0 A n g1).2 in
  (generate_uniform_array 0 r n g2).2.

(** Whenever [c] returns, its result satisfies [Q]. *)
Definition yields {S A} (Q : A -> Prop) (c : M S A) : Prop :=
  forall s a s', c s = (Ok a, s') -> Q a.

(** [c] returns from every state, with a value in [R]. *)
Definition returns {S A} (R : A -> Prop) (c : M S A) : Prop :=
  forall s, exists a s', c s = (Ok a, s') /\ R a.

(** Whenever [c] started in a state of [P] returns, it does so in a state
    of [Q]. *)
Definition ensures {S A} (P : S -> Prop) (c : M S A) (Q : A -> S -> Prop)
  : Prop :=
  forall s a s', P s -> c s = (Ok a, s') -> Q a s'.

(** An array of [n] rows of [d] numbers. *)
Definition shaped (n d : nat) (a : array) : Prop :=
  length a = n /\ Forall (fun row => length row = d) a.

(** The private field [key] holds a number in the range [ok]. *)
Definition holds (key : string) (ok : Q -> Prop) (self : object) : Prop :=
  exists v x, attrs self !! key = Some v /\ as_number v = Some x /\ ok x.

(** The ranges that the property setters of each class test before they
    write the private field. *)
Definition hyperparams_ok (self : object) : Prop :=
  match cls self with
  | cls_Optimizer => True
  | cls_GSA => holds "_G" (fun x => 0 <= x) self
  | cls_BA =>
      holds "_f_min" (fun x => 0 <= x) self /\
      holds "_f_max" (fun x => 0 <= x) self /\
      holds "_A" (fun x => 0 <= x) self /\
      holds "_r" (fun x => 0 <= x) self
  | cls_SBO =>
      holds "_alpha" (fun x => 0 <= x) self /\
      holds "_p_mutation" (fun x => 0 <= x <= 1) self /\
      holds "_z" (fun x => 0 <= x <= 1) self
  end.


(** Between [w] and [w'] nothing but the positions of [agents] differs (and
    the state of the generator): the objects and what they hold apart from
    their position, the state of the objective and the trace are the
    same. *)
Definition moved_only `{Externals} (agents : list loc) (w w' : world)
  : Prop :=
  fstate w' = fstate w /\ trace w' = trace w /\
  forall x,
    (x ∉ agents -> heap w' !! x = heap w !! x) /\
    (is_Some (heap w' !! x) <-> is_Some (heap w !! x)) /\
    fit (agent_at w' x) = fit (agent_at w x) /\
    lb (agent_at w' x) = lb (agent_at w x) /\
    ub (agent_at w' x) = ub (agent_at w x) /\
    n_variables (agent_at w' x) = n_variables (agent_at w x).

(** The agent behind [a] is a live object whose fitness is that of its
    position. *)
Definition evaluated `{Externals} (function : Function) (w : world)
    (a : loc) : Prop :=
  is_Some (heap w !! a) /\
  fit_at w a = function (fstate w) (position_at w a).

(** The agent behind [a] is a live object and the state of the objective is
    [fs]; the object behind [a] is [x] and the state of the objective is
    [fs]. *)
Definition live_at `{Externals} (a : loc) (fs : FState) (w : world) : Prop :=
  is_Some (heap w !! a) /\ fstate w = fs.
Definition holds_at `{Externals} (a : loc) (x : Agent) (fs : FState)
    (w : world) : Prop :=
  heap w !! a = Some x /\ fstate w = fs.

(** Between [w] and [w'] only the agents of [agents] have been written to,
    and neither their bounds nor their number of variables: no object has
    appeared or disappeared and the state of the objective and the trace
    are the same. *)
Definition touched_only `{Externals} (agents : list loc) (w w' : world)
  : Prop :=
  fstate w' = fstate w /\ trace w' = trace w /\
  forall x,
    (x ∉ agents -> heap w' !! x = heap w !! x) /\
    (is_Some (heap w' !! x) <-> is_Some (heap w !! x)) /\
    lb (agent_at w' x) = lb (agent_at w x) /\
    ub (agent_at w' x) = ub (agent_at w x) /\
    n_variables (agent_at w' x) = n_variables (agent_at w x).

(* ===================================================================== *)
(** * Properties: attribute resolution                                    *)
(* ===================================================================== *)

Lemma klass_concrete_or_base (c : klass) :
  c = cls_Optimizer \/ c = cls_GSA \/ c = cls_BA \/ c = cls_SBO.
Proof. destruct c; auto. Qed.

(** Every class finds [hyperparams] and [built] in [Optimizer]. *)
Lemma setattr_hyperparams (v : value) (self : object) :
  setattr "hyperparams" v self = fset_hyperparams v self.
Proof. unfold setattr. destruct (cls self); reflexivity. Qed.

Lemma setattr_built (v : value) (self : object) :
  setattr "built" v self = store "_built" v self.
Proof. unfold setattr. destruct (cls self); reflexivity. Qed.

(* ===================================================================== *)
(** * Properties: the build step                                          *)
(* ===================================================================== *)

(** The loop of [_build] over the items of the mapping. *)
Local Abbreviation apply_items items :=
  (for_each items (fun kv : string * value => setattr kv.1 kv.2)).

(** A failure of the loop is the failure of the setter of one of the
    items. *)
Lemma apply_items_raise (items : list (string * value)) (s s' : object) (e : exn) :
  apply_items items s = (Raise e, s') ->
  exists k v s0, (k, v) ∈ items /\ setattr k v s0 = (Raise e, s').
Proof.
  revert s. induction items as [|[k v] items IH]; intros s Hrun.
  - discriminate.
  - simpl in Hrun. unfold bind in Hrun.
    destruct (setattr k v s) as [[[]|e0] s1] eqn:Hset.
    + destruct (IH _ Hrun) as (k' & v' & s0 & Hin & Hk).
      exists k', v', s0. split; [right; exact Hin | exact Hk].
    + inversion Hrun; subst. exists k, v, s. split; [left | exact Hset].
Qed.

Lemma build_unfold (hyperparams : value) (self : object) :
  Optimizer._build hyperparams self =
  if is_dict_or_none hyperparams then
    match apply_items (dict_items hyperparams)
                      (store "_hyperparams" hyperparams self).2 with
    | (Ok _, s) => store "_built" (VBool true) s
    | (Raise e, s) => (Raise e, s)
    end
  else (Raise (E_TypeError "`hyperparams` should be a dictionary"), self).
Proof.
  unfold Optimizer._build, bind. rewrite setattr_hyperparams.
  unfold fset_hyperparams.
  destruct hyperparams as [| | | | |items]; simpl; try reflexivity.
  - rewrite setattr_built. reflexivity.
  - destruct items as [|kv items].
    + simpl. rewrite setattr_built. reflexivity.
    + unfold bind.
      destruct (for_each _ _ _) as [[[]|e] s];
        [apply setattr_built | reflexivity].
Qed.

(** The setter of [G] (class [GSA]) and of [p_mutation] (class [SBO]). *)
Lemma setattr_G (v : value) (a : gmap string value) :
  setattr "G" v (Object cls_GSA a) =
  match as_number v with
  | None => (Raise (E_TypeError "`G` should be a float or integer"), Object cls_GSA a)
  | Some g =>
      if Qltb g 0
      then (Raise (E_ValueError "`G` should be >= 0"), Object cls_GSA a)
      else (Ok tt, Object cls_GSA (<["_G" := v]> a))
  end.
Proof.
  unfold setattr. simpl. unfold fset_G.
  destruct (as_number v); [destruct (Qltb q 0)|]; reflexivity.
Qed.

Lemma setattr_p_mutation (v : value) (a : gmap string value) :
  setattr "p_mutation" v (Object cls_SBO a) =
  match as_number v with
  | None =>
      (Raise (E_TypeError "`p_mutation` should be a float or integer"),
       Object cls_SBO a)
  | Some p =>
      if Qltb p 0 || Qltb 1 p
      then (Raise (E_ValueError "`p_mutation` should be between 0 and 1"),
            Object cls_SBO a)
      else (Ok tt, Object cls_SBO (<["_p_mutation" := v]> a))
  end.
Proof.
  unfold setattr. simpl. unfold fset_p_mutation.
  destruct (as_number v); [destruct (Qltb q 0 || Qltb 1 q)|]; reflexivity.
Qed.

Lemma Qltb_lt (x y : Q) : Qltb x y = true <-> x < y.
Proof.
  unfold Qltb. rewrite negb_true_iff.
  destruct (Qle_bool y x) eqn:E.
  - apply Qle_bool_iff in E. split; [discriminate | intros; lra].
  - split; [intros _ | reflexivity].
    destruct (Qlt_le_dec x y) as [Hlt|Hle]; [exact Hlt|].
    apply Qle_bool_iff in Hle. congruence.
Qed.

Lemma Qltb_ge (x y : Q) : Qltb x y = false <-> y <= x.
Proof.
  unfold Qltb. rewrite negb_false_iff. apply Qle_bool_iff.
Qed.

(** C4 (as amended).  [_build] raises the type error of [hyperparams] when
    the object supplied is neither a mapping nor [None], and leaves the
    optimizer as it was.  Otherwise it stores the object, applies the
    supplied keys in order through [setattr] -- where the first setter that
    refuses its value (a type error for a value that is not a number, a
    value error for a number out of range) ends the build with that error
    -- and, when every key was accepted, sets [built] to true.  In
    particular [G] on a [GSA] raises a value error exactly on a negative
    number, and [p_mutation] on an [SBO] exactly on a number outside
    [[0, 1]]. *)
Theorem build_applies_items_then_sets_built :
  (forall (hyperparams : value) (self : object),
     if is_dict_or_none hyperparams then
       match apply_items (dict_items hyperparams)
               (Object (cls self)
                       (<["_hyperparams" := hyperparams]> (attrs self))) with
       | (Ok _, s) =>
           Optimizer._build hyperparams self =
             (Ok tt, Object (cls s) (<["_built" := VBool true]> (attrs s)))
       | (Raise e, s) =>
           Optimizer._build hyperparams self = (Raise e, s) /\
           exists k v s0,
             (k, v) ∈ dict_items hyperparams /\ setattr k v s0 = (Raise e, s)
       end
     else
       Optimizer._build hyperparams self =
         (Raise (E_TypeError "`hyperparams` should be a dictionary"), self)) /\
  (forall (v : value) (a : gmap string value),
     (exists msg, (setattr "G" v (Object cls_GSA a)).1 = Raise (E_ValueError msg))
     <-> exists g, as_number v = Some g /\ g < 0) /\
  (forall (v : value) (a : gmap string value),
     (exists msg,
        (setattr "p_mutation" v (Object cls_SBO a)).1 = Raise (E_ValueError msg))
     <-> exists p, as_number v = Some p /\ (p < 0 \/ 1 < p)).
Proof.
  split; [|split].
  - intros hp self. rewrite build_unfold.
    destruct (is_dict_or_none hp) eqn:Hd; [|reflexivity].
    unfold store, modify at 1. simpl.
    destruct (for_each _ _ _) as [[[]|e] s] eqn:Hrun.
    + reflexivity.
    + split; [reflexivity|]. eapply apply_items_raise; exact Hrun.
  - intros v a. rewrite setattr_G. split.
    + intros [msg Hr]. destruct (as_number v) as [g|]; [|discriminate].
      destruct (Qltb g 0) eqn:Hg; [|discriminate].
      exists g. split; [reflexivity | apply Qltb_lt; exact Hg].
    + intros (g & -> & Hg). apply Qltb_lt in Hg. rewrite Hg. eexists; reflexivity.
  - intros v a. rewrite setattr_p_mutation. split.
    + intros [msg Hr]. destruct (as_number v) as [p|]; [|discriminate].
      destruct (Qltb p 0 || Qltb 1 p) eqn:Hp; [|discriminate].
      exists p. split; [reflexivity|].
      apply orb_true_iff in Hp. rewrite !Qltb_lt in Hp. exact Hp.
    + intros (p & -> & Hp). rewrite <- !Qltb_lt, <- orb_true_iff in Hp.
      rewrite Hp. eexists; reflexivity.
Qed.

(** C4, as stated, fails: a mapping whose value a setter refuses makes
    [_build] raise a type error although a mapping was supplied -- on a
    freshly initialised [Optimizer] for the key [hyperparams], on a [GSA]
    for a [G] that is not a number. *)
Lemma build_type_error_on_a_mapping :
  let self := (Optimizer.__init__ (VStr "") (Object cls_Optimizer ∅)).2 in
  let hyperparams := VDict [("hyperparams", VInt 1)] in
  let hyperparams' := VDict [("G", VStr "high")] in
  is_dict_or_none hyperparams = true /\
  (Optimizer._build hyperparams self).1 =
    Raise (E_TypeError "`hyperparams` should be a dictionary") /\
  is_dict_or_none hyperparams' = true /\
  (Optimizer._build hyperparams' (Object cls_GSA ∅)).1 =
    Raise (E_TypeError "`G` should be a float or integer").
Proof. repeat split; reflexivity. Qed.

(** The constructors of the concrete classes end with [self.build(params)],
    a name that no class binds: whatever the parameters, they raise. *)
Remark constructors_call_an_unbound_build (params : value) :
  (GSA.__init__ params (Object cls_GSA ∅)).1 = Raise (AttributeError "build") /\
  (BA.__init__ params (Object cls_BA ∅)).1 = Raise (AttributeError "build") /\
  (SBO.__init__ params (Object cls_SBO ∅)).1 = Raise (AttributeError "build").
Proof. repeat split; reflexivity. Qed.

(* ===================================================================== *)
(** * Properties: reasoning about computations                            *)
(* ===================================================================== *)

Section Computations.
Context {S : Type}.
Implicit Types I : S -> Prop.

Lemma preserves_ret {A} I (a : A) : preserves I (ret a).
Proof. intros s Hs. exact Hs. Qed.

Lemma preserves_raise {A} I (e : exn) : preserves I (@raise S A e).
Proof. intros s Hs. exact Hs. Qed.

Lemma preserves_lift {A} I (r : result A) : preserves I (lift r).
Proof. intros s Hs. exact Hs. Qed.

Lemma preserves_get I : preserves I get.
Proof. intros s Hs. exact Hs. Qed.

Lemma preserves_modify I (f : S -> S) :
  (forall s, I s -> I (f s)) -> preserves I (modify f).
Proof. intros Hf s Hs. apply Hf, Hs. Qed.

Lemma preserves_bind {A B} I (c : M S A) (k : A -> M S B) :
  preserves I c -> (forall a, preserves I (k a)) -> preserves I (bind c k).
Proof.
  intros Hc Hk s Hs. unfold bind. specialize (Hc s Hs).
  destruct (c s) as [[a|e] s']; simpl in *; [apply Hk, Hc | exact Hc].
Qed.

Lemma preserves_index {A} I (xs : list A) (i : nat) : preserves I (index xs i).
Proof. unfold index. destruct (xs !! i); [apply preserves_ret | apply preserves_raise]. Qed.

Lemma preserves_assign {A} I (xs : list A) (i : nat) (x : A) :
  preserves I (assign xs i x).
Proof. unfold assign. case_decide; [apply preserves_ret | apply preserves_raise]. Qed.

Lemma preserves_for_each {A} I (xs : list A) (body : A -> M S unit) :
  (forall x, x ∈ xs -> preserves I (body x)) -> preserves I (for_each xs body).
Proof.
  induction xs as [|x xs IH]; intros Hb; simpl.
  - apply preserves_ret.
  - apply preserves_bind; [apply Hb; left|].
    intros _. apply IH. intros y Hy. apply Hb. right. exact Hy.
Qed.

Lemma preserves_for_fold {A B} I (xs : list A) (acc : B)
    (body : A -> B -> M S B) :
  (forall x b, x ∈ xs -> preserves I (body x b)) ->
  preserves I (for_fold xs acc body).
Proof.
  revert acc. induction xs as [|x xs IH]; intros acc Hb; simpl.
  - apply preserves_ret.
  - apply preserves_bind; [apply Hb; left|].
    intros acc'. apply IH. intros y b Hy. apply Hb. right. exact Hy.
Qed.

Lemma preserves_map_m {A B} I (f : A -> M S B) (xs : list A) :
  (forall x, x ∈ xs -> preserves I (f x)) -> preserves I (map_m f xs).
Proof.
  induction xs as [|x xs IH]; intros Hf; simpl.
  - apply preserves_ret.
  - apply preserves_bind; [apply Hf; left|]. intros y.
    apply preserves_bind; [|intros ys; apply preserves_ret].
    apply IH. intros z Hz. apply Hf. right. exact Hz.
Qed.

Lemma bind_raises {A B} (c : M S A) (k : A -> M S B) s e s' :
  c s = (Raise e, s') -> bind c k s = (Raise e, s').
Proof. intros Hc. unfold bind. rewrite Hc. reflexivity. Qed.

Lemma bind_returns {A B} (c : M S A) (k : A -> M S B) s a s' :
  c s = (Ok a, s') -> bind c k s = k a s'.
Proof. intros Hc. unfold bind. rewrite Hc. reflexivity. Qed.

Lemma bind_inv {A B} (c : M S A) (k : A -> M S B) s b s' :
  bind c k s = (Ok b, s') ->
  exists a s1, c s = (Ok a, s1) /\ k a s1 = (Ok b, s').
Proof.
  unfold bind. destruct (c s) as [[a|e] s1]; [|discriminate].
  intros Hk. exists a, s1. split; [reflexivity | exact Hk].
Qed.

Lemma index_run {A} (xs : list A) (i : nat) (x : A) (s : S) :
  xs !! i = Some x -> index xs i s = (Ok x, s).
Proof. intros Hx. unfold index. rewrite Hx. reflexivity. Qed.

Lemma index_raises {A} (xs : list A) (i : nat) (s : S) :
  xs !! i = None -> index xs i s = (Raise IndexError, s).
Proof. intros Hx. unfold index. rewrite Hx. reflexivity. Qed.

Lemma assign_run {A} (xs : list A) (i : nat) (x : A) (s : S) :
  (i < length xs)%nat -> assign xs i x s = (Ok (<[i := x]> xs), s).
Proof. intros Hi. unfold assign. rewrite decide_True by exact Hi. reflexivity. Qed.

Lemma total_ret {A} (a : A) : total (@ret S A a).
Proof. intros s. reflexivity. Qed.

Lemma total_modify (f : S -> S) : total (modify f).
Proof. intros s. reflexivity. Qed.

Lemma total_bind {A B} (c : M S A) (k : A -> M S B) :
  total c -> (forall a, total (k a)) -> total (bind c k).
Proof.
  intros Hc Hk s. unfold bind. specialize (Hc s).
  destruct (c s) as [[a|e] s']; simpl in *; [apply Hk | discriminate].
Qed.

Lemma total_for_each {A} (xs : list A) (body : A -> M S unit) :
  (forall x, total (body x)) -> total (for_each xs body).
Proof.
  intros Hb. induction xs as [|x xs IH]; simpl.
  - apply total_ret.
  - apply total_bind; [apply Hb | intros _; exact IH].
Qed.

Lemma total_run {A} (c : M S A) (s : S) :
  total c -> exists a, c s = (Ok a, (c s).2).
Proof.
  intros Hc. specialize (Hc s). destruct (c s) as [[a|e] s']; [|discriminate].
  exists a. reflexivity.
Qed.

Lemma total_unit (c : M S unit) (s : S) : total c -> c s = (Ok tt, (c s).2).
Proof. intros Hc. destruct (total_run c s Hc) as [[] Ha]. exact Ha. Qed.
End Computations.

Ltac preserves_step :=
  first
    [ apply preserves_ret | apply preserves_raise | apply preserves_lift
    | apply preserves_get | apply preserves_index | apply preserves_assign
    | apply preserves_bind; [|intros ?] ].

(* ===================================================================== *)
(** * Properties: the evaluation of a space                               *)
(* ===================================================================== *)

Section EvaluateFacts.
Context `{Externals}.

Lemma total_read (a : loc) : total (read a).
Proof. intros w. reflexivity. Qed.

Lemma total_call (function : Function) (p : array) : total (call function p).
Proof. intros w. reflexivity. Qed.

Lemma total_evaluate_agent (sp : Space) (function : Function) (a : loc) :
  total (Optimizer.evaluate_agent sp function a).
Proof.
  unfold Optimizer.evaluate_agent.
  repeat first
    [ apply total_ret | apply total_modify | apply total_read
    | apply total_call | apply total_bind; [|intros ?]
    | match goal with |- total (if ?b then _ else _) => destruct b end ].
Qed.

Lemma total_evaluate (sp : Space) (function : Function) (hook : Hook) :
  total (Optimizer._evaluate sp function hook).
Proof.
  unfold Optimizer._evaluate, Optimizer.pre_evaluate.
  apply total_bind.
  - destruct hook; [apply total_modify | apply total_ret].
  - intros _. apply total_for_each. intros a. apply total_evaluate_agent.
Qed.

Lemma self__evaluate_eq (c : klass) :
  self__evaluate c = Optimizer._evaluate.
Proof. destruct c; reflexivity. Qed.

Lemma self__update_raises (c : klass) (nargs : nat) (w : world) :
  self__update c (Datatypes.S nargs) w =
  (Raise (Builtin_TypeError "_update() takes 1 positional argument"), w).
Proof. destruct c; reflexivity. Qed.
End EvaluateFacts.

(* ===================================================================== *)
(** * Properties: the run loops                                           *)
(* ===================================================================== *)

Section RunFacts.
Context `{Externals}.

Lemma uniform_array_eq (low high : Q) (size : nat) (w : world) :
  uniform_array low high size w =
  (Ok (generate_uniform_array low high size (rng w)).1,
   with_rng (generate_uniform_array low high size (rng w)).2 w).
Proof.
  unfold uniform_array. destruct (generate_uniform_array _ _ _ _); reflexivity.
Qed.

Lemma gsa_run_eq (sp : Space) (function : Function) (sbo : bool)
    (hook : Hook) (w : world) :
  GSA.run sp function sbo hook w =
  let w1 := (Optimizer._evaluate sp function hook w).2 in
  match n_iterations sp with
  | O => (Ok (mkHistory sbo []), w1)
  | Datatypes.S _ =>
      (Raise (Builtin_TypeError "_update() takes 1 positional argument"), w1)
  end.
Proof.
  unfold GSA.run. rewrite self__evaluate_eq.
  erewrite bind_returns;
    [|apply (total_unit _ _ (total_evaluate sp function hook))].
  destruct (n_iterations sp); [reflexivity|].
  cbn [seq for_fold].
  erewrite bind_raises; [reflexivity|].
  apply bind_raises, self__update_raises.
Qed.

Lemma sbo_run_eq (z : Q) (sp : Space) (function : Function) (sbo : bool)
    (hook : Hook) (w : world) :
  SBO.run z sp function sbo hook w =
  let w1 := (Optimizer._evaluate sp function hook w).2 in
  match n_iterations sp with
  | O => (Ok (mkHistory sbo []), w1)
  | Datatypes.S _ =>
      (Raise (Builtin_TypeError "_update() takes 1 positional argument"), w1)
  end.
Proof.
  unfold SBO.run. rewrite self__evaluate_eq.
  erewrite bind_returns;
    [|apply (total_unit _ _ (total_evaluate sp function hook))].
  destruct (n_iterations sp); [reflexivity|].
  cbn [seq for_fold].
  erewrite bind_raises; [reflexivity|].
  apply bind_raises, self__update_raises.
Qed.

Lemma ba_run_eq (f_min f_max A r : Q) (sp : Space) (function : Function)
    (sbo : bool) (hook : Hook) (w : world) :
  BA.run f_min f_max A r sp function sbo hook w =
  let w0 := with_rng (ba_rng f_min f_max A r (n_agents sp) (rng w)) w in
  let w1 := (Optimizer._evaluate sp function hook w0).2 in
  match n_iterations sp with
  | O => (Ok (mkHistory sbo []), w1)
  | Datatypes.S _ =>
      (Raise (Builtin_TypeError "_update() takes 1 positional argument"), w1)
  end.
Proof.
  unfold BA.run. rewrite self__evaluate_eq.
  erewrite bind_returns; [|apply uniform_array_eq].
  erewrite bind_returns; [|apply uniform_array_eq].
  erewrite bind_returns; [|apply uniform_array_eq].
  erewrite bind_returns;
    [|apply (total_unit _ _ (total_evaluate sp function hook))].
  destruct (n_iterations sp); [reflexivity|].
  cbn [seq for_fold].
  erewrite bind_raises; [reflexivity|].
  apply bind_raises, self__update_raises.
Qed.
End RunFacts.

(** C2.  What [GSA.run] and [SBO.run] do with the iteration budget of the
    space: on a budget of zero they return the empty history after one
    evaluation; on any other budget the first iteration raises at its
    update step, so that no history is returned and the world is left as
    the initial evaluation made it (no clipping, re-evaluation or dump
    took place). *)
Theorem run_returns_a_history_only_on_an_empty_budget `{Externals}
    (z : Q) (sp : Space) (function : Function) (sbo : bool) (hook : Hook)
    (w : world) :
  let w1 := (Optimizer._evaluate sp function hook w).2 in
  match n_iterations sp with
  | O =>
      GSA.run sp function sbo hook w = (Ok (mkHistory sbo []), w1) /\
      SBO.run z sp function sbo hook w = (Ok (mkHistory sbo []), w1)
  | Datatypes.S _ =>
      GSA.run sp function sbo hook w =
        (Raise (Builtin_TypeError "_update() takes 1 positional argument"), w1) /\
      SBO.run z sp function sbo hook w =
        (Raise (Builtin_TypeError "_update() takes 1 positional argument"), w1)
  end.
Proof.
  intros w1. pose proof (gsa_run_eq sp function sbo hook w) as Hg.
  pose proof (sbo_run_eq z sp function sbo hook w) as Hs.
  simpl in Hg, Hs. destruct (n_iterations sp); split; assumption.
Qed.

(** C3.  The call [self._update(...)] of the run loops is resolved along
    the MRO: no concrete class binds [_update] (each binds [update]), so
    for every class the name is found in [Optimizer], whose method takes no
    argument.  A run of [GSA] or [BA] with a budget of at least one
    iteration therefore raises at the update step of its first iteration,
    in the world left by the initial evaluation. *)
Theorem run_update_resolves_to_the_base_method `{Externals} :
  (forall c, resolve c "_update" = Some cls_Optimizer) /\
  (forall c, resolve c "update" =
             match c with cls_Optimizer => None | _ => Some c end) /\
  (forall c nargs (w : world),
     self__update c nargs w = Optimizer._update nargs w) /\
  (forall (sp : Space) (function : Function) sbo hook (w : world) n,
     n_iterations sp = Datatypes.S n ->
     GSA.run sp function sbo hook w =
       (Raise (Builtin_TypeError "_update() takes 1 positional argument"),
        (Optimizer._evaluate sp function hook w).2)) /\
  (forall f_min f_max A r (sp : Space) (function : Function) sbo hook
          (w : world) n,
     n_iterations sp = Datatypes.S n ->
     exists w0,
       heap w0 = heap w /\
       BA.run f_min f_max A r sp function sbo hook w =
         (Raise (Builtin_TypeError "_update() takes 1 positional argument"),
          (Optimizer._evaluate sp function hook w0).2)).
Proof.
  repeat split.
  - intros []; reflexivity.
  - intros []; reflexivity.
  - intros [] nargs w; reflexivity.
  - intros sp function sbo hook w n Hn. rewrite gsa_run_eq, Hn. reflexivity.
  - intros f_min f_max A r sp function sbo hook w n Hn.
    rewrite ba_run_eq, Hn. simpl. eexists. split; [|reflexivity]. reflexivity.
Qed.

(* ===================================================================== *)
(** * Properties: evaluation tracks the best agent                        *)
(* ===================================================================== *)

Section EvaluateSpec.
Context `{Externals}.
Implicit Types (w : world) (sp : Space) (function : Function).

Lemma agent_at_alter_eq (f : Agent -> Agent) (a : loc) w :
  is_Some (heap w !! a) ->
  agent_at (with_heap (alter f a (heap w)) w) a = f (agent_at w a).
Proof.
  intros [x Hx]. unfold agent_at. simpl.
  rewrite lookup_total_alter_eq, lookup_total_alt, Hx. reflexivity.
Qed.

Lemma agent_at_alter_ne (f : Agent -> Agent) (a b : loc) w :
  a <> b -> agent_at (with_heap (alter f a (heap w)) w) b = agent_at w b.
Proof. intros Hab. unfold agent_at. simpl. apply lookup_total_alter_ne, Hab. Qed.

Lemma agent_at_alter_dangling (f : Agent -> Agent) (a : loc) w :
  heap w !! a = None -> with_heap (alter f a (heap w)) w = w.
Proof.
  intros Ha. destruct w as [h g s t]. unfold with_heap. simpl in *. f_equal.
  apply map_eq. intros i. rewrite lookup_alter. case_decide; [|reflexivity].
  subst. rewrite Ha. reflexivity.
Qed.

(** The loop body of [_evaluate], run. *)
Lemma evaluate_agent_run sp function (a : loc) w :
  Optimizer.evaluate_agent sp function a w =
  let fa := function (fstate w) (position_at w a) in
  let w1 := with_heap (alter (with_fit fa) a (heap w)) w in
  if Qltb (fit_at w1 a) (fit_at w1 (best_agent sp)) then
    let w2 := with_heap (alter (with_position (position_at w1 a))
                               (best_agent sp) (heap w1)) w1 in
    (Ok tt, with_heap (alter (with_fit (fit_at w2 a)) (best_agent sp) (heap w2)) w2)
  else (Ok tt, w1).
Proof.
  unfold Optimizer.evaluate_agent, bind, read, call, set_fit, set_position,
    modify, ret, fit_at, position_at. simpl.
  destruct (Qltb _ _); reflexivity.
Qed.

(** One agent, distinct from the best one: what the loop body does to it,
  to the best agent, and to the rest of the world. *)
Lemma evaluate_agent_spec sp function (a : loc) w :
  a <> best_agent sp ->
  is_Some (heap w !! a) ->
  is_Some (heap w !! best_agent sp) ->
  let fa := function (fstate w) (position_at w a) in
  let w' := (Optimizer.evaluate_agent sp function a w).2 in
  agent_at w' a = with_fit fa (agent_at w a) /\
  agent_at w' (best_agent sp) =
    (if Qltb fa (fit_at w (best_agent sp))
     then with_fit fa (with_position (position_at w a) (agent_at w (best_agent sp)))
     else agent_at w (best_agent sp)) /\
  (forall x, x <> a -> x <> best_agent sp -> heap w' !! x = heap w !! x) /\
  (forall x, is_Some (heap w' !! x) <-> is_Some (heap w !! x)) /\
  fstate w' = fstate w.
Proof.
  intros Hab Ha Hb fa w'. subst w'. rewrite evaluate_agent_run. cbv zeta.
  change (function (fstate w) (position_at w a)) with fa.
  remember (with_heap (alter (with_fit fa) a (heap w)) w) as w1 eqn:Ew1.
  assert (Ha1 : agent_at w1 a = with_fit fa (agent_at w a))
    by (subst w1; apply agent_at_alter_eq; exact Ha).
  assert (Hb1 : agent_at w1 (best_agent sp) = agent_at w (best_agent sp))
    by (subst w1; apply agent_at_alter_ne; exact Hab).
  assert (Hn1 : forall x, x <> a -> heap w1 !! x = heap w !! x).
  { intros x Hx. subst w1. simpl. apply lookup_alter_ne. congruence. }
  assert (Hd1 : forall x, is_Some (heap w1 !! x) <-> is_Some (heap w !! x)).
  { intros x. subst w1. simpl. rewrite lookup_alter. case_decide; [|reflexivity].
    subst x. rewrite fmap_is_Some. reflexivity. }
  assert (Hs1 : fstate w1 = fstate w) by (subst w1; reflexivity).
  replace (fit_at w1 a) with fa by (unfold fit_at; rewrite Ha1; reflexivity).
  replace (fit_at w1 (best_agent sp)) with (fit_at w (best_agent sp))
    by (unfold fit_at; rewrite Hb1; reflexivity).
  clear Ew1.
  destruct (Qltb fa (fit_at w (best_agent sp))) eqn:Hlt; cbn [snd].
  - remember (with_heap (alter (with_position (position_at w1 a))
                               (best_agent sp) (heap w1)) w1) as w2 eqn:Ew2.
    assert (Hb' : is_Some (heap w1 !! best_agent sp)) by (apply Hd1; exact Hb).
    assert (Hb2 : is_Some (heap w2 !! best_agent sp)).
    { subst w2. simpl. rewrite lookup_alter_eq, fmap_is_Some. exact Hb'. }
    assert (Ha2 : agent_at w2 a = agent_at w1 a).
    { subst w2. apply agent_at_alter_ne. congruence. }
    assert (Hbb : agent_at w2 (best_agent sp) =
                  with_position (position_at w1 a) (agent_at w1 (best_agent sp))).
    { subst w2. apply agent_at_alter_eq. exact Hb'. }
    assert (Hn2 : forall x, x <> best_agent sp -> heap w2 !! x = heap w1 !! x).
    { intros x Hx. subst w2. simpl. apply lookup_alter_ne. congruence. }
    assert (Hd2 : forall x, is_Some (heap w2 !! x) <-> is_Some (heap w1 !! x)).
    { intros x. subst w2. simpl. rewrite lookup_alter.
      case_decide; [|reflexivity]. subst x. rewrite fmap_is_Some. reflexivity. }
    assert (Hs2 : fstate w2 = fstate w1) by (subst w2; reflexivity).
    clear Ew2. repeat split.
    + rewrite agent_at_alter_ne by congruence. rewrite Ha2. exact Ha1.
    + rewrite agent_at_alter_eq by exact Hb2. rewrite Hbb.
      unfold fit_at, position_at. rewrite Ha2, Ha1, Hb1. reflexivity.
    + intros x Hxa Hxb. simpl. rewrite lookup_alter_ne by congruence.
      rewrite Hn2 by exact Hxb. apply Hn1, Hxa.
    + simpl. rewrite lookup_alter.
      case_decide; [subst x; rewrite fmap_is_Some|]; intros Hx;
        apply Hd1, Hd2, Hx.
    + simpl. rewrite lookup_alter.
      case_decide; [subst x; rewrite fmap_is_Some|]; intros Hx;
        apply Hd2, Hd1, Hx.
    + simpl. congruence.
  - repeat split.
    + exact Ha1.
    + exact Hb1.
    + intros x Hxa Hxb. apply Hn1, Hxa.
    + apply Hd1.
    + apply Hd1.
    + exact Hs1.
Qed.

Lemma agent_at_heap w w' (x : loc) :
  heap w' !! x = heap w !! x -> agent_at w' x = agent_at w x.
Proof. unfold agent_at. rewrite !lookup_total_alt. intros ->. reflexivity. Qed.

(** The loop body never raises the fitness of the best agent. *)
Lemma evaluate_agent_mono sp function (a : loc) w :
  a <> best_agent sp ->
  fit_at (Optimizer.evaluate_agent sp function a w).2 (best_agent sp)
  <= fit_at w (best_agent sp).
Proof.
  intros Hab. rewrite evaluate_agent_run. cbv zeta.
  remember (with_heap (alter _ a (heap w)) w) as w1 eqn:Ew1.
  assert (Hb1 : agent_at w1 (best_agent sp) = agent_at w (best_agent sp))
    by (subst w1; apply agent_at_alter_ne; exact Hab).
  clear Ew1.
  destruct (Qltb (fit_at w1 a) (fit_at w1 (best_agent sp))) eqn:Hlt; cbn [snd].
  - apply Qltb_lt in Hlt.
    remember (with_heap (alter (with_position (position_at w1 a))
                               (best_agent sp) (heap w1)) w1) as w2 eqn:Ew2.
    destruct (heap w1 !! best_agent sp) as [b|] eqn:Hb.
    + assert (Hb2 : is_Some (heap w2 !! best_agent sp)).
      { subst w2. simpl. rewrite lookup_alter_eq, Hb. eexists; reflexivity. }
      assert (Ha2 : agent_at w2 a = agent_at w1 a).
      { subst w2. apply agent_at_alter_ne. congruence. }
      unfold fit_at at 1. rewrite agent_at_alter_eq by exact Hb2. simpl.
      unfold fit_at in *. rewrite Ha2, <- Hb1. apply Qlt_le_weak, Hlt.
    + assert (w2 = w1) as -> by (subst w2; apply agent_at_alter_dangling, Hb).
      rewrite agent_at_alter_dangling by exact Hb.
      unfold fit_at. rewrite Hb1. apply Qle_refl.
  - unfold fit_at. rewrite Hb1. apply Qle_refl.
Qed.

Lemma evaluate_loop_mono sp function (l : list loc) w :
  best_agent sp ∉ l ->
  fit_at (for_each l (Optimizer.evaluate_agent sp function) w).2 (best_agent sp)
  <= fit_at w (best_agent sp).
Proof.
  revert w. induction l as [|a l IH]; intros w Hl; simpl.
  - apply Qle_refl.
  - apply not_elem_of_cons in Hl as [Hab Hl].
    unfold bind. rewrite (total_unit _ w (total_evaluate_agent sp function a)).
    eapply Qle_trans; [apply IH, Hl|].
    apply evaluate_agent_mono. congruence.
Qed.

(** What the loop of [_evaluate] leaves behind. *)
Lemma evaluate_loop_spec sp function (l : list loc) w :
  best_agent sp ∉ l ->
  Forall (fun a => is_Some (heap w !! a)) l ->
  is_Some (heap w !! best_agent sp) ->
  let w' := (for_each l (Optimizer.evaluate_agent sp function) w).2 in
  (forall a, a ∈ l ->
     agent_at w' a =
     with_fit (function (fstate w) (position_at w a)) (agent_at w a)) /\
  (forall x, x ∉ l -> x <> best_agent sp -> heap w' !! x = heap w !! x) /\
  (forall x, is_Some (heap w' !! x) <-> is_Some (heap w !! x)) /\
  fstate w' = fstate w.
Proof.
  revert w. induction l as [|a l IH]; intros w Hl Hlive Hb; cbn zeta.
  - simpl. repeat split; try tauto. intros a Ha. inversion Ha.
  - apply not_elem_of_cons in Hl as [Hab Hl].
    apply Forall_cons in Hlive as [Ha Hlive].
    simpl. unfold bind.
    rewrite (total_unit _ w (total_evaluate_agent sp function a)).
    destruct (evaluate_agent_spec sp function a w) as (E1 & E2 & E3 & E4 & E5);
      [congruence | exact Ha | exact Hb |].
    set (w1 := (Optimizer.evaluate_agent sp function a w).2) in *.
    destruct (IH w1) as (I1 & I2 & I3 & I4); [exact Hl | | |].
    { eapply Forall_impl; [exact Hlive|]. intros x Hx. apply E4, Hx. }
    { apply E4, Hb. }
    cbn zeta in I1, I2, I3, I4.
    set (w' := (for_each l (Optimizer.evaluate_agent sp function) w1).2) in *.
    repeat split.
    + intros x Hx. destruct (decide (x ∈ l)) as [Hin|Hnin].
      * rewrite (I1 x Hin), E5. destruct (decide (x = a)) as [->|Hxa].
        -- unfold position_at. rewrite E1. reflexivity.
        -- assert (Hxb : x <> best_agent sp) by (intros ->; contradiction).
           unfold position_at.
           rewrite (agent_at_heap w w1 x (E3 x Hxa Hxb)). reflexivity.
      * apply elem_of_cons in Hx as [->|Hx]; [|contradiction].
        rewrite (agent_at_heap w1 w' a); [exact E1|].
        apply I2; [exact Hnin | congruence].
    + intros x Hx Hxb. apply not_elem_of_cons in Hx as [Hxa Hx].
      rewrite (I2 x Hx Hxb). apply E3; assumption.
    + intros Hx. apply E4, I3, Hx.
    + intros Hx. apply I3, E4, Hx.
    + congruence.
Qed.

(** Clipping the population does not touch a standalone best agent. *)
Lemma clip_keeps_best sp (x : option Agent) :
  best_agent sp ∉ agents sp ->
  preserves (fun w => heap w !! best_agent sp = x) (Space_clip_by_bound sp).
Proof.
  intros Hb. unfold Space_clip_by_bound. apply preserves_for_each.
  intros a Ha. unfold clip_agent. apply preserves_modify.
  intros w Hw. simpl. rewrite lookup_alter_ne; [exact Hw|].
  intros ->. contradiction.
Qed.

Lemma dump_keeps_world (hist : History) (ags : list loc) (best : loc) w :
  (dump hist ags best w).2 = w.
Proof. reflexivity. Qed.

(** The hook acts on the state of the objective only. *)
Lemma evaluate_run sp function (hook : Hook) w :
  Optimizer._evaluate sp function hook w =
  (Ok tt,
   (for_each (agents sp) (Optimizer.evaluate_agent sp function)
      (match hook with
       | Some k => with_fstate (k (fstate w)) w
       | None => w
       end)).2).
Proof.
  rewrite (total_unit _ w (total_evaluate sp function hook)). f_equal.
  unfold Optimizer._evaluate, Optimizer.pre_evaluate, bind.
  destruct hook; reflexivity.
Qed.

Lemma evaluate_mono sp function (hook : Hook) w :
  best_agent sp ∉ agents sp ->
  fit_at (Optimizer._evaluate sp function hook w).2 (best_agent sp)
  <= fit_at w (best_agent sp).
Proof.
  intros Hb. rewrite evaluate_run. cbn [snd].
  eapply Qle_trans; [apply evaluate_loop_mono, Hb|].
  destruct hook; apply Qle_refl.
Qed.
End EvaluateSpec.

Section EvaluateTheorem.
Context `{Externals}.
Implicit Types (w : world) (sp : Space) (function : Function).

Lemma clip_keeps_fit_bound sp (q : Q) :
  best_agent sp ∉ agents sp ->
  preserves (fun w => fit_at w (best_agent sp) <= q) (Space_clip_by_bound sp).
Proof.
  intros Hb w Hw.
  pose proof (clip_keeps_best sp (heap w !! best_agent sp) Hb w eq_refl) as Hk.
  unfold fit_at. rewrite (agent_at_heap w _ _ Hk). exact Hw.
Qed.

Lemma evaluate_keeps_fit_bound sp function (hook : Hook) (q : Q) :
  best_agent sp ∉ agents sp ->
  preserves (fun w => fit_at w (best_agent sp) <= q)
            (Optimizer._evaluate sp function hook).
Proof.
  intros Hb w Hw. eapply Qle_trans; [apply evaluate_mono, Hb | exact Hw].
Qed.

Lemma evaluate_keeps_wf sp function (hook : Hook) w :
  Space_wf sp w -> Space_wf sp (Optimizer._evaluate sp function hook w).2.
Proof.
  intros (Hb & Hlb & Hla). rewrite evaluate_run. cbn [snd].
  set (w0 := match hook with Some k => with_fstate (k (fstate w)) w | None => w end).
  assert (Hh : heap w0 = heap w) by (subst w0; destruct hook; reflexivity).
  destruct (evaluate_loop_spec sp function (agents sp) w0) as (_ & _ & Hd & _);
    [exact Hb | rewrite Hh; exact Hla | rewrite Hh; exact Hlb |].
  cbn zeta in Hd. repeat split.
  - exact Hb.
  - apply Hd. rewrite Hh. exact Hlb.
  - eapply Forall_impl; [exact Hla|]. intros a Ha. apply Hd. rewrite Hh. exact Ha.
Qed.
End EvaluateTheorem.

(** C1.  On a space whose best agent is a standalone live object,
    [_evaluate] returns, and afterwards: every agent of the population has
    kept its position and carries the fitness [function(position)]; at each
    step of its loop the best agent received the position and fitness of
    the agent at hand when that fitness was strictly below the best one,
    and was left as it was otherwise; the best agent is still standalone;
    its fitness has not increased.  Hence the best fitness does not
    increase along the iterations of a run loop whose update step does not
    raise it, nor from the start to the end of a run of [GSA], [BA] or
    [SBO]. *)
Theorem evaluate_tracks_the_best_agent `{Externals}
    (sp : Space) (function : Function) (hook : Hook) (w : world) :
  Space_wf sp w ->
  let best := best_agent sp in
  let fs := match hook with Some k => k (fstate w) | None => fstate w end in
  let w' := (Optimizer._evaluate sp function hook w).2 in
  Optimizer._evaluate sp function hook w = (Ok tt, w') /\
  (forall a, a ∈ agents sp ->
     position_at w' a = position_at w a /\
     fit_at w' a = function fs (position_at w a)) /\
  (forall a w0, a ∈ agents sp -> Space_wf sp w0 ->
     let fa := function (fstate w0) (position_at w0 a) in
     let w1 := (Optimizer.evaluate_agent sp function a w0).2 in
     fit_at w1 a = fa /\
     (fa < fit_at w0 best ->
        position_at w1 best = position_at w0 a /\ fit_at w1 best = fa) /\
     (~ fa < fit_at w0 best -> agent_at w1 best = agent_at w0 best)) /\
  Space_wf sp w' /\
  fit_at w' best <= fit_at w best /\
  (forall (u : nat -> M world unit) (n : nat) (hist : History),
     (forall t q, preserves (fun w0 => fit_at w0 best <= q) (u t)) ->
     fit_at (for_fold (seq 0 n) hist (fun t hist =>
               bind (u t) (fun _ =>
               bind (Space_clip_by_bound sp) (fun _ =>
               bind (Optimizer._evaluate sp function hook) (fun _ =>
               dump hist (agents sp) best)))) w).2 best
     <= fit_at w best) /\
  (forall sbo f_min f_max A r z,
     fit_at (GSA.run sp function sbo hook w).2 best <= fit_at w best /\
     fit_at (BA.run f_min f_max A r sp function sbo hook w).2 best
       <= fit_at w best /\
     fit_at (SBO.run z sp function sbo hook w).2 best <= fit_at w best).
Proof.
  intros Hwf best fs w'. pose proof Hwf as (Hb & Hlb & Hla).
  split; [apply (total_unit _ w (total_evaluate sp function hook))|].
  split.
  { intros a Ha. subst w'. rewrite evaluate_run. cbn [snd].
    set (w0 := match hook with Some k => with_fstate (k (fstate w)) w | None => w end).
    assert (Hh : heap w0 = heap w) by (subst w0; destruct hook; reflexivity).
    assert (Hf : fstate w0 = fs) by (subst w0 fs; destruct hook; reflexivity).
    assert (Hp : forall x, agent_at w0 x = agent_at w x)
      by (intros x; unfold agent_at; rewrite Hh; reflexivity).
    destruct (evaluate_loop_spec sp function (agents sp) w0) as (Hs & _);
      [exact Hb | rewrite Hh; exact Hla | rewrite Hh; exact Hlb |].
    cbn zeta in Hs. unfold position_at, fit_at. rewrite (Hs a Ha).
    unfold position_at. rewrite Hf, Hp. split; reflexivity. }
  split.
  { intros a w0 Ha (Hb0 & Hlb0 & Hla0) fa w1.
    assert (Hab : a <> best_agent sp) by (intros ->; contradiction).
    assert (Hlive : is_Some (heap w0 !! a)).
    { rewrite Forall_forall in Hla0. apply Hla0, Ha. }
    destruct (evaluate_agent_spec sp function a w0 Hab Hlive Hlb0)
      as (E1 & E2 & _).
    fold fa w1 in E1, E2. fold best in E2.
    split; [unfold fit_at; rewrite E1; reflexivity|]. split.
    - intros Hlt. apply Qltb_lt in Hlt. rewrite Hlt in E2.
      unfold position_at, fit_at. rewrite E2. split; reflexivity.
    - intros Hge. destruct (Qltb fa (fit_at w0 best)) eqn:Hlt; [|exact E2].
      apply Qltb_lt in Hlt. contradiction. }
  split; [apply evaluate_keeps_wf, Hwf|].
  split; [apply evaluate_mono, Hb|].
  split.
  { intros u n hist Hu.
    apply (preserves_for_fold (fun w0 => fit_at w0 best <= fit_at w best));
      [|apply Qle_refl].
    intros t hist' _.
    apply preserves_bind; [apply Hu|]. intros _.
    apply preserves_bind; [apply clip_keeps_fit_bound, Hb|]. intros _.
    apply preserves_bind; [apply evaluate_keeps_fit_bound, Hb|]. intros _.
    intros w0 Hw0. exact Hw0. }
  intros sbo f_min f_max A r z. repeat split.
  - rewrite gsa_run_eq. cbv zeta.
    destruct (n_iterations sp); apply evaluate_mono, Hb.
  - rewrite ba_run_eq. cbv zeta.
    destruct (n_iterations sp);
      apply (evaluate_mono sp function hook (with_rng _ w)), Hb.
  - rewrite sbo_run_eq. cbv zeta.
    destruct (n_iterations sp); apply evaluate_mono, Hb.
Qed.

(** The hypothesis of C1 holds of a space of three agents, on which the
    theorem then applies. *)
Lemma evaluate_tracks_the_best_agent_witness :
  Space_wf (sample_space 3 0)
           (sample_world (0, 1000) [(3, 1000); (-2, 1000); (1, 1000)]) /\
  fit_at (Optimizer._evaluate (sample_space 3 0) sphere None
            (sample_world (0, 1000) [(3, 1000); (-2, 1000); (1, 1000)])).2
         (best_agent (sample_space 3 0))
  <= fit_at (sample_world (0, 1000) [(3, 1000); (-2, 1000); (1, 1000)])
            (best_agent (sample_space 3 0)).
Proof.
  assert (Hwf : Space_wf (sample_space 3 0)
           (sample_world (0, 1000) [(3, 1000); (-2, 1000); (1, 1000)])).
  { split; [|split].
    - simpl. intros Hin. apply list_elem_of_In in Hin. simpl in Hin.
      intuition discriminate.
    - exists (sample_agent 0 1000). reflexivity.
    - repeat constructor; eexists; reflexivity. }
  split; [exact Hwf|].
  exact (proj1 (proj2 (proj2 (proj2 (proj2
    (evaluate_tracks_the_best_agent (sample_space 3 0) sphere None _ Hwf)))))).
Defined.

(* ===================================================================== *)
(** * Properties: the frequency of a bat                                  *)
(* ===================================================================== *)

Lemma uniform_run `{Externals} (w : world) :
  uniform w =
  (Ok (generate_uniform_random_number (rng w)).1,
   with_rng (generate_uniform_random_number (rng w)).2 w).
Proof.
  unfold uniform. destruct (generate_uniform_random_number (rng w)); reflexivity.
Qed.

Lemma gaussian_run `{Externals} (w : world) :
  gaussian w =
  (Ok (generate_gaussian_random_number (rng w)).1,
   with_rng (generate_gaussian_random_number (rng w)).2 w).
Proof.
  unfold gaussian. destruct (generate_gaussian_random_number (rng w)); reflexivity.
Qed.

(** C7.  [_update_frequency] draws [beta] and returns
    [min + (min - max) * beta] -- with [(min - max)], not [(max - min)].
    When the draws of the generator lie in [[0, 1)] and [f_max > f_min],
    the frequency returned lies in [(f_min - (f_max - f_min), f_min]]. *)
Theorem frequency_steps_down_from_f_min `{Externals}
    (f_min f_max : Q) (w : world) :
  (forall g, 0 <= (generate_uniform_random_number g).1 < 1) ->
  f_min < f_max ->
  let beta := (generate_uniform_random_number (rng w)).1 in
  (BA._update_frequency f_min f_max w).1 = Ok (f_min + (f_min - f_max) * beta) /\
  f_min - (f_max - f_min) < f_min + (f_min - f_max) * beta /\
  f_min + (f_min - f_max) * beta <= f_min.
Proof.
  intros Hu Hlt beta. split.
  - unfold BA._update_frequency. erewrite bind_returns; [|apply uniform_run].
    reflexivity.
  - destruct (Hu (rng w)) as [H0 H1]. fold beta in H0, H1.
    split; nra.
Qed.

Lemma sample_uniform_range (g : nat) :
  0 <= (@generate_uniform_random_number sample_externals g).1 < 1.
Proof.
  simpl. pose proof (Nat.mod_upper_bound g 4 ltac:(discriminate)) as Hb.
  assert (H0 : (0 <= Z.of_nat (g mod 4) < 4)%Z) by lia.
  unfold Qdiv, Qle, Qlt. simpl. lia.
Qed.

(** The hypotheses of C7 hold of the sample generator with the default
    range [[0, 2]] of the frequencies. *)
Lemma frequency_steps_down_from_f_min_witness :
  let w := sample_world (0, 1000) [(3, 1000)] in
  let beta := (@generate_uniform_random_number sample_externals (rng w)).1 in
  (BA._update_frequency 0 2 w).1 = Ok (0 + (0 - 2) * beta) /\
  0 - (2 - 0) < 0 + (0 - 2) * beta /\
  0 + (0 - 2) * beta <= 0.
Proof.
  exact (frequency_steps_down_from_f_min 0 2
           (sample_world (0, 1000) [(3, 1000)])
           sample_uniform_range ltac:(reflexivity)).
Defined.

(* ===================================================================== *)
(** * Properties: the selection probabilities of the bowerbirds           *)
(* ===================================================================== *)

Lemma div_ok (x y : Q) : ~ y == 0 -> div x y = Ok (x / y).
Proof.
  intros Hy. unfold div. destruct (Qeq_bool y 0) eqn:E; [|reflexivity].
  apply Qeq_bool_iff in E. contradiction.
Qed.

Lemma div_zero (x y : Q) : y == 0 -> div x y = Raise ZeroDivisionError.
Proof.
  intros Hy. unfold div. apply Qeq_bool_iff in Hy. rewrite Hy. reflexivity.
Qed.

Lemma div_inv (x y q : Q) : div x y = Ok q -> ~ y == 0 /\ q = x / y.
Proof.
  unfold div. destruct (Qeq_bool y 0) eqn:E; [discriminate|].
  intros [= <-]. split; [|reflexivity].
  intros Hy. apply Qeq_bool_iff in Hy. congruence.
Qed.

Lemma np_sum_pos (xs : list Q) :
  Forall (fun x => 0 < x) xs -> xs <> [] -> 0 < np_sum xs.
Proof.
  induction 1 as [|x xs Hx Hxs IH]; intros Hne; [contradiction|].
  simpl. destruct xs as [|y xs].
  - simpl. lra.
  - assert (0 < np_sum (y :: xs)) by (apply IH; discriminate). lra.
Qed.

(** The weight of one fitness value. *)
Lemma fitness_weight (fit : Q) :
  exists x,
    (if Qle_bool 0 fit then div 1 (1 + fit) else Ok (1 + Qabs fit)) = Ok x /\
    (0 <= fit -> x == 1 / (1 + fit)) /\
    (fit < 0 -> x == 1 + Qabs fit) /\
    0 < x.
Proof.
  destruct (Qle_bool 0 fit) eqn:E.
  - apply Qle_bool_iff in E. exists (1 / (1 + fit)).
    rewrite div_ok by lra.
    split; [reflexivity|]. split; [intros _; reflexivity|].
    split; [intros Hneg; lra|].
    apply Qlt_shift_div_l; lra.
  - assert (Hneg : fit < 0).
    { destruct (Qlt_le_dec fit 0) as [Hl|Hl]; [exact Hl|].
      apply Qle_bool_iff in Hl. congruence. }
    exists (1 + Qabs fit).
    split; [reflexivity|]. split; [intros Hpos; lra|].
    split; [intros _; reflexivity|].
    pose proof (Qabs_nonneg fit). lra.
Qed.

Lemma fitness_spec (fits : list Q) :
  exists ws,
    SBO.fitness fits = Ok ws /\
    Forall2 (fun fit x =>
               (0 <= fit -> x == 1 / (1 + fit)) /\
               (fit < 0 -> x == 1 + Qabs fit) /\
               0 < x) fits ws.
Proof.
  induction fits as [|fit fits (ws & Hws & Hall)].
  - exists []. split; [reflexivity | constructor].
  - destruct (fitness_weight fit) as (x & Hx & Hspec).
    exists (x :: ws). split; [|constructor; assumption].
    unfold SBO.fitness in *. simpl. rewrite Hx. simpl. rewrite Hws. reflexivity.
Qed.

Lemma map_r_div_spec (total : Q) (ws : list Q) :
  ~ total == 0 ->
  exists ps,
    map_r (fun x => div x total) ws = Ok ps /\
    Forall2 (fun x p => p = x / total) ws ps.
Proof.
  intros Ht. induction ws as [|x ws (ps & Hps & Hall)].
  - exists []. split; [reflexivity | constructor].
  - exists (x / total :: ps). split; [|constructor; [reflexivity | exact Hall]].
    simpl. rewrite div_ok by exact Ht. simpl. rewrite Hps. reflexivity.
Qed.

Lemma np_sum_quotients (total : Q) (ws ps : list Q) :
  ~ total == 0 ->
  Forall2 (fun x p => p = x / total) ws ps ->
  np_sum ps == np_sum ws / total.
Proof.
  intros Ht. induction 1 as [|x p ws ps Hp Hall IH]; simpl.
  - field. exact Ht.
  - rewrite IH, Hp. field. exact Ht.
Qed.

Lemma quotients_positive (total : Q) (ws ps : list Q) :
  0 < total ->
  Forall (fun x => 0 < x) ws ->
  Forall2 (fun x p => p = x / total) ws ps ->
  Forall2 (fun x p => p == x / total /\ 0 < p) ws ps.
Proof.
  intros Ht Hpos Hq. induction Hq as [|x p ws ps Hp Hq IH]; constructor.
  - apply Forall_cons in Hpos as [Hx _]. subst p. split; [reflexivity|].
    apply Qlt_shift_div_l; lra.
  - apply IH. apply Forall_cons in Hpos as [_ Hpos]. exact Hpos.
Qed.

(** C6.  The weights computed by [SBO.update] from the fitness of the
    agents are [1 / (1 + fit)] for [fit >= 0] and [1 + |fit|] otherwise, all
    positive; the probabilities are the weights divided by their sum, they
    are positive and, for a population that is not empty, sum to one.  From
    the fitness list [[1, 1, 1]] the probabilities are
    [[1/3, 1/3, 1/3]].  [update] computes both lists from the fitness of its
    agents before it moves any of them. *)
Theorem selection_probabilities_normalise_the_weights :
  (forall fits : list Q,
     exists ws ps,
       SBO.fitness fits = Ok ws /\
       SBO.probs ws = Ok ps /\
       Forall2 (fun fit x =>
                  (0 <= fit -> x == 1 / (1 + fit)) /\
                  (fit < 0 -> x == 1 + Qabs fit) /\
                  0 < x) fits ws /\
       Forall2 (fun x p => p == x / np_sum ws /\ 0 < p) ws ps /\
       (fits <> [] -> np_sum ps == 1)) /\
  (exists ws ps,
     SBO.fitness [1; 1; 1] = Ok ws /\
     SBO.probs ws = Ok ps /\
     Forall2 Qeq ps [1 # 3; 1 # 3; 1 # 3]) /\
  (forall (E : Externals) alpha p_mutation agents best (function : Function)
          sigma (w : world),
     SBO.update alpha p_mutation agents best function sigma w =
     bind (lift (SBO.fitness (map (fit_at w) agents))) (fun fitness =>
     bind (lift (SBO.probs fitness)) (fun probs =>
     for_each agents (fun agent =>
       bind (read agent) (fun a =>
       bind (for_each (seq 0 (n_variables a))
               (SBO.update_variable alpha p_mutation agents best sigma probs
                                    agent)) (fun _ =>
       bind (clip_agent agent) (fun _ =>
       bind (read agent) (fun a =>
       bind (call function (position a)) (fun f =>
       set_fit agent f)))))))) w).
Proof.
  split; [|split; [|reflexivity]].
  - intros fits. destruct (fitness_spec fits) as (ws & Hws & Hall).
    assert (Hpos : Forall (fun x => 0 < x) ws).
    { clear Hws. induction Hall as [|? ? ? ? (_ & _ & Hx)]; constructor; assumption. }
    destruct fits as [|fit fits].
    + inversion Hall; subst. exists [], []. repeat split; try constructor.
      intros Hne. contradiction.
    + assert (Hne : ws <> []) by (inversion Hall; discriminate).
      pose proof (np_sum_pos ws Hpos Hne) as Hsum.
      destruct (map_r_div_spec (np_sum ws) ws) as (ps & Hps & Hq); [lra|].
      exists ws, ps. repeat split.
      * exact Hws.
      * exact Hps.
      * exact Hall.
      * apply quotients_positive; assumption.
      * intros _. rewrite (np_sum_quotients (np_sum ws) ws ps) by (lra || exact Hq).
        field. lra.
  - eexists. eexists. split; [reflexivity|]. split; [reflexivity|].
    repeat constructor.
Qed.

(* ===================================================================== *)
(** * Properties: the masses of the gravitational search                  *)
(* ===================================================================== *)

Section SortFacts.
Context {A : Type} (key : A -> Q).

Lemma insert_by_perm (x : A) (l : list A) : insert_by key x l ≡ₚ x :: l.
Proof.
  induction l as [|y l IH]; simpl; [reflexivity|].
  destruct (Qle_bool (key x) (key y)); [reflexivity|].
  rewrite IH. apply perm_swap.
Qed.

Lemma sort_by_perm (l : list A) : sort_by key l ≡ₚ l.
Proof.
  induction l as [|x l IH]; simpl; [reflexivity|].
  rewrite insert_by_perm, IH. reflexivity.
Qed.

Lemma insert_by_sorted (x : A) (l : list A) :
  StronglySorted (fun a b => key a <= key b) l ->
  StronglySorted (fun a b => key a <= key b) (insert_by key x l).
Proof.
  induction l as [|y l IH]; intros Hs; simpl.
  - repeat constructor.
  - apply StronglySorted_cons in Hs as [Hy Hs].
  destruct (Qle_bool (key x) (key y)) eqn:E.
  + apply Qle_bool_iff in E. apply StronglySorted_cons. split.
    * constructor; [exact E|].
      eapply Forall_impl; [exact Hy|]. intros z Hz. simpl in *. lra.
    * apply StronglySorted_cons. split; assumption.
  + assert (Hyx : key y <= key x).
    { destruct (Qlt_le_dec (key y) (key x)) as [Hl|Hl]; [lra|].
      apply Qle_bool_iff in Hl. congruence. }
    apply StronglySorted_cons. split; [|apply IH, Hs].
    rewrite insert_by_perm. constructor; assumption.
Qed.

Lemma sort_by_sorted (l : list A) :
  StronglySorted (fun a b => key a <= key b) (sort_by key l).
Proof.
  induction l as [|x l IH]; simpl; [constructor | apply insert_by_sorted, IH].
Qed.
End SortFacts.

Lemma map_r_inv {A B} (f : A -> result B) (xs : list A) (ys : list B) :
  map_r f xs = Ok ys -> Forall2 (fun x y => f x = Ok y) xs ys.
Proof.
  revert ys. induction xs as [|x xs IH]; intros ys Hm; simpl in Hm.
  - inversion Hm. constructor.
  - destruct (f x) as [y|e] eqn:Hx; [|discriminate]. simpl in Hm.
    destruct (map_r f xs) as [ys'|e]; [|discriminate]. simpl in Hm.
    inversion Hm; subst. constructor; [exact Hx | apply IH; reflexivity].
Qed.

Lemma map_r_ok {A B} (f : A -> result B) (xs : list A) :
  Forall (fun x => is_ok (f x) = true) xs -> is_ok (map_r f xs) = true.
Proof.
  induction 1 as [|x xs Hx Hxs IH]; simpl; [reflexivity|].
  destruct (f x); [|discriminate]. simpl.
  destruct (map_r f xs); [reflexivity | discriminate].
Qed.

Section MassFacts.
Context `{Externals}.
Implicit Types (w : world) (agents : list loc).

Lemma map_m_read agents {B} (f : Agent -> result B) w :
  map_m (fun agent => bind (read agent) (fun a => lift (f a))) agents w =
  (map_r (fun agent => f (agent_at w agent)) agents, w).
Proof.
  induction agents as [|a agents IH]; [reflexivity|].
  cbn [map_m map_r]. unfold bind at 1 2. unfold read at 1, lift at 1.
  destruct (f (agent_at w a)) as [y|e]; [|reflexivity].
  unfold bind at 1. rewrite IH.
  destruct (map_r _ agents); reflexivity.
Qed.

Lemma map_m_lift {A B} (f : A -> result B) (xs : list A) w :
  map_m (fun x => @lift world B (f x)) xs w = (map_r f xs, w).
Proof.
  induction xs as [|x xs IH]; [reflexivity|].
  cbn [map_m map_r]. unfold bind at 1. unfold lift at 1.
  destruct (f x) as [y|e]; [|reflexivity].
  unfold bind at 1. rewrite IH. destruct (map_r f xs); reflexivity.
Qed.

(** [_calculate_mass], run: it reads the world and leaves it as it is. *)
Lemma calculate_mass_run agents w :
  GSA._calculate_mass agents w =
  (match head agents, last agents with
  | Some first, Some final =>
     let best := fit_at w first in
     let worst := fit_at w final in
     result_bind
       (map_r (fun a => div (fit_at w a - worst) (best - worst)) agents)
       (fun mass => map_r (fun m => div m (np_sum mass)) mass)
  | _, _ => Raise IndexError
  end, w).
Proof.
  unfold GSA._calculate_mass.
  destruct agents as [|first agents']; [reflexivity|].
  set (agents := first :: agents').
  assert (Hlast : exists l, last agents = Some l /\
                          agents !! (length agents - 1)%nat = Some l).
  { destruct (last agents) as [l|] eqn:Hl.
  - exists l. split; [reflexivity|]. rewrite last_lookup in Hl.
    replace (length agents - 1)%nat with (pred (length agents)) by lia.
    exact Hl.
  - apply last_None in Hl. discriminate. }
  destruct Hlast as (l & Hl & Hidx). rewrite Hl. cbn [head agents].
  erewrite bind_returns; [|apply index_run; reflexivity].
  erewrite bind_returns; [|apply index_run; exact Hidx].
  erewrite bind_returns; [|reflexivity].
  erewrite bind_returns; [|reflexivity].
  unfold bind at 1.
  rewrite (map_m_read agents
           (fun a => div (fit a - fit (agent_at w l))
                         (fit (agent_at w first) - fit (agent_at w l)))).
  unfold fit_at. cbv zeta.
  destruct (map_r _ agents) as [mass|e]; [|reflexivity].
  cbn [result_bind]. apply map_m_lift.
Qed.
End MassFacts.

Lemma quotients_inv (g : loc -> Q) (d : Q) (xs : list loc) (ys : list Q) :
  Forall2 (fun x y => div (g x) d = Ok y) xs ys ->
  ys = map (fun x => g x / d) xs /\ (xs <> [] -> ~ d == 0).
Proof.
  induction 1 as [|x y xs ys Hy Hall [IH _]].
  - split; [reflexivity | intros Hne; contradiction].
  - apply div_inv in Hy as [Hd ->]. subst ys. split; [reflexivity | intros _; exact Hd].
Qed.

Lemma scaled_inv (d : Q) (xs ys : list Q) :
  Forall2 (fun x y => div x d = Ok y) xs ys ->
  ys = map (fun x => x / d) xs /\ (xs <> [] -> ~ d == 0).
Proof.
  induction 1 as [|x y xs ys Hy Hall [IH _]].
  - split; [reflexivity | intros Hne; contradiction].
  - apply div_inv in Hy as [Hd ->]. subst ys. split; [reflexivity | intros _; exact Hd].
Qed.

Lemma map_r_div_spec' (g : loc -> Q) (d : Q) (xs : list loc) :
  ~ d == 0 ->
  exists ys,
    map_r (fun x => div (g x) d) xs = Ok ys /\ ys = map (fun x => g x / d) xs.
Proof.
  intros Hd. induction xs as [|x xs (ys & Hys & ->)].
  - exists []. split; reflexivity.
  - eexists. split; [|reflexivity].
    simpl. rewrite div_ok by exact Hd. simpl. rewrite Hys. reflexivity.
Qed.

Lemma np_sum_scaled (d : Q) (xs : list Q) :
  ~ d == 0 -> np_sum (map (fun x => x / d) xs) == np_sum xs / d.
Proof.
  intros Hd. induction xs as [|x xs IH]; simpl.
  - field. exact Hd.
  - rewrite IH. field. exact Hd.
Qed.

Section MassTheorems.
Context `{Externals}.
Implicit Types (w : world) (agents : list loc).

(** When [_calculate_mass] returns, both divisors were non-zero and the
  masses are the normalised quotients. *)
Lemma calculate_mass_inv agents w (m : list Q) :
  (GSA._calculate_mass agents w).1 = Ok m ->
  exists first final,
  head agents = Some first /\ last agents = Some final /\
  let best := fit_at w first in
  let worst := fit_at w final in
  let raw := map (fun a => (fit_at w a - worst) / (best - worst)) agents in
  ~ best - worst == 0 /\ ~ np_sum raw == 0 /\
  m = map (fun x => x / np_sum raw) raw.
Proof.
  rewrite calculate_mass_run. cbn [fst].
  destruct agents as [|first agents']; [discriminate|].
  set (agents := first :: agents').
  destruct (last agents) as [l|] eqn:Hl; [|discriminate].
  cbn [head agents]. cbv zeta. intros Hm.
  destruct (map_r _ agents) as [mass|e] eqn:Hmass; [|discriminate].
  cbn [result_bind] in Hm.
  apply map_r_inv in Hmass.
  apply (quotients_inv (fun a => fit_at w a - fit_at w l)) in Hmass
  as [-> Hd].
  apply map_r_inv, scaled_inv in Hm as [-> Hs].
  exists first, l. repeat split.
  - apply Hd. discriminate.
  - apply Hs. discriminate.
Qed.

Lemma update_run (G : Q) agents (velocity : list array) (t : nat) w :
  GSA.update G agents velocity t w =
  (let sorted := sort_by (fit_at w) agents in
  let gravity := G / (inject_Z (Z.of_nat t) + 1) in
  bind (GSA._calculate_mass sorted) (fun mass =>
  bind (GSA._calculate_force sorted mass gravity) (fun force =>
  bind (for_fold (enumerate sorted) velocity (fun ia velocity =>
         let '(i, agent) := ia in
         bind (index force i) (fun fi =>
         bind (index mass i) (fun mi =>
         bind (index velocity i) (fun vi =>
         bind (GSA._update_velocity fi mi vi) (fun v =>
         bind (assign velocity i v) (fun velocity =>
         bind (read agent) (fun a =>
         bind (index velocity i) (fun vi =>
         bind (set_position agent (GSA._update_position (position a) vi))
              (fun _ => ret velocity))))))))))
      (fun velocity => ret (sorted, velocity))))) w.
Proof.
  unfold GSA.update. erewrite bind_returns; [|reflexivity].
  erewrite bind_returns.
  2:{ unfold lift. rewrite div_ok; [reflexivity|].
    assert (0 <= inject_Z (Z.of_nat t)).
    { change 0 with (inject_Z 0). rewrite <- Zle_Qle. lia. }
    lra. }
  reflexivity.
Qed.
End MassTheorems.

Section MassClaims.
Context `{Externals}.
Implicit Types (w : world) (agents : list loc).

Lemma sorted_below_last (key : loc -> Q) agents (z : loc) :
  StronglySorted (fun a b => key a <= key b) agents ->
  last agents = Some z ->
  Forall (fun a => key a <= key z) agents.
Proof.
  induction agents as [|x l IH]; intros Hs Hl; [constructor|].
  apply StronglySorted_cons in Hs as [Hx Hs].
  destruct l as [|y l].
  - inversion Hl; subst. repeat constructor. apply Qle_refl.
  - rewrite last_cons_cons in Hl. specialize (IH Hs Hl).
  constructor; [|exact IH].
  rewrite Forall_forall in Hx. apply Hx.
  apply last_Some in Hl as [l' Hl']. rewrite Hl'.
  apply elem_of_app. right. left.
Qed.

Lemma np_sum_nonneg (xs : list Q) :
  Forall (fun x => 0 <= x) xs -> 0 <= np_sum xs.
Proof. induction 1; simpl; lra. Qed.

(** On a list sorted by fitness whose extremes differ, the masses are
  defined. *)
Lemma calculate_mass_sorted agents w (first final : loc) :
  StronglySorted (fun a b => fit_at w a <= fit_at w b) agents ->
  head agents = Some first ->
  last agents = Some final ->
  fit_at w first < fit_at w final ->
  is_ok (GSA._calculate_mass agents w).1 = true.
Proof.
  intros Hs Hh Hl Hlt. rewrite calculate_mass_run, Hh, Hl. cbn [fst]. cbv zeta.
  set (best := fit_at w first) in *. set (worst := fit_at w final) in *.
  assert (Hd : ~ best - worst == 0) by lra.
  destruct (map_r_div_spec' (fun a => fit_at w a - worst) (best - worst) agents Hd)
  as (mass & Hmass & ->).
  rewrite Hmass. cbn [result_bind].
  apply map_r_ok. apply Forall_forall. intros m _.
  rewrite div_ok; [reflexivity|].
  destruct agents as [|x agents']; [discriminate|].
  inversion Hh; subst x. cbn [map].
  change (np_sum (?x :: ?l)) with (x + np_sum l).
  assert (Hfirst : (fit_at w first - worst) / (best - worst) == 1)
  by (fold best; field; exact Hd).
  assert (Hrest : 0 <= np_sum (map (fun a => (fit_at w a - worst) / (best - worst))
                                 agents')).
  { apply np_sum_nonneg. apply Forall_map.
  pose proof (sorted_below_last (fit_at w) _ final Hs Hl) as Hb.
  apply Forall_cons in Hb as [_ Hb].
  eapply Forall_impl; [exact Hb|]. intros a Ha. cbv beta in Ha. fold worst in Ha.
  assert (E : (fit_at w a - worst) / (best - worst)
               == (worst - fit_at w a) / (worst - best)) by (field; lra).
  rewrite E. apply Qle_shift_div_l; lra. }
  intros Hz. rewrite Hfirst in Hz. lra.
Qed.
End MassClaims.

(** The loop of [GSA.update] over the sorted agents, and its result. *)
#[warnings="-inconsistent-scopes"]
Local Abbreviation gsa_move_agents sorted mass force velocity :=
  (bind (for_fold (enumerate sorted) velocity (fun ia velocity =>
           let '(i, agent) := ia in
           bind (index force i) (fun fi =>
           bind (index mass i) (fun mi =>
           bind (index velocity i) (fun vi =>
           bind (GSA._update_velocity fi mi vi) (fun v =>
           bind (assign velocity i v) (fun velocity =>
           bind (read agent) (fun a =>
           bind (index velocity i) (fun vi =>
           bind (set_position agent (GSA._update_position (position a) vi))
                (fun _ => ret velocity))))))))))
        (fun velocity => ret (pair sorted velocity))).

(** C5.  [GSA.update] sorts the agents by fitness, ascending (the sorted
    list is a permutation of the one received, and is the list it leaves
    behind), takes [G / (iteration + 1)] for gravity, and computes the
    masses of the sorted agents; a mass is
    [(fit - worst) / (best - worst)], with [best] the first and [worst] the
    last fitness of the list, divided by the sum of these quotients, so
    that the masses sum to one.  For two agents of fitness 10 and 0 the
    agent of fitness 0 comes first and its mass,
    [(0 - 10) / (0 - 10)] over the sum of both quotients, is 1. *)
Theorem update_sorts_and_normalises_the_masses `{Externals} :
  (forall (w : world) (agents : list loc),
     sort_by (fit_at w) agents ≡ₚ agents /\
     StronglySorted (fun a b => fit_at w a <= fit_at w b)
                    (sort_by (fit_at w) agents)) /\
  (forall G agents velocity (t : nat) (w : world),
     GSA.update G agents velocity t w =
     (let sorted := sort_by (fit_at w) agents in
      let gravity := G / (inject_Z (Z.of_nat t) + 1) in
      bind (GSA._calculate_mass sorted) (fun mass =>
      bind (GSA._calculate_force sorted mass gravity) (fun force =>
      gsa_move_agents sorted mass force velocity))) w) /\
  (forall G agents velocity (t : nat) (w : world) ags vel,
     (GSA.update G agents velocity t w).1 = Ok (ags, vel) ->
     ags = sort_by (fit_at w) agents) /\
  (forall agents (w : world) (m : list Q),
     (GSA._calculate_mass agents w).1 = Ok m ->
     exists first final,
       head agents = Some first /\ last agents = Some final /\
       let best := fit_at w first in
       let worst := fit_at w final in
       let raw := map (fun a => (fit_at w a - worst) / (best - worst)) agents in
       Forall2 (fun a mi =>
                  mi == (fit_at w a - worst) / (best - worst) / np_sum raw)
               agents m /\
       np_sum m == 1) /\
  (forall (w : world) (a b : loc),
     fit_at w a = 10 -> fit_at w b = 0 ->
     sort_by (fit_at w) [a; b] = [b; a] /\
     exists mb ma,
       GSA._calculate_mass [b; a] w = (Ok [mb; ma], w) /\
       mb == (0 - 10) / (0 - 10) / ((0 - 10) / (0 - 10) + (10 - 10) / (0 - 10)) /\
       mb == 1 /\ ma == 0).
Proof.
  split; [|split; [|split; [|split]]].
  - intros w agents. split; [apply sort_by_perm | apply sort_by_sorted].
  - intros. apply update_run.
  - intros G agents velocity t w ags vel Hrun.
    destruct (GSA.update G agents velocity t w) as [r w'] eqn:Hu.
    cbn [fst] in Hrun. subst r. rewrite update_run in Hu. cbv zeta in Hu.
    apply bind_inv in Hu as (mass & w1 & _ & Hu).
    apply bind_inv in Hu as (force & w2 & _ & Hu).
    apply bind_inv in Hu as (vel' & w3 & _ & Hu).
    inversion Hu. reflexivity.
  - intros agents w m Hm.
    destruct (calculate_mass_inv agents w m Hm)
      as (first & final & Hh & Hl & Hd & Hs & ->).
    exists first, final. split; [exact Hh|]. split; [exact Hl|]. cbv zeta.
    split.
    + rewrite map_map. clear Hh Hl Hm Hs.
      set (S := np_sum _). clearbody S.
      induction agents as [|a agents IH]; constructor; [reflexivity | exact IH].
    + rewrite np_sum_scaled by exact Hs. field. exact Hs.
  - intros w a b Ha Hb. split.
    + simpl. rewrite Ha, Hb. reflexivity.
    + rewrite calculate_mass_run. cbn [head last]. cbv zeta.
      cbn [map_r]. rewrite Ha, Hb.
      eexists. eexists. split; [reflexivity|]. repeat split; reflexivity.
Qed.

(** The hypotheses of the last part of C5 hold of two sample agents of
    fitness 10 and 0. *)
Lemma update_sorts_and_normalises_the_masses_witness :
  let w := sample_world (0, 1000) [(3, 10); (-2, 0)] in
  sort_by (fit_at w) [1%nat; 2%nat] = [2%nat; 1%nat] /\
  exists mb ma,
    GSA._calculate_mass [2%nat; 1%nat] w = (Ok [mb; ma], w) /\
    mb == (0 - 10) / (0 - 10) / ((0 - 10) / (0 - 10) + (10 - 10) / (0 - 10)) /\
    mb == 1 /\ ma == 0.
Proof.
  exact (proj2 (proj2 (proj2 (proj2
    (@update_sorts_and_normalises_the_masses sample_externals))))
    (sample_world (0, 1000) [(3, 10); (-2, 0)]) 1%nat 2%nat
    ltac:(reflexivity) ltac:(reflexivity)).
Defined.

(** C10.  [_calculate_mass] divides by [best - worst] and by the sum of
    the quotients without a guard.  It returns only if the first and the
    last fitness differ; when they are equal -- as in a population of equal
    fitness -- the first division is by zero.  The second divisor is not
    guarded either: on an unsorted list it can vanish although the extremes
    differ.  On a list sorted by fitness, as [update] passes it, distinct
    extremes are enough for the masses to be defined. *)
Theorem mass_is_defined_only_for_distinct_extremes :
  (forall (E : Externals) agents (w : world) (m : list Q),
     (GSA._calculate_mass agents w).1 = Ok m ->
     exists first final,
       head agents = Some first /\ last agents = Some final /\
       ~ fit_at w first == fit_at w final) /\
  (forall (E : Externals) agents (w : world) first final,
     head agents = Some first -> last agents = Some final ->
     fit_at w first == fit_at w final ->
     GSA._calculate_mass agents w = (Raise ZeroDivisionError, w)) /\
  (forall (E : Externals) agents (w : world) (q : Q),
     agents <> [] -> Forall (fun a => fit_at w a == q) agents ->
     GSA._calculate_mass agents w = (Raise ZeroDivisionError, w)) /\
  (let w := sample_world (0, 0) [(0, 0); (0, 2); (0, 1)] in
   ~ fit_at w 1%nat == fit_at w 3%nat /\
   GSA._calculate_mass [1%nat; 2%nat; 3%nat] w = (Raise ZeroDivisionError, w)) /\
  (forall (E : Externals) agents (w : world) first final,
     StronglySorted (fun a b => fit_at w a <= fit_at w b) agents ->
     head agents = Some first -> last agents = Some final ->
     fit_at w first < fit_at w final ->
     is_ok (GSA._calculate_mass agents w).1 = true).
Proof.
  assert (Hzero : forall (E : Externals) agents (w : world) first final,
     head agents = Some first -> last agents = Some final ->
     fit_at w first == fit_at w final ->
     GSA._calculate_mass agents w = (Raise ZeroDivisionError, w)).
  { intros E agents w first final Hh Hl Heq.
    rewrite calculate_mass_run, Hh, Hl. cbv zeta.
    destruct agents as [|x agents]; [discriminate|]. cbn [map_r].
    rewrite div_zero by lra. reflexivity. }
  split; [|split; [|split; [|split]]].
  - intros E agents w m Hm.
    destruct (calculate_mass_inv agents w m Hm)
      as (first & final & Hh & Hl & Hd & _).
    exists first, final. split; [exact Hh|]. split; [exact Hl|].
    cbv zeta in Hd. lra.
  - exact Hzero.
  - intros E agents w q Hne Hall.
    destruct agents as [|first agents']; [contradiction|].
    destruct (last (first :: agents')) as [final|] eqn:Hl.
    + apply (Hzero E (first :: agents') w first final eq_refl Hl).
      rewrite Forall_forall in Hall.
      rewrite (Hall first), (Hall final); [reflexivity | | left].
      apply last_Some in Hl as [l' ->]. apply elem_of_app. right. left.
    + apply last_None in Hl. discriminate.
  - split; [discriminate | reflexivity].
  - intros E. apply calculate_mass_sorted.
Qed.

(* ===================================================================== *)
(** * Properties: the update of the bat algorithm                         *)
(* ===================================================================== *)

Section WorldInvariants.
Context `{Externals}.
Variable I : world -> Prop.

Lemma preserves_bind_value {A B} (V : A -> Prop) (c : M world A)
  (k : A -> M world B) :
  (forall w a w', c w = (Ok a, w') -> V a) ->
  preserves I c -> (forall a, V a -> preserves I (k a)) ->
  preserves I (bind c k).
Proof.
  intros Hv Hc Hk w Hw. unfold bind. specialize (Hc w Hw).
  destruct (c w) as [[a|e] w'] eqn:Hcw; cbn [snd] in *; [|exact Hc].
  apply Hk; [eapply Hv; exact Hcw | exact Hc].
Qed.

Lemma preserves_read (a : loc) : preserves I (read a).
Proof. intros w Hw. exact Hw. Qed.

Lemma preserves_call (function : Function) (p : array) :
  preserves I (call function p).
Proof. intros w Hw. exact Hw. Qed.

Hypothesis I_rng : forall w g, I w -> I (with_rng g w).

Lemma preserves_uniform : preserves I uniform.
Proof. intros w Hw. rewrite uniform_run. apply I_rng, Hw. Qed.

Lemma preserves_gaussian : preserves I gaussian.
Proof. intros w Hw. rewrite gaussian_run. apply I_rng, Hw. Qed.
End WorldInvariants.

Section BatFacts.
Context `{Externals}.
Variables f_min f_max A r : Q.
Implicit Types (w : world) (l : BA.locals).

(** Writes to an agent, and the allocation of a copy, leave every other
  live object alone. *)
Lemma preserves_alter_other (b0 : loc) (x : Agent) (f : Agent -> Agent)
  (a : loc) :
  a <> b0 ->
  preserves (fun w => heap w !! b0 = Some x)
          (modify (fun w => with_heap (alter f a (heap w)) w)).
Proof.
  intros Hab. apply preserves_modify. intros w Hw. simpl.
  rewrite lookup_alter_ne by exact Hab. exact Hw.
Qed.

Lemma preserves_deepcopy (b0 : loc) (x : Agent) (a : loc) :
  preserves (fun w => heap w !! b0 = Some x) (deepcopy a).
Proof.
  intros w Hw. unfold deepcopy. simpl.
  rewrite lookup_insert_ne; [exact Hw|].
  intros Heq. pose proof (is_fresh (dom (heap w))) as Hf.
  rewrite Heq in Hf. apply Hf. apply elem_of_dom. eexists; exact Hw.
Qed.

Lemma preserves_emit_heap (b0 : loc) (x : Agent) (e : event) :
  preserves (fun w => heap w !! b0 = Some x) (emit e).
Proof. apply preserves_modify. intros w Hw. exact Hw. Qed.

(** One agent of the loop leaves a live object other than itself as it
  is. *)
Lemma update_agent_keeps_object (function : Function) (t : nat) (alpha : Q)
  (i : nat) (agent : loc) l (b0 : loc) (x : Agent) :
  agent <> b0 ->
  preserves (fun w => heap w !! b0 = Some x)
          (BA.update_agent f_min f_max A r function t alpha (i, agent) l).
Proof.
  intros Hab. destruct l as [cur frequency velocity loudness pulse_rate].
  unfold BA.update_agent, BA._update_frequency, set_position, set_fit, clip_agent.
  repeat first
  [ apply preserves_ret | apply preserves_raise | apply preserves_lift
  | apply preserves_index | apply preserves_assign
  | apply preserves_read | apply preserves_call
  | apply preserves_uniform; intros ? ? Hw; exact Hw
  | apply preserves_gaussian; intros ? ? Hw; exact Hw
  | apply preserves_alter_other; exact Hab
  | apply preserves_deepcopy | apply preserves_emit_heap
  | apply preserves_bind; [|intros ?]
  | match goal with |- preserves _ (if ?b then _ else _) => destruct b end ].
Qed.

Lemma elem_of_enumerate {B} (xs : list B) (i : nat) (x : B) :
  (i, x) ∈ enumerate xs -> x ∈ xs.
Proof. unfold enumerate. apply elem_of_zip_r. Qed.

Lemma update_keeps_object (agents : list loc) (best : loc)
  (function : Function) (t : nat) (frequency : list Q)
  (velocity : list array) (loudness pulse_rate : list Q)
  (b0 : loc) (x : Agent) :
  b0 ∉ agents ->
  preserves (fun w => heap w !! b0 = Some x)
          (BA.update f_min f_max A r agents best function t
                     frequency velocity loudness pulse_rate).
Proof.
  intros Hb. unfold BA.update. apply preserves_for_fold.
  intros [i agent] l Hin. apply update_agent_keeps_object.
  intros ->. apply Hb. eapply elem_of_enumerate, Hin.
Qed.
End BatFacts.

Section Yields.
Context {S : Type}.

Lemma yields_ret {A} (Q : A -> Prop) (a : A) : Q a -> yields Q (@ret S A a).
Proof. intros Ha s a' s' Hr. inversion Hr; subst. exact Ha. Qed.

Lemma yields_bind {A B} (Q : B -> Prop) (c : M S A) (k : A -> M S B) :
  (forall a, yields Q (k a)) -> yields Q (bind c k).
Proof.
  intros Hk s b s' Hr. apply bind_inv in Hr as (a & s1 & _ & Hr).
  eapply Hk, Hr.
Qed.

Lemma yields_bind_value {A B} (V : A -> Prop) (Q : B -> Prop) (c : M S A)
  (k : A -> M S B) :
  yields V c -> (forall a, V a -> yields Q (k a)) -> yields Q (bind c k).
Proof.
  intros Hc Hk s b s' Hr. apply bind_inv in Hr as (a & s1 & Ha & Hr).
  eapply Hk; [eapply Hc, Ha | exact Hr].
Qed.

Lemma yields_index {A} (xs : list A) (i : nat) :
  yields (fun a => xs !! i = Some a) (@index A S xs i).
Proof.
  intros s a s' Hr. unfold index in Hr. destruct (xs !! i); inversion Hr.
  reflexivity.
Qed.

Lemma yields_assign {A} (xs : list A) (i : nat) (x : A) :
  yields (fun ys => ys = <[i := x]> xs) (@assign A S xs i x).
Proof.
  intros s a s' Hr. unfold assign in Hr. case_decide; inversion Hr. reflexivity.
Qed.
End Yields.

Section BatLoop.
Context `{Externals}.
Variables f_min f_max A r : Q.
Implicit Types (w : world) (l : BA.locals).

Lemma preserves_bind_index {B C} (I : world -> Prop) (xs : list B) (i : nat)
  (k : B -> M world C) :
  (forall a, xs !! i = Some a -> preserves I (k a)) ->
  preserves I (bind (index xs i) k).
Proof.
  intros Hk. apply (preserves_bind_value I (fun a => xs !! i = Some a)).
  - intros w a w' Hr. eapply yields_index, Hr.
  - apply preserves_index.
  - exact Hk.
Qed.

Lemma uniform_value (bound : Q) :
  (forall g, (generate_uniform_random_number g).1 <= bound) ->
  yields (fun p => p <= bound) uniform.
Proof.
  intros Hb w p w' Hr. rewrite uniform_run in Hr. inversion Hr; subst. apply Hb.
Qed.

Lemma preserves_trace_modify (t0 : list event) (f : gmap loc Agent -> gmap loc Agent) :
  preserves (fun w => trace w = t0) (modify (fun w => with_heap (f (heap w)) w)).
Proof. apply preserves_modify. intros w Hw. exact Hw. Qed.

Lemma preserves_trace_deepcopy (t0 : list event) (a : loc) :
  preserves (fun w => trace w = t0) (deepcopy a).
Proof. intros w Hw. exact Hw. Qed.

Ltac trace_leaf :=
  first
    [ apply preserves_ret | apply preserves_raise | apply preserves_lift
    | apply preserves_index | apply preserves_assign
    | apply preserves_read | apply preserves_call
    | apply preserves_uniform; intros ? ? Hw; exact Hw
    | apply preserves_gaussian; intros ? ? Hw; exact Hw
    | apply (preserves_trace_modify _ (alter _ _))
    | apply preserves_trace_deepcopy ].

(** With a pulse rate of one, the agent at hand takes no local walk. *)
Lemma update_agent_no_walk (function : Function) (t : nat) (alpha : Q)
  (i : nat) (agent : loc) l (t0 : list event) :
  (forall g, (generate_uniform_random_number g).1 <= 1) ->
  (forall x, BA.pulse_rate l !! i = Some x -> x == 1) ->
  preserves (fun w => trace w = t0)
          (BA.update_agent f_min f_max A r function t alpha (i, agent) l).
Proof.
  intros Hu Hpr. destruct l as [cur frequency velocity loudness pulse_rate].
  cbn [BA.pulse_rate] in Hpr.
  unfold BA.update_agent, BA._update_frequency, set_position, set_fit, clip_agent.
  apply preserves_bind;
  [apply preserves_bind; [trace_leaf | intros ?; trace_leaf] | intros f].
  do 9 (apply preserves_bind; [trace_leaf | intros ?]).
  apply (preserves_bind_value _ (fun p => p <= 1));
  [apply uniform_value, Hu | trace_leaf | intros p Hp].
  apply preserves_bind; [trace_leaf | intros e].
  apply preserves_bind_index. intros pr Hi. specialize (Hpr pr Hi).
  assert (Hno : Qltb pr p = false) by (apply Qltb_ge; lra).
  rewrite Hno.
  repeat first
  [ trace_leaf
  | apply preserves_bind; [|intros ?]
  | match goal with |- preserves _ (if ?b then _ else _) => destruct b end ].
Qed.

(** One agent of the loop writes [pulse_rate] and [loudness] at its own
  index only. *)
Lemma update_agent_arrays (function : Function) (t : nat) (alpha : Q)
  (i : nat) (agent : loc) l :
  yields (fun l' => forall j, j <> i ->
          BA.pulse_rate l' !! j = BA.pulse_rate l !! j /\
          BA.loudness l' !! j = BA.loudness l !! j)
       (BA.update_agent f_min f_max A r function t alpha (i, agent) l).
Proof.
  destruct l as [cur frequency velocity loudness pulse_rate].
  cbn [BA.pulse_rate BA.loudness].
  unfold BA.update_agent.
  do 21 (apply yields_bind; intros ?).
  match goal with |- yields _ (if ?b then _ else _) => destruct b end.
  - apply yields_bind; intros cur'.
  eapply yields_bind_value; [apply yields_assign|]. intros pulse_rate' ->.
  eapply yields_bind_value; [apply yields_assign|]. intros loudness' ->.
  apply yields_ret. intros j Hj. cbn [BA.pulse_rate BA.loudness].
  rewrite !list_lookup_insert_ne by congruence. split; reflexivity.
  - apply yields_ret. intros j Hj. split; reflexivity.
Qed.
End BatLoop.

Section BatTheorems.
Context `{Externals}.
Variables f_min f_max A r : Q.

Lemma update_loop_no_walk (function : Function) (t : nat) (alpha : Q)
  (agents : list loc) (k : nat) (l : BA.locals) (t0 : list event) :
  (forall g, (generate_uniform_random_number g).1 <= 1) ->
  (forall j x, (k <= j)%nat -> BA.pulse_rate l !! j = Some x -> x == 1) ->
  preserves (fun w => trace w = t0)
          (for_fold (zip (seq k (length agents)) agents) l
                    (BA.update_agent f_min f_max A r function t alpha)).
Proof.
  intros Hu. revert k l. induction agents as [|a agents IH]; intros k l Hpr.
  - apply preserves_ret.
  - cbn [length seq zip zip_with for_fold].
  apply (preserves_bind_value _
           (fun l' => forall j, j <> k ->
              BA.pulse_rate l' !! j = BA.pulse_rate l !! j /\
              BA.loudness l' !! j = BA.loudness l !! j)).
  + intros w l' w' Hr. eapply update_agent_arrays, Hr.
  + apply update_agent_no_walk; [exact Hu|].
    intros x Hx. apply (Hpr k x); [lia | exact Hx].
  + intros l' Hl'. apply IH. intros j x Hj Hx.
    apply (Hpr j x); [lia|].
    destruct (Hl' j) as [<- _]; [lia | exact Hx].
Qed.
End BatTheorems.

(** C8.  When the draws of the generator are at most one and every entry
    of [pulse_rate] is one on entry, a call of [BA.update] -- for any
    agents, iteration and other arrays, and whether it returns or raises --
    performs no local random walk: no walk is recorded in the world. *)
Theorem no_local_walk_at_full_pulse_rate `{Externals}
    (f_min f_max A r : Q) (agents : list loc) (best : loc)
    (function : Function) (iteration : nat) (frequency : list Q)
    (velocity : list array) (loudness pulse_rate : list Q) (w : world) :
  (forall g, (generate_uniform_random_number g).1 <= 1) ->
  Forall (fun x => x == 1) pulse_rate ->
  trace (BA.update f_min f_max A r agents best function iteration
                   frequency velocity loudness pulse_rate w).2 = trace w.
Proof.
  intros Hu Hpr. unfold BA.update, enumerate.
  apply (update_loop_no_walk f_min f_max A r function iteration 0.9 agents 0
           _ (trace w) Hu); [|reflexivity].
  intros j x _ Hx. cbn [BA.pulse_rate] in Hx.
  rewrite Forall_forall in Hpr. apply Hpr.
  eapply list_elem_of_lookup_2, Hx.
Qed.

Lemma sample_uniform_at_most_one (g : nat) :
  (@generate_uniform_random_number sample_externals g).1 <= 1.
Proof. apply Qlt_le_weak, sample_uniform_range. Qed.

(** The hypotheses of C8 hold of the sample generator and of three agents
    with a pulse rate of one. *)
Lemma no_local_walk_at_full_pulse_rate_witness :
  let w := sample_world (0, 1000) [(3, 9); (-2, 4); (1, 1)] in
  trace (BA.update 0 2 0.5 0.5 [1; 2; 3]%nat 0%nat sphere 0 [1; 1; 1]
                   (replicate 3 [[0]]) [0.5; 0.5; 0.5] [1; 1; 1] w).2 = trace w.
Proof.
  exact (no_local_walk_at_full_pulse_rate 0 2 0.5 0.5 [1; 2; 3]%nat 0%nat
           sphere 0 [1; 1; 1] (replicate 3 [[0]]) [0.5; 0.5; 0.5] [1; 1; 1]
           (sample_world (0, 1000) [(3, 9); (-2, 4); (1, 1)])
           sample_uniform_at_most_one
           ltac:(repeat constructor)).
Defined.

(** The marker is live: below a pulse rate of one the walk is taken (here
    by the third agent), and a call that finds an improvement lowers the
    pulse rate of the improved agent for the calls to come. *)
Example local_walk_below_full_pulse_rate :
  let w := sample_world (0, 1000) [(3, 9); (-2, 4); (1, 1)] in
  trace (BA.update 0 2 0.5 0.5 [1; 2; 3]%nat 0%nat sphere 0 [1; 1; 1]
                   (replicate 3 [[0]]) [0.5; 0.5; 0.5] [0.3; 0.3; 0.3] w).2
    = [LocalWalk 2] /\
  exists l',
    (BA.update 0 2 0.5 0.5 [1; 2; 3]%nat 0%nat sphere 0 [1; 1; 1]
               (replicate 3 [[0]]) [0.5; 0.5; 0.5] [1; 1; 1] w).1 = Ok l' /\
    BA.pulse_rate l' !! 0%nat = Some 0.00.
Proof.
  split; [vm_compute; reflexivity|].
  eexists. split; vm_compute; reflexivity.
Qed.

(** C9.  A call of [BA.update] on agents that do not include the best
    agent it is given leaves that live object as it is, whether the call
    returns or raises: the copy made on an improvement is a new object
    bound to the local name only.  One agent of the loop writes
    [pulse_rate] and [loudness] at its own index only. *)
Theorem update_leaves_the_best_agent_it_is_given `{Externals}
    (f_min f_max A r : Q) (agents : list loc) (best : loc)
    (function : Function) (iteration : nat) (frequency : list Q)
    (velocity : list array) (loudness pulse_rate : list Q) (w : world) :
  best ∉ agents ->
  is_Some (heap w !! best) ->
  heap (BA.update f_min f_max A r agents best function iteration
                  frequency velocity loudness pulse_rate w).2 !! best
    = heap w !! best /\
  (forall alpha i agent l,
     yields (fun l' => forall j, j <> i ->
               BA.pulse_rate l' !! j = BA.pulse_rate l !! j /\
               BA.loudness l' !! j = BA.loudness l !! j)
            (BA.update_agent f_min f_max A r function iteration alpha
                             (i, agent) l)).
Proof.
  intros Hb [x Hx]. split.
  - rewrite Hx.
    apply (update_keeps_object f_min f_max A r agents best function iteration
             frequency velocity loudness pulse_rate best x Hb w Hx).
  - intros alpha i agent l. apply update_agent_arrays.
Qed.

(** The hypotheses of C9 hold of the sample space, on a call in which the
    improvement is found: the local name is rebound to a new object and the
    best agent of the caller keeps its contents. *)
Lemma update_leaves_the_best_agent_it_is_given_witness :
  let w := sample_world (0, 1000) [(3, 9); (-2, 4); (1, 1)] in
  let run := BA.update 0 2 0.5 0.5 [1; 2; 3]%nat 0%nat sphere 0 [1; 1; 1]
                       (replicate 3 [[0]]) [0.5; 0.5; 0.5] [1; 1; 1] w in
  heap run.2 !! 0%nat = heap w !! 0%nat /\
  (exists l', run.1 = Ok l' /\ BA.local_best_agent l' = 4%nat).
Proof.
  split.
  - exact (proj1 (update_leaves_the_best_agent_it_is_given 0 2 0.5 0.5
             [1; 2; 3]%nat 0%nat sphere 0 [1; 1; 1] (replicate 3 [[0]])
             [0.5; 0.5; 0.5] [1; 1; 1]
             (sample_world (0, 1000) [(3, 9); (-2, 4); (1, 1)])
             ltac:(intros Hin; apply list_elem_of_In in Hin; simpl in Hin;
                   intuition discriminate)
             ltac:(exists (sample_agent 0 1000); reflexivity))).
  - eexists. split; vm_compute; reflexivity.
Defined.

(* ===================================================================== *)
(** * Further properties: computations that return                        *)
(* ===================================================================== *)

Section Returns.
Context {S : Type}.

Lemma returns_ret {A} (R : A -> Prop) (a : A) : R a -> returns R (@ret S A a).
Proof. intros Ha s. exists a, s. split; [reflexivity | exact Ha]. Qed.

Lemma returns_bind {A B} (V : A -> Prop) (R : B -> Prop) (c : M S A)
    (k : A -> M S B) :
  returns V c -> (forall a, V a -> returns R (k a)) -> returns R (bind c k).
Proof.
  intros Hc Hk s. destruct (Hc s) as (a & s1 & Ha & Hv).
  destruct (Hk a Hv s1) as (b & s2 & Hb & Hr).
  exists b, s2. split; [|exact Hr]. unfold bind. rewrite Ha. exact Hb.
Qed.

Lemma returns_mono {A} (R R' : A -> Prop) (c : M S A) :
  (forall a, R a -> R' a) -> returns R c -> returns R' c.
Proof.
  intros Himp Hc s. destruct (Hc s) as (a & s' & Ha & Hr).
  exists a, s'. split; [exact Ha | apply Himp, Hr].
Qed.

Lemma returns_total {A} (c : M S A) : total c -> returns (fun _ => True) c.
Proof.
  intros Hc s. destruct (total_run c s Hc) as [a Ha].
  exists a, (c s).2. split; [exact Ha | exact I].
Qed.

Lemma returns_lift {A} (r : result A) (a : A) :
  r = Ok a -> returns (eq a) (@lift S A r).
Proof. intros -> s. exists a, s. split; reflexivity. Qed.

Lemma returns_index {A} (xs : list A) (i : nat) :
  (i < length xs)%nat -> returns (fun x => xs !! i = Some x) (@index A S xs i).
Proof.
  intros Hi s. destruct (lookup_lt_is_Some_2 xs i Hi) as [x Hx].
  exists x, s. split; [apply index_run, Hx | exact Hx].
Qed.

Lemma returns_assign {A} (xs : list A) (i : nat) (x : A) :
  (i < length xs)%nat ->
  returns (fun ys => ys = <[i := x]> xs) (@assign A S xs i x).
Proof.
  intros Hi s. exists (<[i := x]> xs), s.
  split; [apply assign_run, Hi | reflexivity].
Qed.

Lemma returns_map_m {A B} (f : A -> M S B) (xs : list A) :
  (forall x, x ∈ xs -> returns (fun _ => True) (f x)) ->
  returns (fun ys => length ys = length xs) (map_m f xs).
Proof.
  induction xs as [|x xs IH]; intros Hf; cbn [map_m].
  - apply returns_ret. reflexivity.
  - eapply returns_bind; [apply Hf; left|]. intros y _.
    eapply returns_bind.
    + apply IH. intros z Hz. apply Hf. right. exact Hz.
    + intros ys Hys. apply returns_ret. cbn. rewrite Hys. reflexivity.
Qed.

Lemma returns_for_fold {A B} (I : B -> Prop) (xs : list A) (acc : B)
    (body : A -> B -> M S B) :
  I acc ->
  (forall x b, x ∈ xs -> I b -> returns I (body x b)) ->
  returns I (for_fold xs acc body).
Proof.
  revert acc. induction xs as [|x xs IH]; intros acc Hacc Hb; cbn [for_fold].
  - apply returns_ret, Hacc.
  - eapply returns_bind; [apply Hb; [left | exact Hacc]|].
    intros acc' Hacc'. apply IH; [exact Hacc'|].
    intros y b Hy. apply Hb. right. exact Hy.
Qed.

Lemma returns_for_each {A} (xs : list A) (body : A -> M S unit) :
  (forall x, x ∈ xs -> returns (fun _ => True) (body x)) ->
  returns (fun _ => True) (for_each xs body).
Proof.
  induction xs as [|x xs IH]; intros Hb; cbn [for_each].
  - apply returns_ret. exact I.
  - eapply returns_bind; [apply Hb; left|]. intros _ _.
    apply IH. intros y Hy. apply Hb. right. exact Hy.
Qed.

Lemma total_lift_ok {A} (r : result A) :
  is_ok r = true -> total (@lift S A r).
Proof. intros Hr s. exact Hr. Qed.
End Returns.

Lemma elem_of_enumerate_lt {B} (xs : list B) (i : nat) (x : B) :
  (i, x) ∈ enumerate xs -> (i < length xs)%nat /\ xs !! i = Some x.
Proof.
  unfold enumerate. intros Hin.
  apply list_elem_of_lookup in Hin as [k Hk].
  apply lookup_zip_with_Some in Hk as (i' & x' & Heq & Hi & Hx).
  inversion Heq; subst i' x'.
  apply lookup_seq in Hi as [-> Hlt]. cbn. split; [exact Hlt | exact Hx].
Qed.

Section WorldReturns.
Context `{Externals}.

Lemma total_uniform : total uniform.
Proof. intros w. rewrite uniform_run. reflexivity. Qed.

Lemma total_gaussian : total gaussian.
Proof. intros w. rewrite gaussian_run. reflexivity. Qed.

Lemma total_choice (n : nat) (probs : list Q) : total (choice n probs).
Proof.
  intros w. unfold choice.
  destruct (generate_choice_distribution n probs (rng w)). reflexivity.
Qed.

Lemma total_deepcopy (a : loc) : total (deepcopy a).
Proof. intros w. reflexivity. Qed.
End WorldReturns.

Ltac returns_any :=
  first
    [ apply returns_total;
      first [ apply total_read | apply total_call | apply total_uniform
            | apply total_gaussian | apply total_modify | apply total_ret
            | apply total_deepcopy | apply total_choice ] ].

Section Ensures.
Context {S : Type}.

Lemma ensures_bind_preserves {A B} (I : S -> Prop) (c : M S A)
    (k : A -> M S B) (R : B -> S -> Prop) :
  preserves I c -> (forall a, ensures I (k a) R) -> ensures I (bind c k) R.
Proof.
  intros Hc Hk s b s' Hs Hrun.
  apply bind_inv in Hrun as (a & s1 & Ha & Hb).
  eapply Hk; [|exact Hb]. specialize (Hc s Hs). rewrite Ha in Hc. exact Hc.
Qed.

Lemma ensures_preserves {A} (I : S -> Prop) (c : M S A)
    (R : A -> S -> Prop) :
  preserves I c -> (forall a s, I s -> R a s) -> ensures I c R.
Proof.
  intros Hc HR s a s' Hs Hrun. apply HR.
  specialize (Hc s Hs). rewrite Hrun in Hc. exact Hc.
Qed.

Lemma preserves_and {A} (I J : S -> Prop) (c : M S A) :
  preserves I c -> preserves J c -> preserves (fun s => I s /\ J s) c.
Proof. intros HI HJ s [Hi Hj]. split; [apply HI, Hi | apply HJ, Hj]. Qed.
End Ensures.

Section WorldFrames.
Context `{Externals}.
Implicit Types (w : world).

Lemma heap_lookup_agent_at w (x : loc) :
  is_Some (heap w !! x) -> heap w !! x = Some (agent_at w x).
Proof.
  intros [a Ha]. unfold agent_at. rewrite lookup_total_alt, Ha. reflexivity.
Qed.

Lemma preserves_choice (I : world -> Prop) (n : nat) (probs : list Q) :
  (forall w g, I w -> I (with_rng g w)) -> preserves I (choice n probs).
Proof.
  intros Hrng w Hw. unfold choice.
  destruct (generate_choice_distribution n probs (rng w)) as [s g].
  apply Hrng, Hw.
Qed.

Lemma live_alter (agent : loc) (fs : FState) (f : Agent -> Agent) (a : loc) :
  preserves (live_at agent fs)
            (modify (fun w => with_heap (alter f a (heap w)) w)).
Proof.
  apply preserves_modify. intros w [Hl Hf]. split; [|exact Hf].
  cbn [heap with_heap]. rewrite lookup_alter. case_decide; [|exact Hl].
  subst a. rewrite fmap_is_Some. exact Hl.
Qed.

Lemma live_deepcopy (agent : loc) (fs : FState) (a : loc) :
  preserves (live_at agent fs) (deepcopy a).
Proof.
  intros w [Hl Hf]. split; [|exact Hf]. unfold deepcopy.
  cbn [snd heap with_heap]. apply lookup_insert_is_Some'. right. exact Hl.
Qed.

Lemma live_emit (agent : loc) (fs : FState) (e : event) :
  preserves (live_at agent fs) (emit e).
Proof. apply preserves_modify. intros w Hw. exact Hw. Qed.

Lemma holds_deepcopy (agent : loc) (x : Agent) (fs : FState) (a : loc) :
  preserves (holds_at agent x fs) (deepcopy a).
Proof.
  intros w [Hx Hf]. split; [|exact Hf]. unfold deepcopy.
  cbn [snd heap with_heap]. rewrite lookup_insert_ne; [exact Hx|].
  intros Heq. pose proof (is_fresh (dom (heap w))) as Hfresh.
  rewrite Heq in Hfresh. apply Hfresh, elem_of_dom. eexists; exact Hx.
Qed.

Lemma holds_alter_other (agent : loc) (x : Agent) (fs : FState)
    (f : Agent -> Agent) (a : loc) :
  a <> agent ->
  preserves (holds_at agent x fs)
            (modify (fun w => with_heap (alter f a (heap w)) w)).
Proof.
  intros Hne. apply preserves_modify. intros w [Hx Hf]. split; [|exact Hf].
  cbn [heap with_heap]. rewrite lookup_alter_ne by exact Hne. exact Hx.
Qed.
End WorldFrames.

Ltac live_step :=
  first
    [ apply preserves_ret | apply preserves_raise | apply preserves_lift
    | apply preserves_index | apply preserves_assign
    | apply preserves_read | apply preserves_call
    | apply preserves_uniform; intros ? ? Hw; exact Hw
    | apply preserves_gaussian; intros ? ? Hw; exact Hw
    | apply preserves_choice; intros ? ? Hw; exact Hw
    | apply live_alter | apply live_deepcopy | apply live_emit
    | apply preserves_bind; [|intros ?]
    | match goal with
      | |- preserves _ (if ?b then _ else _) => destruct b
      end ].

Ltac holds_step Hne :=
  first
    [ apply preserves_ret | apply preserves_raise | apply preserves_lift
    | apply preserves_index | apply preserves_assign
    | apply preserves_read | apply preserves_call
    | apply preserves_uniform; intros ? ? Hw; exact Hw
    | apply preserves_gaussian; intros ? ? Hw; exact Hw
    | apply preserves_choice; intros ? ? Hw; exact Hw
    | apply holds_deepcopy
    | apply holds_alter_other; exact Hne
    | apply preserves_bind; [|intros ?]
    | match goal with
      | |- preserves _ (if ?b then _ else _) => destruct b
      end ].

(* ===================================================================== *)
(** * Further properties: hyperparameters and construction                *)
(* ===================================================================== *)

(** A setter that refuses a value leaves the object as it was. *)
Lemma fset_raise_unchanged (owner : klass) (name : string)
    (fset : value -> M object unit) (v : value) (s s' : object) (e : exn) :
  assoc name (class_setters owner) = Some fset ->
  fset v s = (Raise e, s') -> s' = s.
Proof.
  intros Hf Hr.
  assert (Hnum : forall (msg1 msg2 key : string) (lo_ok : Q -> bool),
            (match as_number v with
             | None => raise (E_TypeError msg1)
             | Some x => if lo_ok x then raise (E_ValueError msg2)
                         else store key v
             end) s = (Raise e, s') -> s' = s).
  { intros msg1 msg2 key lo_ok H.
    destruct (as_number v) as [x|]; [destruct (lo_ok x)|];
      inversion H; reflexivity. }
  destruct owner; simpl in Hf;
    repeat match type of Hf with
           | (if ?b then _ else _) = _ => destruct b
           end;
    inversion Hf; subst fset; clear Hf;
    try (apply (Hnum _ _ _ _ Hr));
    try (inversion Hr; fail).
  - unfold fset_hyperparams in Hr.
    destruct (negb (is_dict_or_none v)); inversion Hr; reflexivity.
  - unfold fset_f_max in Hr.
    destruct (as_number v) as [x|]; [|inversion Hr; reflexivity].
    destruct (Qltb x 0); [inversion Hr; reflexivity|].
    unfold bind, load in Hr.
    destruct (attrs s !! "_f_min") as [m|]; [|inversion Hr; reflexivity].
    destruct (as_number m) as [lo|]; [|inversion Hr; reflexivity].
    destruct (Qltb x lo); inversion Hr; reflexivity.
Qed.

Lemma setattr_raise_unchanged (name : string) (v : value) (s s' : object)
    (e : exn) :
  setattr name v s = (Raise e, s') -> s' = s.
Proof.
  unfold setattr. destruct (resolve (cls s) name) as [owner|].
  - destruct (assoc name (class_setters owner)) as [fset|] eqn:Hf.
    + eapply fset_raise_unchanged, Hf.
    + intros H; inversion H.
  - intros H; inversion H.
Qed.

Lemma for_each_raise_inv {S A} (xs : list A) (body : A -> M S unit)
    (s s' : S) (e : exn) :
  for_each xs body s = (Raise e, s') ->
  exists before x after s1,
    xs = before ++ x :: after /\
    for_each before body s = (Ok tt, s1) /\
    body x s1 = (Raise e, s').
Proof.
  revert s. induction xs as [|x xs IH]; intros s Hr; [discriminate|].
  simpl in Hr. unfold bind in Hr.
  destruct (body x s) as [[[]|e0] s0] eqn:Hx.
  - destruct (IH _ Hr) as (before & y & after & s1 & -> & Hb & Hy).
    exists (x :: before), y, after, s1. split; [reflexivity|].
    split; [|exact Hy]. simpl. unfold bind. rewrite Hx. exact Hb.
  - inversion Hr; subst. exists [], x, xs, s.
    split; [reflexivity|]. split; [reflexivity | exact Hx].
Qed.

(** X1.  A build that a setter refuses is not undone: the mapping has been
    stored, the keys before the refused one have been applied (and only
    they), the refusing setter has changed nothing, and [built] has not been
    set by the call. *)
Theorem build_keeps_what_it_applied_before_a_refusal
    (hyperparams : value) (self s' : object) (e : exn) :
  is_dict_or_none hyperparams = true ->
  Optimizer._build hyperparams self = (Raise e, s') ->
  exists before k v after,
    dict_items hyperparams = before ++ (k, v) :: after /\
    for_each before (fun kv => setattr kv.1 kv.2)
      (Object (cls self) (<["_hyperparams" := hyperparams]> (attrs self)))
    = (Ok tt, s') /\
    setattr k v s' = (Raise e, s').
Proof.
  intros Hd Hr. rewrite build_unfold, Hd in Hr.
  change (store "_hyperparams" hyperparams self).2
    with (Object (cls self) (<["_hyperparams" := hyperparams]> (attrs self)))
    in Hr.
  destruct (for_each _ _ _) as [[[]|e0] s0] eqn:Hrun.
  - inversion Hr.
  - inversion Hr; subst e0 s0. clear Hr.
    apply for_each_raise_inv in Hrun
      as (before & [k v] & after & s1 & Hitems & Hb & Hk).
    pose proof (setattr_raise_unchanged _ _ _ _ _ Hk) as ->.
    exists before, k, v, after. repeat split; assumption.
Qed.

(** The hypotheses of X1 hold of a [GSA] given an unknown key, a negative
    [G] and another key: the first is kept, the last is not reached. *)
Lemma build_keeps_what_it_applied_before_a_refusal_witness :
  let hyperparams :=
    VDict [("foo", VInt 1); ("G", VInt (-1)); ("bar", VInt 2)] in
  exists s' before k v after,
    Optimizer._build hyperparams (Object cls_GSA ∅)
      = (Raise (E_ValueError "`G` should be >= 0"), s') /\
    attrs s' !! "foo" = Some (VInt 1) /\
    attrs s' !! "bar" = None /\
    attrs s' !! "_built" = None /\
    dict_items hyperparams = before ++ (k, v) :: after /\
    for_each before (fun kv => setattr kv.1 kv.2)
      (Object cls_GSA (<["_hyperparams" := hyperparams]> ∅)) = (Ok tt, s') /\
    setattr k v s' = (Raise (E_ValueError "`G` should be >= 0"), s').
Proof.
  cbv zeta. eexists.
  destruct (build_keeps_what_it_applied_before_a_refusal
              (VDict [("foo", VInt 1); ("G", VInt (-1)); ("bar", VInt 2)])
              (Object cls_GSA ∅) _ _ eq_refl eq_refl)
    as (before & k & v & after & H1 & H2 & H3).
  exists before, k, v, after.
  split; [reflexivity|]. split; [reflexivity|]. split; [reflexivity|].
  split; [reflexivity|]. split; [exact H1|]. split; [exact H2 | exact H3].
Defined.

Lemma setattr_unknown (c : klass) (a : gmap string value) (k : string)
    (v : value) :
  resolve c k = None ->
  setattr k v (Object c a) = (Ok tt, Object c (<[k := v]> a)).
Proof. intros Hk. unfold setattr. cbn [cls]. rewrite Hk. reflexivity. Qed.

Lemma apply_unknown_items (c : klass) (items : list (string * value))
    (a : gmap string value) :
  Forall (fun kv => resolve c kv.1 = None) items ->
  for_each items (fun kv => setattr kv.1 kv.2) (Object c a) =
  (Ok tt, Object c (foldl (fun m kv => <[kv.1 := kv.2]> m) a items)).
Proof.
  intros Hall. revert a. induction Hall as [|[k v] items Hk Hall IH]; intros a.
  - reflexivity.
  - cbn [for_each foldl]. erewrite bind_returns; [|apply setattr_unknown, Hk].
    apply IH.
Qed.

(** X2.  Keys that no class along the MRO of the optimizer binds -- the
    hyperparameters of another algorithm among them -- are accepted by
    [_build] without any validation and become attributes as they are, the
    later ones over the earlier ones; [built] is set. *)
Theorem build_stores_unknown_keys_unvalidated
    (c : klass) (a : gmap string value) (items : list (string * value)) :
  Forall (fun kv => resolve c kv.1 = None) items ->
  Optimizer._build (VDict items) (Object c a) =
  (Ok tt,
   Object c (<["_built" := VBool true]>
               (foldl (fun m kv => <[kv.1 := kv.2]> m)
                      (<["_hyperparams" := VDict items]> a) items))).
Proof.
  intros Hall. rewrite build_unfold. cbn [is_dict_or_none dict_items].
  change (store "_hyperparams" (VDict items) (Object c a)).2
    with (Object c (<["_hyperparams" := VDict items]> a)).
  rewrite (apply_unknown_items c items _ Hall). reflexivity.
Qed.

(** The hypothesis of X2 holds of a bat algorithm given a negative gravity:
    [G] is a property of [GSA] only. *)
Lemma build_stores_unknown_keys_unvalidated_witness :
  Optimizer._build (VDict [("G", VInt (-1))]) (Object cls_BA ∅) =
  (Ok tt,
   Object cls_BA
     (<["_built" := VBool true]>
        (<["G" := VInt (-1)]>
           (<["_hyperparams" := VDict [("G", VInt (-1))]]> ∅)))).
Proof.
  exact (build_stores_unknown_keys_unvalidated cls_BA ∅ [("G", VInt (-1))]
           ltac:(repeat constructor)).
Defined.











(** The restriction on the keys is needed: a key that is the private name
    itself is written without passing through the setter. *)
Example a_private_key_bypasses_its_setter :
  let self := Object cls_GSA (<["_G" := VFloat 2.467]> ∅) in
  let self' := (Optimizer._build (VDict [("_G", VInt (-5))]) self) in
  hyperparams_ok self /\
  self'.1 = Ok tt /\ attrs self'.2 !! "_G" = Some (VInt (-5)) /\
  ~ hyperparams_ok self'.2.
Proof.
  cbv zeta. split; [|split; [reflexivity|split; [reflexivity|]]].
  - exists (VFloat 2.467), 2.467.
    split; [reflexivity | split; [reflexivity | unfold Qle; cbn; lia]].
  - intros (v & x & Hv & Hx & Hok). vm_compute in Hv.
    inversion Hv; subst v. inversion Hx; subst x.
    revert Hok. cbn. unfold Qle. cbn. lia.
Qed.

Lemma setattr_f_min (v : value) (x : Q) (a : gmap string value) :
  as_number v = Some x -> 0 <= x ->
  setattr "f_min" v (Object cls_BA a) =
  (Ok tt, Object cls_BA (<["_f_min" := v]> a)).
Proof.
  intros Hv Hx. change (setattr "f_min" v (Object cls_BA a))
    with (fset_f_min v (Object cls_BA a)).
  unfold fset_f_min. rewrite Hv.
  apply Qltb_ge in Hx. rewrite Hx. reflexivity.
Qed.

Lemma setattr_f_max (v m : value) (x lo : Q) (a : gmap string value) :
  as_number v = Some x -> 0 <= x ->
  a !! "_f_min" = Some m -> as_number m = Some lo ->
  setattr "f_max" v (Object cls_BA a) =
  if Qltb x lo
  then (Raise (E_ValueError "`f_max` should be >= `f_min`"), Object cls_BA a)
  else (Ok tt, Object cls_BA (<["_f_max" := v]> a)).
Proof.
  intros Hv Hx Hm Hlo. change (setattr "f_max" v (Object cls_BA a))
    with (fset_f_max v (Object cls_BA a)).
  unfold fset_f_max. rewrite Hv.
  apply Qltb_ge in Hx. rewrite Hx.
  unfold bind, load. cbn [attrs]. rewrite Hm, Hlo.
  destruct (Qltb x lo); reflexivity.
Qed.

(** X4.  The setter of [f_max] tests its value against the current [f_min],
    the setter of [f_min] tests nothing against [f_max].  So of a mapping
    that lowers [f_max] (within the current range) and raises [f_min] above
    it, the outcome depends on the order of the keys: [f_max] first, the
    build succeeds and leaves [f_max < f_min]; [f_min] first, it raises a
    value error after [f_min] has been changed. *)
Theorem f_min_is_not_tested_against_f_max
    (a : gmap string value) (vx vy : value) (x y : Q) :
  as_number vx = Some x -> as_number vy = Some y ->
  0 <= x -> x < y ->
  holds "_f_min" (fun lo => lo <= x) (Object cls_BA a) ->
  Optimizer._build (VDict [("f_max", vx); ("f_min", vy)]) (Object cls_BA a) =
    (Ok tt,
     Object cls_BA
       (<["_built" := VBool true]>
          (<["_f_min" := vy]>
             (<["_f_max" := vx]>
                (<["_hyperparams" := VDict [("f_max", vx); ("f_min", vy)]]>
                   a))))) /\
  Optimizer._build (VDict [("f_min", vy); ("f_max", vx)]) (Object cls_BA a) =
    (Raise (E_ValueError "`f_max` should be >= `f_min`"),
     Object cls_BA
       (<["_f_min" := vy]>
          (<["_hyperparams" := VDict [("f_min", vy); ("f_max", vx)]]> a))).
Proof.
  intros Hvx Hvy Hx Hxy (m & lo & Hm & Hlo & Hle). cbn [attrs] in Hm.
  assert (Hy : 0 <= y) by lra.
  split; rewrite build_unfold; cbn [is_dict_or_none dict_items].
  - change (store "_hyperparams" ?v (Object cls_BA a)).2
      with (Object cls_BA (<["_hyperparams" := v]> a)).
    cbn [for_each fst snd].
    erewrite bind_returns; cycle 1.
    { rewrite (setattr_f_max vx m x lo _ Hvx Hx); [| |exact Hlo].
      - apply Qltb_ge in Hle. rewrite Hle. reflexivity.
      - rewrite lookup_insert_ne; [exact Hm | discriminate]. }
    erewrite bind_returns; [|apply (setattr_f_min _ y); assumption].
    reflexivity.
  - change (store "_hyperparams" ?v (Object cls_BA a)).2
      with (Object cls_BA (<["_hyperparams" := v]> a)).
    cbn [for_each fst snd].
    erewrite bind_returns; [|apply (setattr_f_min _ y); assumption].
    erewrite bind_raises; [reflexivity|].
    rewrite (setattr_f_max vx vy x y _ Hvx Hx);
      [|apply lookup_insert_eq | exact Hvy].
    apply Qltb_lt in Hxy. rewrite Hxy. reflexivity.
Qed.

(** The hypotheses of X4 hold of the defaults of the bat algorithm
    ([f_min = 0], [f_max = 2]) and the mapping [f_max = 1], [f_min = 3]. *)
Lemma f_min_is_not_tested_against_f_max_witness :
  let a : gmap string value :=
    <["_f_max" := VInt 2]> (<["_f_min" := VInt 0]> ∅) in
  (Optimizer._build (VDict [("f_max", VInt 1); ("f_min", VInt 3)])
     (Object cls_BA a)).1 = Ok tt /\
  (Optimizer._build (VDict [("f_min", VInt 3); ("f_max", VInt 1)])
     (Object cls_BA a)).1
  = Raise (E_ValueError "`f_max` should be >= `f_min`").
Proof.
  cbv zeta.
  assert (H0 : 0 <= 1) by (unfold Qle; cbn; lia).
  assert (H1 : 1 < 3) by (unfold Qlt; cbn; lia).
  assert (H2 : holds "_f_min" (fun lo => lo <= 1)
                 (Object cls_BA
                    (<["_f_max" := VInt 2]> (<["_f_min" := VInt 0]> ∅)))).
  { exists (VInt 0), 0.
    split; [reflexivity | split; [reflexivity | unfold Qle; cbn; lia]]. }
  destruct (f_min_is_not_tested_against_f_max
              (<["_f_max" := VInt 2]> (<["_f_min" := VInt 0]> ∅))
              (VInt 1) (VInt 3) 1 3 eq_refl eq_refl H0 H1 H2) as [Ha Hb].
  split; [rewrite Ha | rewrite Hb]; reflexivity.
Defined.

(** X5.  The constructors of the three algorithms never reach the build
    step: after the defaults have passed through the setters, the call
    [self.build(params)] finds no attribute of that name (the method is
    [_build]) and raises, whatever the parameters.  The object is left with
    the defaults, not built, and the parameters have not been looked at. *)
Theorem constructors_leave_the_defaults_and_raise (params : value) :
  GSA.__init__ params (Object cls_GSA ∅) =
    (Raise (AttributeError "build"),
     Object cls_GSA
       (<["_G" := VFloat 2.467]>
          (<["_built" := VBool false]>
             (<["_hyperparams" := VNone]> (<["_algorithm" := VStr ""]> ∅)))))
  /\
  BA.__init__ params (Object cls_BA ∅) =
    (Raise (AttributeError "build"),
     Object cls_BA
       (<["_r" := VFloat 0.5]>
          (<["_A" := VFloat 0.5]>
             (<["_f_max" := VInt 2]>
                (<["_f_min" := VInt 0]>
                   (<["_built" := VBool false]>
                      (<["_hyperparams" := VNone]>
                         (<["_algorithm" := VStr ""]> ∅))))))))
  /\
  SBO.__init__ params (Object cls_SBO ∅) =
    (Raise (AttributeError "build"),
     Object cls_SBO
       (<["_z" := VFloat 0.02]>
          (<["_p_mutation" := VFloat 0.05]>
             (<["_alpha" := VFloat 0.9]>
                (<["_built" := VBool false]>
                   (<["_hyperparams" := VNone]>
                      (<["_algorithm" := VStr ""]> ∅))))))).
Proof. split; [|split]; vm_compute; reflexivity. Qed.

(* ===================================================================== *)
(** * Further properties: evaluation                                      *)
(* ===================================================================== *)

Section EvaluateMinimum.
Context `{Externals}.
Implicit Types (w : world) (sp : Space) (function : Function).

(** The loop of [_evaluate] leaves in the best agent the least fitness met,
    with the position it was met at: the one it had, or that of an agent of
    the population that is strictly better than it was. *)
Lemma evaluate_loop_minimum sp function (l : list loc) w :
  best_agent sp ∉ l ->
  Forall (fun a => is_Some (heap w !! a)) l ->
  is_Some (heap w !! best_agent sp) ->
  let w' := (for_each l (Optimizer.evaluate_agent sp function) w).2 in
  (forall a, a ∈ l ->
     fit_at w' (best_agent sp) <= function (fstate w) (position_at w a)) /\
  (agent_at w' (best_agent sp) = agent_at w (best_agent sp) \/
   exists a, a ∈ l /\
     function (fstate w) (position_at w a) < fit_at w (best_agent sp) /\
     agent_at w' (best_agent sp) =
       with_fit (function (fstate w) (position_at w a))
         (with_position (position_at w a) (agent_at w (best_agent sp)))).
Proof.
  revert w. induction l as [|a l IH]; intros w Hl Hlive Hb; cbn zeta.
  - split; [intros a Ha; inversion Ha | left; reflexivity].
  - apply not_elem_of_cons in Hl as [Hab Hl].
    apply Forall_cons in Hlive as [Ha Hlive].
    simpl. unfold bind.
    rewrite (total_unit _ w (total_evaluate_agent sp function a)).
    destruct (evaluate_agent_spec sp function a w) as (E1 & E2 & E3 & E4 & E5);
      [congruence | exact Ha | exact Hb |].
    set (w1 := (Optimizer.evaluate_agent sp function a w).2) in *.
    set (fa := function (fstate w) (position_at w a)) in *.
    assert (Hpos : forall x, x <> best_agent sp ->
                             position_at w1 x = position_at w x).
    { intros x Hx. unfold position_at.
      destruct (decide (x = a)) as [->|Hxa]; [rewrite E1; reflexivity|].
      rewrite (agent_at_heap w w1 x (E3 x Hxa Hx)). reflexivity. }
    assert (Hb1 : fit_at w1 (best_agent sp) <= fa /\
                  fit_at w1 (best_agent sp) <= fit_at w (best_agent sp)).
    { assert (Hf1 : fit_at w1 (best_agent sp) =
                    if Qltb fa (fit_at w (best_agent sp))
                    then fa else fit_at w (best_agent sp)).
      { unfold fit_at at 1. rewrite E2.
        destruct (Qltb fa (fit_at w (best_agent sp))); reflexivity. }
      rewrite Hf1.
      destruct (Qltb fa (fit_at w (best_agent sp))) eqn:Hlt.
      - apply Qltb_lt in Hlt. split; lra.
      - apply Qltb_ge in Hlt. split; lra. }
    destruct (IH w1) as (I1 & I2); [exact Hl | | |].
    { eapply Forall_impl; [exact Hlive|]. intros x Hx. apply E4, Hx. }
    { apply E4, Hb. }
    cbn zeta in I1, I2.
    set (w' := (for_each l (Optimizer.evaluate_agent sp function) w1).2) in *.
    split.
    + intros x Hx. apply elem_of_cons in Hx as [->|Hx].
      * eapply Qle_trans; [|apply Hb1].
        apply evaluate_loop_mono, Hl.
      * specialize (I1 x Hx). rewrite E5, Hpos in I1; [exact I1|].
        intros ->. contradiction.
    + destruct I2 as [I2|(x & Hx & Hlt & I2)].
      * rewrite I2, E2.
        destruct (Qltb fa (fit_at w (best_agent sp))) eqn:Hlt;
          [|left; reflexivity].
        right. exists a. split; [left|]. apply Qltb_lt in Hlt.
        split; [exact Hlt | reflexivity].
      * assert (Hxb : x <> best_agent sp) by (intros ->; contradiction).
        rewrite E5, (Hpos x Hxb) in Hlt, I2.
        right. exists x. split; [right; exact Hx|].
        split; [lra|]. rewrite I2, E2.
        destruct (Qltb fa (fit_at w (best_agent sp))); reflexivity.
Qed.

Lemma evaluate_agent_frame sp function (a : loc) :
  forall (g : Rng) (t : list event),
  preserves (fun w => rng w = g /\ trace w = t)
            (Optimizer.evaluate_agent sp function a).
Proof.
  intros g t w Hw. rewrite evaluate_agent_run. cbv zeta.
  destruct (Qltb _ _); exact Hw.
Qed.

Lemma evaluate_frame sp function (hook : Hook) w :
  rng (Optimizer._evaluate sp function hook w).2 = rng w /\
  trace (Optimizer._evaluate sp function hook w).2 = trace w.
Proof.
  rewrite evaluate_run. cbn [snd].
  apply (preserves_for_each (fun w0 => rng w0 = rng w /\ trace w0 = trace w)).
  - intros a _. apply evaluate_agent_frame.
  - destruct hook; split; reflexivity.
Qed.
End EvaluateMinimum.

(** X6.  After [_evaluate] on a space whose best agent is a standalone live
    object, the best agent is a minimum of the population: its fitness is at
    most that of every agent, and its position and fitness are those it had
    on entry, or those of an agent that is strictly better than it was. *)
Theorem evaluate_leaves_a_minimum_in_the_best_agent `{Externals}
    (sp : Space) (function : Function) (hook : Hook) (w : world) :
  Space_wf sp w ->
  let best := best_agent sp in
  let w' := (Optimizer._evaluate sp function hook w).2 in
  (forall a, a ∈ agents sp -> fit_at w' best <= fit_at w' a) /\
  ((position_at w' best = position_at w best /\
    fit_at w' best = fit_at w best) \/
   exists a, a ∈ agents sp /\
     fit_at w' a < fit_at w best /\
     position_at w' best = position_at w' a /\
     fit_at w' best = fit_at w' a) /\
  lb (agent_at w' best) = lb (agent_at w best) /\
  ub (agent_at w' best) = ub (agent_at w best).
Proof.
  intros (Hb & Hlb & Hla) best w'. subst w'. rewrite evaluate_run. cbn [snd].
  set (w0 := match hook with
             | Some k => with_fstate (k (fstate w)) w | None => w end).
  assert (Hh : heap w0 = heap w) by (subst w0; destruct hook; reflexivity).
  assert (Hp : forall x, agent_at w0 x = agent_at w x)
    by (intros x; unfold agent_at; rewrite Hh; reflexivity).
  destruct (evaluate_loop_spec sp function (agents sp) w0) as (Hs & _);
    [exact Hb | rewrite Hh; exact Hla | rewrite Hh; exact Hlb |].
  destruct (evaluate_loop_minimum sp function (agents sp) w0) as (M1 & M2);
    [exact Hb | rewrite Hh; exact Hla | rewrite Hh; exact Hlb |].
  cbn zeta in Hs, M1, M2. fold best in M1, M2.
  set (w' := (for_each (agents sp) (Optimizer.evaluate_agent sp function)
                w0).2) in *.
  assert (Hfit : forall a, a ∈ agents sp ->
            fit_at w' a = function (fstate w0) (position_at w0 a) /\
            position_at w' a = position_at w0 a).
  { intros a Ha. unfold fit_at, position_at. rewrite (Hs a Ha).
    split; reflexivity. }
  split; [|split].
  - intros a Ha. rewrite (proj1 (Hfit a Ha)). apply M1, Ha.
  - destruct M2 as [M2|(a & Ha & Hlt & M2)].
    + left. unfold position_at, fit_at. rewrite M2, Hp. split; reflexivity.
    + right. exists a. destruct (Hfit a Ha) as [Hf Hq].
      split; [exact Ha|]. split.
      * rewrite Hf. unfold fit_at in Hlt |- *. rewrite Hp in Hlt. exact Hlt.
      * unfold position_at at 1, fit_at at 1. rewrite M2, Hf, Hq.
        split; reflexivity.
  - destruct M2 as [M2|(a & Ha & Hlt & M2)]; rewrite M2, ?Hp;
      split; reflexivity.
Qed.

Ltac sample_wf :=
  split; [|split];
  [ simpl; let Hin := fresh in
    intros Hin; apply list_elem_of_In in Hin; simpl in Hin;
    intuition discriminate
  | eexists; reflexivity
  | repeat constructor; eexists; reflexivity ].

(** The hypothesis of X6 holds of a space of three agents; the second one
    is the strict minimum and the best agent ends at its position. *)
Lemma evaluate_leaves_a_minimum_in_the_best_agent_witness :
  let sp := sample_space 3 0 in
  let w := sample_world (0, 1000) [(3, 1000); (-2, 1000); (1, 1000)] in
  let w' := (Optimizer._evaluate sp sphere None w).2 in
  Space_wf sp w /\
  (forall a, a ∈ agents sp -> fit_at w' (best_agent sp) <= fit_at w' a) /\
  position_at w' (best_agent sp) = [[1]].
Proof.
  cbv zeta.
  assert (Hwf : Space_wf (sample_space 3 0)
           (sample_world (0, 1000) [(3, 1000); (-2, 1000); (1, 1000)]))
    by sample_wf.
  split; [exact Hwf|].
  split; [|reflexivity].
  exact (proj1 (evaluate_leaves_a_minimum_in_the_best_agent
                  (sample_space 3 0) sphere None _ Hwf)).
Defined.

Lemma world_eq `{Externals} (w1 w2 : world) :
  heap w1 = heap w2 -> rng w1 = rng w2 -> fstate w1 = fstate w2 ->
  trace w1 = trace w2 -> w1 = w2.
Proof. destruct w1, w2. cbn. intros -> -> -> ->. reflexivity. Qed.

(** X7.  Without a hook, [_evaluate] is idempotent on a space whose best
    agent is a standalone live object: a second evaluation right after the
    first changes nothing in the world. *)
Theorem evaluate_twice_is_evaluate_once `{Externals}
    (sp : Space) (function : Function) (w : world) :
  Space_wf sp w ->
  let w' := (Optimizer._evaluate sp function None w).2 in
  Optimizer._evaluate sp function None w' = (Ok tt, w').
Proof.
  intros Hwf w'.
  pose proof (evaluate_keeps_wf sp function None w Hwf) as Hwf'.
  fold w' in Hwf'.
  destruct Hwf as (Hb & Hlb & Hla). destruct Hwf' as (_ & Hlb' & Hla').
  destruct (evaluate_frame sp function None w') as [Hrng Htr].
  rewrite (evaluate_run sp function None w') in Hrng, Htr |- *.
  cbn [snd] in Hrng, Htr. f_equal.
  assert (Ew' : w' = (for_each (agents sp)
                        (Optimizer.evaluate_agent sp function) w).2)
    by (subst w'; rewrite evaluate_run; reflexivity).
  destruct (evaluate_loop_spec sp function (agents sp) w Hb Hla Hlb)
    as (S1 & _ & _ & S4).
  destruct (evaluate_loop_minimum sp function (agents sp) w Hb Hla Hlb)
    as (M1 & _).
  cbn zeta in S1, S4, M1. rewrite <- Ew' in S1, S4, M1.
  destruct (evaluate_loop_spec sp function (agents sp) w' Hb Hla' Hlb')
    as (T1 & T2 & T3 & T4).
  destruct (evaluate_loop_minimum sp function (agents sp) w' Hb Hla' Hlb')
    as (_ & N2).
  cbn zeta in T1, T2, T3, T4, N2.
  set (w2 := (for_each (agents sp) (Optimizer.evaluate_agent sp function)
                w').2) in *.
  assert (Hsame : forall a, a ∈ agents sp ->
            function (fstate w') (position_at w' a)
            = function (fstate w) (position_at w a)).
  { intros a Ha. rewrite S4. unfold position_at. rewrite (S1 a Ha).
    reflexivity. }
  apply world_eq; [|assumption..].
  apply map_eq. intros x.
  destruct (decide (x = best_agent sp)) as [->|Hxb].
  - rewrite (heap_lookup_agent_at w2), (heap_lookup_agent_at w');
      [|exact Hlb'|apply T3, Hlb'].
    destruct N2 as [N2|(a & Ha & Hlt & _)]; [rewrite N2; reflexivity|].
    rewrite (Hsame a Ha) in Hlt. specialize (M1 a Ha). lra.
  - destruct (decide (x ∈ agents sp)) as [Hx|Hx]; [|apply T2; assumption].
    assert (Hx' : is_Some (heap w' !! x)).
    { rewrite Forall_forall in Hla'. apply Hla', Hx. }
    rewrite (heap_lookup_agent_at w2), (heap_lookup_agent_at w');
      [|exact Hx'|apply T3, Hx'].
    rewrite (T1 x Hx), (Hsame x Hx), (S1 x Hx). reflexivity.
Qed.

(** The hypothesis of X7 holds of a space of three agents. *)
Lemma evaluate_twice_is_evaluate_once_witness :
  let sp := sample_space 3 0 in
  let w := sample_world (0, 1000) [(3, 1000); (-2, 1000); (1, 1000)] in
  let w' := (Optimizer._evaluate sp sphere None w).2 in
  Space_wf sp w /\ Optimizer._evaluate sp sphere None w' = (Ok tt, w').
Proof.
  cbv zeta.
  assert (Hwf : Space_wf (sample_space 3 0)
           (sample_world (0, 1000) [(3, 1000); (-2, 1000); (1, 1000)]))
    by sample_wf.
  split; [exact Hwf|].
  exact (evaluate_twice_is_evaluate_once (sample_space 3 0) sphere _ Hwf).
Defined.

(* ===================================================================== *)
(** * Further properties: the masses and the update of [GSA]              *)
(* ===================================================================== *)

Lemma sorted_lookup {B} (R : B -> B -> Prop) (l : list B) (i j : nat)
    (x y : B) :
  StronglySorted R l -> (i < j)%nat ->
  l !! i = Some x -> l !! j = Some y -> R x y.
Proof.
  intros Hs. revert i j. induction Hs as [|z l Hs IH Hz]; intros i j Hij Hi Hj.
  - discriminate.
  - destruct j as [|j]; [lia|]. cbn in Hj. destruct i as [|i].
    + cbn in Hi. inversion Hi; subst z.
      rewrite Forall_forall in Hz. apply Hz.
      eapply list_elem_of_lookup_2, Hj.
    + cbn in Hi. apply (IH i j); [lia | assumption..].
Qed.

Lemma elem_le_np_sum (xs : list Q) (x : Q) :
  Forall (fun y => 0 <= y) xs -> x ∈ xs -> x <= np_sum xs.
Proof.
  induction 1 as [|y xs Hy Hxs IH]; intros Hin; [inversion Hin|].
  change (np_sum (y :: xs)) with (y + np_sum xs).
  pose proof (np_sum_nonneg xs Hxs).
  apply elem_of_cons in Hin as [->|Hin]; [lra|].
  specialize (IH Hin). lra.
Qed.

Section MassOrder.
Context `{Externals}.
Implicit Types (w : world) (agents : list loc).

(** The quotients [(fit - worst) / (best - worst)] of a list sorted by
    fitness: each lies between 0 and 1 and they do not increase along the
    list. *)
Lemma raw_mass_range agents w (first final : loc) :
  StronglySorted (fun a b => fit_at w a <= fit_at w b) agents ->
  head agents = Some first -> last agents = Some final ->
  fit_at w first < fit_at w final ->
  let raw a := (fit_at w a - fit_at w final)
               / (fit_at w first - fit_at w final) in
  Forall (fun a => 0 <= raw a <= 1) agents /\
  raw first == 1 /\ raw final == 0 /\
  (forall a b, fit_at w a <= fit_at w b -> raw b <= raw a).
Proof.
  intros Hs Hh Hl Hlt raw.
  set (best := fit_at w first) in *. set (worst := fit_at w final) in *.
  assert (Hraw : forall a, raw a == (worst - fit_at w a) / (worst - best)).
  { intros a. unfold raw. field. lra. }
  assert (Hlow : Forall (fun a => best <= fit_at w a) agents).
  { destruct agents as [|x l]; [constructor|].
    cbn in Hh. inversion Hh; subst x.
    apply StronglySorted_cons in Hs as [Hx _].
    constructor; [apply Qle_refl | exact Hx]. }
  pose proof (sorted_below_last (fit_at w) agents final Hs Hl) as Hhigh.
  cbv beta in Hhigh. fold worst in Hhigh.
  split; [|split; [|split]].
  - rewrite Forall_forall in *. intros a Ha.
    specialize (Hlow a Ha). specialize (Hhigh a Ha). rewrite Hraw. split.
    + apply Qle_shift_div_l; lra.
    + apply Qle_shift_div_r; lra.
  - rewrite Hraw. fold best. field. lra.
  - rewrite Hraw. fold worst. field. lra.
  - intros a b Hab. rewrite !Hraw.
    apply Qle_shift_div_l; [lra|].
    assert (E : (worst - fit_at w b) / (worst - best) * (worst - best)
                == worst - fit_at w b) by (field; lra).
    rewrite E. lra.
Qed.
End MassOrder.

(** The masses of a list sorted by fitness. *)
Lemma calculate_mass_order `{Externals}
    (agents : list loc) (w : world) (m : list Q) :
  StronglySorted (fun a b => fit_at w a <= fit_at w b) agents ->
  (GSA._calculate_mass agents w).1 = Ok m ->
  length m = length agents /\
  Forall (fun mi => 0 <= mi <= 1) m /\
  (forall i j mi mj, (i <= j)%nat ->
     m !! i = Some mi -> m !! j = Some mj -> mj <= mi) /\
  (forall mi, head m = Some mi -> 0 < mi) /\
  (forall mj, last m = Some mj -> mj == 0).
Proof.
  intros Hs Hm.
  destruct (calculate_mass_inv agents w m Hm)
    as (first & final & Hh & Hl & Hd & Hsum & ->).
  cbv zeta in Hd, Hsum |- *.
  assert (Hlt : fit_at w first < fit_at w final).
  { pose proof (sorted_below_last (fit_at w) agents final Hs Hl) as Hhigh.
    rewrite Forall_forall in Hhigh.
    assert (Hin : first ∈ agents)
      by (destruct agents; inversion Hh; subst; left).
    specialize (Hhigh first Hin). cbv beta in Hhigh.
    destruct (Qlt_le_dec (fit_at w first) (fit_at w final)) as [|Hge];
      [assumption|].
    exfalso. apply Hd. lra. }
  destruct (raw_mass_range agents w first final Hs Hh Hl Hlt)
    as (Hrange & Hfirst & Hfinal & Hanti).
  cbv zeta in Hrange, Hfirst, Hfinal, Hanti.
  set (raw := fun a => (fit_at w a - fit_at w final)
                       / (fit_at w first - fit_at w final)) in *.
  set (S := np_sum (map raw agents)) in *.
  assert (Hrange' : forall a, a ∈ agents -> 0 <= raw a <= 1)
    by (rewrite Forall_forall in Hrange; exact Hrange).
  assert (Hfirst' : raw first == 1) by exact Hfirst.
  assert (Hfinal' : raw final == 0) by exact Hfinal.
  assert (Hanti' : forall a b, fit_at w a <= fit_at w b -> raw b <= raw a)
    by exact Hanti.
  clear Hrange Hfirst Hfinal Hanti.
  assert (Hnn : Forall (fun y => 0 <= y) (map raw agents)).
  { apply Forall_map. apply Forall_forall. intros a Ha.
    apply (Hrange' a Ha). }
  assert (HS : 0 < S).
  { pose proof (np_sum_nonneg _ Hnn) as HS0. fold S in HS0.
    destruct (Qlt_le_dec 0 S) as [|Hle]; [assumption|].
    exfalso. apply Hsum. lra. }
  rewrite map_map.
  split; [rewrite !length_map; reflexivity|].
  split; [|split; [|split]].
  - apply Forall_map. apply Forall_forall. intros a Ha.
    cbv beta. destruct (Hrange' a Ha) as [Hlo _]. split.
    + apply Qle_shift_div_l; lra.
    + apply Qle_shift_div_r; [exact HS|].
      assert (raw a <= S); [|lra].
      apply elem_le_np_sum; [exact Hnn|].
      apply list_elem_of_fmap. exists a. split; [reflexivity | exact Ha].
  - intros i j mi mj Hij Hi Hj.
    rewrite list_lookup_fmap in Hi, Hj.
    destruct (agents !! i) as [a|] eqn:Ea; [|discriminate].
    destruct (agents !! j) as [b|] eqn:Eb; [|discriminate].
    cbn in Hi, Hj. inversion Hi. inversion Hj.
    assert (Hab : fit_at w a <= fit_at w b).
    { destruct (decide (i = j)) as [->|Hne].
      - rewrite Ea in Eb. inversion Eb. apply Qle_refl.
      - apply (sorted_lookup _ agents i j a b Hs); [lia | assumption..]. }
    specialize (Hanti' a b Hab).
    apply Qle_shift_div_l; [exact HS|].
    assert (E : raw b / S * S == raw b) by (field; lra).
    rewrite E. exact Hanti'.
  - intros mi Hmi. destruct agents as [|a l]; [discriminate|].
    cbn in Hh, Hmi. inversion Hh; subst a. inversion Hmi.
    apply Qlt_shift_div_l; [exact HS|]. rewrite Hfirst'. lra.
  - intros mj Hmj. change (map ?f agents) with (f <$> agents) in Hmj.
    rewrite fmap_last, Hl in Hmj. cbn in Hmj. inversion Hmj.
    rewrite Hfinal'. field. lra.
Qed.

(** X8.  On a list sorted by fitness, as [update] passes it, the masses
    that [_calculate_mass] returns lie between 0 and 1, do not increase
    along the list (a better agent is never lighter), the best agent has a
    positive mass and the worst one the mass 0. *)
Theorem masses_follow_the_order_of_fitness `{Externals}
    (agents : list loc) (w : world) (m : list Q) :
  StronglySorted (fun a b => fit_at w a <= fit_at w b) agents ->
  (GSA._calculate_mass agents w).1 = Ok m ->
  length m = length agents /\
  Forall (fun mi => 0 <= mi <= 1) m /\
  (forall i j mi mj, (i <= j)%nat ->
     m !! i = Some mi -> m !! j = Some mj -> mj <= mi) /\
  (forall mi, head m = Some mi -> 0 < mi) /\
  (forall mj, last m = Some mj -> mj == 0).
Proof. apply calculate_mass_order. Qed.

(** The hypotheses of X8 hold of three sample agents of fitness 1, 4
    and 9. *)
Lemma masses_follow_the_order_of_fitness_witness :
  let w := sample_world (0, 1000) [(1, 1); (-2, 4); (3, 9)] in
  exists m,
    (GSA._calculate_mass [1; 2; 3]%nat w).1 = Ok m /\
    Forall (fun mi => 0 <= mi <= 1) m /\
    (forall mj, last m = Some mj -> mj == 0).
Proof.
  cbv zeta. eexists. split; [vm_compute; reflexivity|].
  assert (Hs : StronglySorted
                 (fun a b => fit_at (sample_world (0, 1000)
                                       [(1, 1); (-2, 4); (3, 9)]) a
                             <= fit_at (sample_world (0, 1000)
                                          [(1, 1); (-2, 4); (3, 9)]) b)
                 [1; 2; 3]%nat).
  { repeat constructor; vm_compute; discriminate. }
  destruct (masses_follow_the_order_of_fitness [1; 2; 3]%nat
              (sample_world (0, 1000) [(1, 1); (-2, 4); (3, 9)]) _ Hs
              ltac:(vm_compute; reflexivity))
    as (_ & Hr & _ & _ & Hz).
  split; [exact Hr | exact Hz].
Defined.

Section UpdateDegenerate.
Context `{Externals}.
Implicit Types (w : world) (agents : list loc).

End UpdateDegenerate.


Section UpdateFrame.
Context `{Externals}.
Implicit Types (w : world) (agents : list loc).

Lemma moved_only_refl agents w : moved_only agents w w.
Proof. repeat split; intros; tauto. Qed.

Lemma moved_only_rng agents w0 w (g : Rng) :
  moved_only agents w0 w -> moved_only agents w0 (with_rng g w).
Proof. intros Hw. exact Hw. Qed.

Lemma moved_only_set_position agents w0 (a : loc) (p : array) :
  a ∈ agents -> preserves (moved_only agents w0) (set_position a p).
Proof.
  intros Ha. apply preserves_modify. intros w (Hf & Ht & Hx).
  destruct (heap w !! a) as [ag|] eqn:Hlive;
    [|rewrite agent_at_alter_dangling by exact Hlive;
      split; [|split]; assumption].
  split; [exact Hf|]. split; [exact Ht|]. intros x.
  destruct (Hx x) as (H1 & H2 & H3 & H4 & H5 & H6).
  destruct (decide (x = a)) as [->|Hne].
  - rewrite agent_at_alter_eq by (eexists; exact Hlive).
    split; [intros Hn; contradiction|].
    split; [|repeat split; assumption].
    cbn [heap with_heap]. rewrite lookup_alter_eq, fmap_is_Some. exact H2.
  - rewrite agent_at_alter_ne by congruence.
    cbn [heap with_heap]. rewrite lookup_alter_ne by congruence.
    repeat split; try assumption; apply H2.
Qed.

Lemma moved_only_calculate_mass agents w0 (l : list loc) :
  preserves (moved_only agents w0) (GSA._calculate_mass l).
Proof. intros w Hw. rewrite calculate_mass_run. exact Hw. Qed.

Lemma moved_only_calculate_force agents w0 (l : list loc) (mass : list Q)
    (gravity : Q) :
  preserves (moved_only agents w0) (GSA._calculate_force l mass gravity).
Proof.
  unfold GSA._calculate_force.
  apply preserves_bind.
  - apply preserves_map_m. intros i _. apply preserves_map_m. intros j _.
    repeat first [ preserves_step | apply preserves_read ].
  - intros force. apply preserves_bind; [|intros u; apply preserves_ret].
    apply preserves_uniform. intros w g Hw. exact Hw.
Qed.

Lemma moved_only_update (G : Q) agents w0 (l : list loc)
    (velocity : list array) (t : nat) :
  (forall w, moved_only agents w0 w ->
             forall a, a ∈ sort_by (fit_at w) l -> a ∈ agents) ->
  preserves (moved_only agents w0) (GSA.update G l velocity t).
Proof.
  intros Hl w Hw. rewrite update_run. cbv zeta.
  pose proof (Hl w Hw) as Hs. revert Hs.
  generalize (sort_by (fit_at w) l). intros sorted Hs. revert w Hw.
  match goal with
  | |- forall w, _ -> moved_only _ _ (?c w).2 =>
      change (preserves (moved_only agents w0) c)
  end.
  apply preserves_bind; [apply moved_only_calculate_mass|]. intros mass.
  apply preserves_bind; [apply moved_only_calculate_force|]. intros force.
  apply preserves_bind; [|intros v; apply preserves_ret].
  apply preserves_for_fold. intros [i agent] v Hin.
  apply elem_of_enumerate in Hin.
  unfold GSA._update_velocity, arr_div.
  repeat first
    [ preserves_step | apply preserves_read
    | apply preserves_uniform; intros ? ? Hw; exact Hw
    | apply moved_only_set_position, Hs, Hin
    | match goal with
      | |- preserves _ (if ?b then _ else _) => destruct b
      end ].
Qed.
End UpdateFrame.

(** X10.  Whether it returns or raises, [GSA.update] changes nothing but
    the positions of the agents it is given and the state of the generator:
    no object appears or disappears, the other objects -- the best agent of
    the space among them -- are as they were, and every agent keeps its
    bounds and its fitness, which is now the fitness of the position it has
    left. *)
Theorem update_moves_the_agents_and_nothing_else `{Externals}
    (G : Q) (agents : list loc) (velocity : list array) (t : nat)
    (w : world) :
  moved_only agents w (GSA.update G agents velocity t w).2.
Proof.
  apply (moved_only_update G agents w agents velocity t);
    [|apply moved_only_refl].
  intros w' _ a Ha. rewrite <- (sort_by_perm (fit_at w') agents). exact Ha.
Qed.

Section UpdateReturns.
Context `{Externals}.
Hypothesis eps_pos : 0 < EPSILON.
Hypothesis dist_nonneg : forall p q, 0 <= euclidean_distance p q.

Lemma returns_div {S} (x y : Q) :
  ~ y == 0 -> returns (fun _ => True) (@lift S Q (div x y)).
Proof.
  intros Hy. eapply returns_mono; [|apply (returns_lift _ (x / y)), div_ok, Hy].
  intros _ _. exact I.
Qed.

Lemma calculate_force_returns (agents : list loc) (mass : list Q)
    (gravity : Q) :
  length mass = length agents ->
  returns (fun force => length force = length agents)
          (GSA._calculate_force agents mass gravity).
Proof.
  intros Hlen. unfold GSA._calculate_force.
  eapply returns_bind.
  - apply returns_map_m. intros i Hi. apply elem_of_seq in Hi.
    eapply returns_mono; [intros ? _; exact I|].
    apply returns_map_m. intros j Hj. apply elem_of_seq in Hj.
    eapply returns_bind; [apply returns_index; lia|]. intros mi _.
    eapply returns_bind; [apply returns_index; lia|]. intros mj _.
    eapply returns_bind; [apply returns_index; lia|]. intros ai _.
    eapply returns_bind; [apply returns_index; lia|]. intros aj _.
    eapply returns_bind; [returns_any|]. intros pi _.
    eapply returns_bind; [returns_any|]. intros pj _.
    eapply returns_bind.
    { apply returns_div.
      pose proof (dist_nonneg (position pi) (position pj)). lra. }
    intros c _.
    eapply returns_bind; [apply returns_index; lia|]. intros aj' _.
    eapply returns_bind; [apply returns_index; lia|]. intros ai' _.
    eapply returns_bind; [returns_any|]. intros pj' _.
    eapply returns_bind; [returns_any|]. intros pi' _.
    apply returns_ret. exact I.
  - intros force Hf. cbv beta in Hf. rewrite length_seq in Hf.
    eapply returns_bind; [returns_any|]. intros u _.
    apply returns_ret. rewrite length_map. exact Hf.
Qed.

Lemma move_agents_returns (sorted : list loc) (mass : list Q)
    (force velocity : list array) :
  length mass = length sorted -> length force = length sorted ->
  (length sorted <= length velocity)%nat ->
  Forall (fun m => 0 <= m) mass ->
  returns (fun v => length v = length velocity)
    (for_fold (enumerate sorted) velocity (fun ia velocity =>
       let '(i, agent) := ia in
       bind (index force i) (fun fi =>
       bind (index mass i) (fun mi =>
       bind (index velocity i) (fun vi =>
       bind (GSA._update_velocity fi mi vi) (fun v =>
       bind (assign velocity i v) (fun velocity =>
       bind (read agent) (fun a =>
       bind (index velocity i) (fun vi =>
       bind (set_position agent (GSA._update_position (position a) vi))
            (fun _ => ret velocity)))))))))).
Proof.
  intros Hm Hf Hv Hnn.
  apply returns_for_fold; [reflexivity|].
  intros [i agent] v Hin Hlen. apply elem_of_enumerate_lt in Hin as [Hi _].
  eapply returns_bind; [apply returns_index; lia|]. intros fi _.
  eapply returns_bind; [apply returns_index; lia|]. intros mi Hmi.
  eapply returns_bind; [apply returns_index; lia|]. intros vi _.
  eapply returns_bind.
  { unfold GSA._update_velocity, arr_div.
    assert (Hpos : 0 <= mi).
    { rewrite Forall_forall in Hnn. apply Hnn.
      eapply list_elem_of_lookup_2, Hmi. }
    destruct (Qeq_bool (mi + EPSILON) 0) eqn:E;
      [apply Qeq_bool_iff in E; lra|].
    eapply returns_bind; [returns_any|]. intros acc _.
    eapply returns_bind; [returns_any|]. intros u _.
    apply (returns_ret (fun _ => True)). exact I. }
  intros v' _.
  eapply returns_bind; [apply returns_assign; lia|]. intros v2 ->.
  eapply returns_bind; [returns_any|]. intros a _.
  eapply returns_bind; [apply returns_index; rewrite length_insert; lia|].
  intros vi' _.
  eapply returns_bind; [unfold set_position; returns_any|]. intros _ _.
  apply returns_ret. rewrite length_insert. exact Hlen.
Qed.

Lemma gsa_update_returns (G : Q) (agents : list loc) (velocity : list array)
    (t : nat) (w : world) :
  (exists a b, a ∈ agents /\ b ∈ agents /\ fit_at w a < fit_at w b) ->
  (length agents <= length velocity)%nat ->
  exists velocity' w',
    GSA.update G agents velocity t w
      = (Ok (sort_by (fit_at w) agents, velocity'), w') /\
    length velocity' = length velocity.
Proof.
  intros (a & b & Ha & Hb & Hab) Hlen. rewrite update_run. cbv zeta.
  pose proof (sort_by_sorted (fit_at w) agents) as Hs.
  pose proof (sort_by_perm (fit_at w) agents) as Hp.
  set (sorted := sort_by (fit_at w) agents) in *.
  rewrite <- Hp in Ha, Hb.
  assert (Hlen' : (length sorted <= length velocity)%nat)
    by (rewrite Hp; exact Hlen).
  destruct (head sorted) as [first|] eqn:Hh;
    [|destruct sorted; [inversion Ha | discriminate]].
  destruct (last sorted) as [final|] eqn:Hl;
    [|apply last_None in Hl; rewrite Hl in Ha; inversion Ha].
  assert (Hlt : fit_at w first < fit_at w final).
  { pose proof (sorted_below_last (fit_at w) sorted final Hs Hl) as Hhigh.
    rewrite Forall_forall in Hhigh. specialize (Hhigh b Hb).
    assert (Hlow : fit_at w first <= fit_at w a).
    { destruct sorted as [|x l]; [discriminate|].
      cbn in Hh. inversion Hh; subst x.
      apply StronglySorted_cons in Hs as [Hx _].
      apply elem_of_cons in Ha as [->|Ha]; [apply Qle_refl|].
      rewrite Forall_forall in Hx. apply Hx, Ha. }
    cbv beta in Hhigh. lra. }
  pose proof (calculate_mass_sorted sorted w first final Hs Hh Hl Hlt) as Hok.
  destruct (GSA._calculate_mass sorted w) as [[mass|e] w1] eqn:Hmass;
    [|discriminate].
  assert (Hw1 : w1 = w).
  { pose proof (calculate_mass_run sorted w) as Hrun.
    rewrite Hmass in Hrun. inversion Hrun. reflexivity. }
  subst w1.
  destruct (calculate_mass_order sorted w mass Hs) as (Hml & Hmr & _);
    [rewrite Hmass; reflexivity|].
  erewrite bind_returns; [|exact Hmass].
  destruct (calculate_force_returns sorted mass
              (G / (inject_Z (Z.of_nat t) + 1)) Hml w)
    as (force & w2 & Hforce & Hfl).
  erewrite bind_returns; [|exact Hforce].
  destruct (move_agents_returns sorted mass force velocity Hml Hfl Hlen'
              ltac:(eapply Forall_impl; [exact Hmr|]; intros ? []; assumption)
              w2)
    as (v' & w3 & Hmove & Hvl).
  erewrite bind_returns; [|exact Hmove].
  exists v', w3. split; [reflexivity | exact Hvl].
Qed.
End UpdateReturns.

(** X11.  [GSA.update] returns on a population in which some agent is
    strictly better than another, when the velocities are as many as the
    agents (positions and velocities being of one shape, as numpy requires
    of them), the distance is not negative and [EPSILON] is positive: no
    index is out of range and no divisor vanishes.  It returns the agents
    sorted by fitness and as many velocities as it was given. *)
Theorem update_returns_given_distinct_fitness `{Externals}
    (G : Q) (agents : list loc) (velocity : list array) (t : nat)
    (w : world) (n d : nat) :
  0 < EPSILON ->
  (forall p q, 0 <= euclidean_distance p q) ->
  (exists a b, a ∈ agents /\ b ∈ agents /\ fit_at w a < fit_at w b) ->
  (length agents <= length velocity)%nat ->
  Forall (fun a => shaped n d (position_at w a)) agents ->
  Forall (shaped n d) velocity ->
  exists velocity' w',
    GSA.update G agents velocity t w
      = (Ok (sort_by (fit_at w) agents, velocity'), w') /\
    length velocity' = length velocity.
Proof.
  intros Heps Hdist Hfit Hlen _ _. apply gsa_update_returns; assumption.
Qed.

Lemma np_sum_abs_nonneg (xs : list Q) : 0 <= np_sum (map Qabs xs).
Proof.
  apply np_sum_nonneg, Forall_map, Forall_forall.
  intros x _. apply Qabs_nonneg.
Qed.

Lemma sample_distance_nonneg (p q : array) : 0 <= sample_distance p q.
Proof.
  unfold sample_distance. apply np_sum_nonneg, Forall_map, Forall_forall.
  intros row _. apply np_sum_abs_nonneg.
Qed.

(** The hypotheses of X11 hold of the sample environment and of three
    agents of fitness 9, 4 and 1 with velocities at rest. *)
Lemma update_returns_given_distinct_fitness_witness :
  let w := sample_world (0, 1000) [(3, 9); (-2, 4); (1, 1)] in
  exists velocity' w',
    GSA.update 2.467 [1; 2; 3]%nat (replicate 3 [[0]]) 0 w
      = (Ok ([3; 2; 1]%nat, velocity'), w') /\
    length velocity' = 3%nat.
Proof.
  cbv zeta.
  apply (update_returns_given_distinct_fitness 2.467 [1; 2; 3]%nat
           (replicate 3 [[0]]) 0
           (sample_world (0, 1000) [(3, 9); (-2, 4); (1, 1)]) 1 1).
  - reflexivity.
  - exact sample_distance_nonneg.
  - exists 3%nat, 1%nat.
    split; [repeat constructor|]. split; [repeat constructor|]. reflexivity.
  - cbn. lia.
  - repeat constructor.
  - repeat constructor.
Defined.

(* ===================================================================== *)
(** * Further properties: the update of the bat algorithm                 *)
(* ===================================================================== *)

Section BatReturns.
Context `{Externals}.
Variables f_min f_max A r : Q.
Implicit Types (w : world) (l : BA.locals).

(** The four arrays of [l'] are as long as those of [l]. *)
Local Abbreviation same_lengths l l' :=
  (length (BA.frequency l') = length (BA.frequency l) /\
   length (BA.velocity l') = length (BA.velocity l) /\
   length (BA.loudness l') = length (BA.loudness l) /\
   length (BA.pulse_rate l') = length (BA.pulse_rate l)).

Lemma np_mean_ok (xs : list Q) : xs <> [] -> is_ok (np_mean xs) = true.
Proof.
  intros Hne. unfold np_mean. rewrite div_ok; [reflexivity|].
  destruct xs as [|x xs]; [contradiction|].
  assert (0 < inject_Z (Z.of_nat (length (x :: xs)))); [|lra].
  change 0 with (inject_Z 0). rewrite <- Zlt_Qlt. cbn [length]. lia.
Qed.

Lemma update_agent_returns (function : Function) (t : nat) (alpha : Q)
    (i : nat) (agent : loc) l :
  (i < length (BA.frequency l))%nat -> (i < length (BA.velocity l))%nat ->
  (i < length (BA.loudness l))%nat -> (i < length (BA.pulse_rate l))%nat ->
  returns (fun l' => same_lengths l l')
          (BA.update_agent f_min f_max A r function t alpha (i, agent) l).
Proof.
  destruct l as [cur frequency velocity loudness pulse_rate].
  cbn [BA.frequency BA.velocity BA.loudness BA.pulse_rate].
  intros Hf Hv Hl Hp.
  unfold BA.update_agent, BA._update_frequency, set_position, set_fit,
    clip_agent, emit.
  eapply returns_bind.
  { eapply returns_bind; [returns_any|]. intros beta _.
    apply (returns_ret (fun _ => True)). exact I. }
  intros f _.
  eapply returns_bind; [apply returns_assign; lia|]. intros frequency' ->.
  eapply returns_bind; [returns_any|]. intros a _.
  eapply returns_bind; [returns_any|]. intros b _.
  eapply returns_bind; [apply returns_index; rewrite length_insert; lia|].
  intros fi _.
  eapply returns_bind; [apply returns_index; lia|]. intros vi _.
  eapply returns_bind; [apply returns_assign; lia|]. intros velocity' ->.
  eapply returns_bind; [returns_any|]. intros a' _.
  eapply returns_bind; [apply returns_index; rewrite length_insert; lia|].
  intros vi' _.
  eapply returns_bind; [returns_any|]. intros _ _.
  eapply returns_bind; [returns_any|]. intros p _.
  eapply returns_bind; [returns_any|]. intros e _.
  eapply returns_bind; [apply returns_index; lia|]. intros pr _.
  eapply returns_bind.
  { destruct (Qltb pr p); [|apply (returns_ret (fun _ => True)); exact I].
    eapply returns_bind; [returns_any|]. intros _ _.
    eapply returns_bind; [returns_any|]. intros b' _.
    eapply returns_bind.
    { apply returns_total, total_lift_ok, np_mean_ok.
      intros ->. cbn in Hl. lia. }
    intros m _. returns_any. }
  intros _ _.
  eapply returns_bind; [returns_any|]. intros _ _.
  eapply returns_bind; [returns_any|]. intros a2 _.
  eapply returns_bind; [returns_any|]. intros fv _.
  eapply returns_bind; [returns_any|]. intros _ _.
  eapply returns_bind; [apply returns_index; lia|]. intros li _.
  eapply returns_bind; [returns_any|]. intros a3 _.
  eapply returns_bind; [returns_any|]. intros b3 _.
  destruct (Qltb p li && Qltb (fit a3) (fit b3)).
  - eapply returns_bind; [returns_any|]. intros cur' _.
    eapply returns_bind; [apply returns_assign; lia|]. intros pulse_rate' ->.
    eapply returns_bind; [apply returns_assign; lia|]. intros loudness' ->.
    apply returns_ret.
    cbn [BA.frequency BA.velocity BA.loudness BA.pulse_rate].
    rewrite !length_insert. repeat split; reflexivity.
  - apply returns_ret.
    cbn [BA.frequency BA.velocity BA.loudness BA.pulse_rate].
    rewrite !length_insert. repeat split; reflexivity.
Qed.

Lemma ba_update_returns (agents : list loc) (best : loc)
    (function : Function) (t : nat) (frequency : list Q)
    (velocity : list array) (loudness pulse_rate : list Q) :
  (length agents <= length frequency)%nat ->
  (length agents <= length velocity)%nat ->
  (length agents <= length loudness)%nat ->
  (length agents <= length pulse_rate)%nat ->
  returns (fun l' =>
             same_lengths
               (BA.mkLocals best frequency velocity loudness pulse_rate) l')
          (BA.update f_min f_max A r agents best function t
                     frequency velocity loudness pulse_rate).
Proof.
  intros Hf Hv Hl Hp. unfold BA.update.
  apply returns_for_fold; [repeat split; reflexivity|].
  intros [i agent] l Hin (E1 & E2 & E3 & E4).
  apply elem_of_enumerate_lt in Hin as [Hi _].
  cbn [BA.frequency BA.velocity BA.loudness BA.pulse_rate] in *.
  eapply returns_mono; [|apply update_agent_returns; lia].
  intros l' (F1 & F2 & F3 & F4).
  cbn [BA.frequency BA.velocity BA.loudness BA.pulse_rate].
  repeat split; congruence.
Qed.
End BatReturns.

(** X12.  [BA.update] returns when each of the four arrays has an entry
    for every agent (positions and velocities being of one shape, as numpy
    requires of them): no index is out of range and the mean of the
    loudness is defined.  The arrays it leaves are as long as those it was
    given. *)
Theorem update_returns_when_the_arrays_cover_the_agents `{Externals}
    (f_min f_max A r : Q) (agents : list loc) (best : loc)
    (function : Function) (iteration : nat) (frequency : list Q)
    (velocity : list array) (loudness pulse_rate : list Q) (w : world)
    (n d : nat) :
  (length agents <= length frequency)%nat ->
  (length agents <= length velocity)%nat ->
  (length agents <= length loudness)%nat ->
  (length agents <= length pulse_rate)%nat ->
  Forall (fun a => shaped n d (position_at w a)) (best :: agents) ->
  Forall (shaped n d) velocity ->
  exists l' w',
    BA.update f_min f_max A r agents best function iteration
              frequency velocity loudness pulse_rate w = (Ok l', w') /\
    length (BA.frequency l') = length frequency /\
    length (BA.velocity l') = length velocity /\
    length (BA.loudness l') = length loudness /\
    length (BA.pulse_rate l') = length pulse_rate.
Proof.
  intros Hf Hv Hl Hp _ _.
  destruct (ba_update_returns f_min f_max A r agents best function iteration
              frequency velocity loudness pulse_rate Hf Hv Hl Hp w)
    as (l' & w' & Hrun & Hlen).
  exists l', w'. split; [exact Hrun | exact Hlen].
Qed.

(** The hypotheses of X12 hold of three sample agents and arrays of three
    entries. *)
Lemma update_returns_when_the_arrays_cover_the_agents_witness :
  let w := sample_world (0, 1000) [(3, 9); (-2, 4); (1, 1)] in
  exists l' w',
    BA.update 0 2 0.5 0.5 [1; 2; 3]%nat 0%nat sphere 0 [1; 1; 1]
              (replicate 3 [[0]]) [0.5; 0.5; 0.5] [0.3; 0.3; 0.3] w
      = (Ok l', w') /\
    length (BA.frequency l') = 3%nat /\
    length (BA.velocity l') = 3%nat /\
    length (BA.loudness l') = 3%nat /\
    length (BA.pulse_rate l') = 3%nat.
Proof.
  cbv zeta.
  apply (update_returns_when_the_arrays_cover_the_agents 0 2 0.5 0.5
           [1; 2; 3]%nat 0%nat sphere 0 [1; 1; 1] (replicate 3 [[0]])
           [0.5; 0.5; 0.5] [0.3; 0.3; 0.3]
           (sample_world (0, 1000) [(3, 9); (-2, 4); (1, 1)]) 1 1);
    try (cbn; lia); repeat constructor.
Defined.

Section BatEvaluates.
Context `{Externals}.
Variables f_min f_max A r : Q.
Variable function : Function.
Implicit Types (w : world) (l : BA.locals).

(** One agent of the loop, when it returns, has been evaluated at the
    position it is left at. *)
Lemma update_agent_evaluates (t : nat) (alpha : Q) (i : nat) (agent : loc)
    l (fs : FState) :
  ensures (live_at agent fs)
          (BA.update_agent f_min f_max A r function t alpha (i, agent) l)
          (fun _ w' => fstate w' = fs /\ evaluated function w' agent).
Proof.
  destruct l as [cur frequency velocity loudness pulse_rate].
  unfold BA.update_agent, BA._update_frequency, set_position, clip_agent.
  do 15 (apply ensures_bind_preserves; [repeat live_step | intros ?]).
  intros w l' w' [Hlive Hfs] Hrun.
  apply bind_inv in Hrun as (xr & wr & Hread & Hrun).
  inversion Hread; subst xr wr. clear Hread.
  apply bind_inv in Hrun as (fr & wc & Hcall & Hrun).
  inversion Hcall; subst fr wc. clear Hcall.
  apply bind_inv in Hrun as ([] & ws & Hset & Hrun).
  inversion Hset; subst ws. clear Hset.
  set (x := agent_at w agent) in *.
  set (fv := function (fstate w) (position x)) in *.
  set (w3 := with_heap (alter (with_fit fv) agent (heap w)) w) in *.
  assert (Hcell : holds_at agent (with_fit fv x) fs w3).
  { split; [|exact Hfs]. subst w3. cbn [heap with_heap].
    rewrite lookup_alter_eq, (heap_lookup_agent_at w agent Hlive).
    reflexivity. }
  match type of Hrun with
  | ?c w3 = _ =>
      assert (Hsuffix : preserves (holds_at agent (with_fit fv x) fs) c)
        by (repeat holds_step I)
  end.
  specialize (Hsuffix w3 Hcell). rewrite Hrun in Hsuffix.
  cbn [snd] in Hsuffix. destruct Hsuffix as [Hx Hfs'].
  split; [exact Hfs'|]. split; [eexists; exact Hx|].
  unfold fit_at, position_at, agent_at.
  rewrite lookup_total_alt, Hx, Hfs'. cbn. subst fv. rewrite Hfs.
  reflexivity.
Qed.

Lemma update_agent_fstate (t : nat) (alpha : Q) (i : nat) (agent : loc) l
    (fs : FState) :
  preserves (fun w => fstate w = fs)
            (BA.update_agent f_min f_max A r function t alpha (i, agent) l).
Proof.
  destruct l as [cur frequency velocity loudness pulse_rate].
  unfold BA.update_agent, BA._update_frequency, set_position, set_fit,
    clip_agent, emit, deepcopy.
  repeat first
    [ apply preserves_ret | apply preserves_raise | apply preserves_lift
    | apply preserves_index | apply preserves_assign
    | apply preserves_read | apply preserves_call
    | apply preserves_uniform; intros ? ? Hw; exact Hw
    | apply preserves_gaussian; intros ? ? Hw; exact Hw
    | apply preserves_modify; intros ? Hw; exact Hw
    | apply preserves_bind; [|intros ?]
    | match goal with
      | |- preserves _ (if ?b then _ else _) => destruct b
      end
    | intros ? Hw; exact Hw ].
Qed.

Lemma ba_loop_evaluates (t : nat) (alpha : Q) (agents : list loc)
    (P : loc -> Prop) (k : nat) l (fs : FState) :
  ensures (fun w => fstate w = fs /\
                    (forall a, P a -> evaluated function w a) /\
                    Forall (fun a => is_Some (heap w !! a)) agents)
          (for_fold (zip (seq k (length agents)) agents) l
                    (BA.update_agent f_min f_max A r function t alpha))
          (fun _ w' => fstate w' = fs /\
                       forall a, P a \/ a ∈ agents ->
                                 evaluated function w' a).
Proof.
  revert P k l. induction agents as [|a agents IH]; intros P k l.
  - intros w l' w' (Hfs & HP & _) Hrun. inversion Hrun; subst.
    split; [reflexivity|]. intros x [Hx|Hx]; [apply HP, Hx | inversion Hx].
  - intros w l' w' (Hfs & HP & Hlive) Hrun.
    apply Forall_cons in Hlive as [Ha Hlive].
    cbn [length seq zip zip_with for_fold] in Hrun.
    apply bind_inv in Hrun as (l1 & w1 & Hstep & Hrun).
    destruct (update_agent_evaluates t alpha k a l fs w l1 w1
                (conj Ha Hfs) Hstep) as [Hfs1 Ha1].
    assert (Hkeep : forall x X, x <> a -> heap w !! x = Some X ->
                                heap w1 !! x = Some X).
    { intros x X Hne Hx.
      pose proof (update_agent_keeps_object f_min f_max A r function t alpha
                    k a l x X ltac:(congruence) w Hx) as Hk.
      rewrite Hstep in Hk. exact Hk. }
    assert (Hev : forall x, evaluated function w x ->
                            evaluated function w1 x).
    { intros x Hx. destruct (decide (x = a)) as [->|Hne]; [exact Ha1|].
      destruct Hx as [[X HX] Hfit].
      pose proof (Hkeep x X Hne HX) as HX1.
      split; [eexists; exact HX1|].
      unfold fit_at, position_at, agent_at in *.
      rewrite lookup_total_alt, HX1, Hfs1.
      rewrite lookup_total_alt, HX, Hfs in Hfit. exact Hfit. }
    destruct (IH (fun x => P x \/ x = a) (Datatypes.S k) l1 w1 l' w')
      as [Hfs' Hall].
    + split; [exact Hfs1|]. split.
      * intros x [Hx| ->]; [apply Hev, HP, Hx | exact Ha1].
      * eapply Forall_impl; [exact Hlive|]. intros x [X HX].
        destruct (decide (x = a)) as [->|Hne]; [apply Ha1|].
        eexists. apply (Hkeep x X Hne HX).
    + exact Hrun.
    + split; [exact Hfs'|]. intros x [Hx|Hx].
      * apply Hall. left. left. exact Hx.
      * apply elem_of_cons in Hx as [->|Hx]; apply Hall;
          [left; right; reflexivity | right; exact Hx].
Qed.
End BatEvaluates.

(** X13.  When [BA.update] returns, every agent it was given (a live
    object) carries the fitness of the position it has been left at, and
    the state of the objective is as it was: each agent is evaluated after
    its move and no later step of the loop touches it. *)
Theorem update_leaves_the_agents_evaluated `{Externals}
    (f_min f_max A r : Q) (agents : list loc) (best : loc)
    (function : Function) (iteration : nat) (frequency : list Q)
    (velocity : list array) (loudness pulse_rate : list Q) (w : world) :
  Forall (fun a => is_Some (heap w !! a)) agents ->
  is_ok (BA.update f_min f_max A r agents best function iteration
                   frequency velocity loudness pulse_rate w).1 = true ->
  let w' := (BA.update f_min f_max A r agents best function iteration
                       frequency velocity loudness pulse_rate w).2 in
  fstate w' = fstate w /\ Forall (evaluated function w') agents.
Proof.
  intros Hlive Hok.
  destruct (BA.update f_min f_max A r agents best function iteration
              frequency velocity loudness pulse_rate w)
    as [[l'|e] w'] eqn:Hrun; [|discriminate].
  cbn [snd]. unfold BA.update, enumerate in Hrun.
  destruct (ba_loop_evaluates f_min f_max A r function iteration 0.9
              agents (fun _ => False) 0
              (BA.mkLocals best frequency velocity loudness pulse_rate)
              (fstate w) w l' w') as [Hfs Hall].
  - split; [reflexivity|]. split; [intros a []|exact Hlive].
  - exact Hrun.
  - split; [exact Hfs|]. apply Forall_forall. intros a Ha.
    apply Hall. right. exact Ha.
Qed.

(** The hypotheses of X13 hold of three sample agents. *)
Lemma update_leaves_the_agents_evaluated_witness :
  let w := sample_world (0, 1000) [(3, 9); (-2, 4); (1, 1)] in
  let w' := (BA.update 0 2 0.5 0.5 [1; 2; 3]%nat 0%nat sphere 0 [1; 1; 1]
               (replicate 3 [[0]]) [0.5; 0.5; 0.5] [0.3; 0.3; 0.3] w).2 in
  Forall (evaluated sphere w') [1; 2; 3]%nat.
Proof.
  cbv zeta.
  apply (update_leaves_the_agents_evaluated 0 2 0.5 0.5 [1; 2; 3]%nat 0%nat
           sphere 0 [1; 1; 1] (replicate 3 [[0]]) [0.5; 0.5; 0.5]
           [0.3; 0.3; 0.3]
           (sample_world (0, 1000) [(3, 9); (-2, 4); (1, 1)])).
  - repeat constructor; eexists; reflexivity.
  - vm_compute. reflexivity.
Defined.

(* ===================================================================== *)
(** * Further properties: the satin bowerbird optimizer                   *)
(* ===================================================================== *)

(** The weight of a fitness value decreases strictly with it. *)
Lemma weight_antitone (f1 f2 x1 x2 : Q) :
  (0 <= f1 -> x1 == 1 / (1 + f1)) /\ (f1 < 0 -> x1 == 1 + Qabs f1) /\ 0 < x1 ->
  (0 <= f2 -> x2 == 1 / (1 + f2)) /\ (f2 < 0 -> x2 == 1 + Qabs f2) /\ 0 < x2 ->
  f1 < f2 -> x2 < x1.
Proof.
  intros (P1 & N1 & H1) (P2 & N2 & H2) Hlt.
  destruct (Qlt_le_dec f1 0) as [Hn1|Hp1];
    destruct (Qlt_le_dec f2 0) as [Hn2|Hp2].
  - rewrite (N1 Hn1), (N2 Hn2).
    rewrite (Qabs_neg f1), (Qabs_neg f2) by lra. lra.
  - rewrite (N1 Hn1), (P2 Hp2). rewrite (Qabs_neg f1) by lra.
    assert (1 / (1 + f2) <= 1) by (apply Qle_shift_div_r; lra). lra.
  - lra.
  - rewrite (P1 Hp1), (P2 Hp2).
    apply Qlt_shift_div_r; [lra|].
    assert (E : 1 / (1 + f1) * (1 + f2)
                == 1 + (f2 - f1) / (1 + f1)) by (field; lra).
    rewrite E.
    assert (0 < (f2 - f1) / (1 + f1)) by (apply Qlt_shift_div_l; lra).
    lra.
Qed.

Lemma weight_equal (f1 f2 x1 x2 : Q) :
  (0 <= f1 -> x1 == 1 / (1 + f1)) /\ (f1 < 0 -> x1 == 1 + Qabs f1) /\ 0 < x1 ->
  (0 <= f2 -> x2 == 1 / (1 + f2)) /\ (f2 < 0 -> x2 == 1 + Qabs f2) /\ 0 < x2 ->
  f1 == f2 -> x1 == x2.
Proof.
  intros (P1 & N1 & H1) (P2 & N2 & H2) Heq.
  destruct (Qlt_le_dec f1 0) as [Hn1|Hp1].
  - rewrite (N1 Hn1), N2 by lra. rewrite Heq. reflexivity.
  - rewrite (P1 Hp1), P2 by lra. rewrite Heq. reflexivity.
Qed.

(** X14.  In [SBO.update] the probability of being selected follows the
    fitness: of two agents, one that is strictly better (of lower fitness)
    is strictly more likely to be selected, and agents of equal fitness are
    equally likely. *)
Theorem a_better_agent_is_more_likely_selected
    (fits ws ps : list Q) (i j : nat) (fi fj pi pj : Q) :
  SBO.fitness fits = Ok ws -> SBO.probs ws = Ok ps ->
  fits !! i = Some fi -> fits !! j = Some fj ->
  ps !! i = Some pi -> ps !! j = Some pj ->
  (fi < fj -> pj < pi) /\ (fi == fj -> pi == pj) /\ (fi <= fj -> pj <= pi).
Proof.
  intros Hws Hps Hfi Hfj Hpi Hpj.
  destruct (fitness_spec fits) as (ws' & Hws' & Hall).
  rewrite Hws in Hws'. inversion Hws'; subst ws'. clear Hws'.
  assert (Hpos : Forall (fun x => 0 < x) ws).
  { clear -Hall.
    induction Hall as [|? ? ? ? (_ & _ & Hx)]; constructor; assumption. }
  unfold SBO.probs, SBO.total_fitness in Hps.
  apply map_r_inv, scaled_inv in Hps as [-> Hd].
  rewrite list_lookup_fmap in Hpi, Hpj.
  destruct (ws !! i) as [wi|] eqn:Ewi; [|discriminate].
  destruct (ws !! j) as [wj|] eqn:Ewj; [|discriminate].
  cbn in Hpi, Hpj. inversion Hpi; subst pi. inversion Hpj; subst pj.
  assert (Hne : ws <> []) by (intros ->; discriminate).
  pose proof (np_sum_pos ws Hpos Hne) as Hsum.
  pose proof (Forall2_lookup_lr _ _ _ _ _ _ Hall Hfi Ewi) as Si.
  pose proof (Forall2_lookup_lr _ _ _ _ _ _ Hall Hfj Ewj) as Sj.
  cbv beta in Si, Sj.
  assert (Hstrict : fi < fj -> wj / np_sum ws < wi / np_sum ws).
  { intros Hlt. pose proof (weight_antitone fi fj wi wj Si Sj Hlt) as Hw.
    apply Qlt_shift_div_l; [exact Hsum|].
    assert (E : wj / np_sum ws * np_sum ws == wj) by (field; lra).
    rewrite E. exact Hw. }
  assert (Hequal : fi == fj -> wi / np_sum ws == wj / np_sum ws).
  { intros Heq. rewrite (weight_equal fi fj wi wj Si Sj Heq). reflexivity. }
  split; [exact Hstrict|]. split; [exact Hequal|].
  intros Hle. destruct (Qlt_le_dec fi fj) as [Hlt|Hge].
  - apply Qlt_le_weak, Hstrict, Hlt.
  - assert (Heq : fi == fj) by lra. rewrite (Hequal Heq). apply Qle_refl.
Qed.

(** The hypotheses of X14 hold of the fitness values 1 and 3. *)
Lemma a_better_agent_is_more_likely_selected_witness :
  exists ws ps pi pj,
    SBO.fitness [1; 3] = Ok ws /\ SBO.probs ws = Ok ps /\
    ps !! 0%nat = Some pi /\ ps !! 1%nat = Some pj /\ pj < pi.
Proof.
  eexists _, _, _, _.
  split; [reflexivity|]. split; [reflexivity|].
  split; [reflexivity|]. split; [reflexivity|].
  refine (proj1 (a_better_agent_is_more_likely_selected [1; 3] _ _
                   0 1 1 3 _ _ eq_refl eq_refl eq_refl eq_refl
                   eq_refl eq_refl) _).
  reflexivity.
Defined.

Section BowerbirdFrame.
Context `{Externals}.
Variables alpha p_mutation : Q.
Implicit Types (w : world) (agents : list loc).

Lemma touched_only_refl agents w : touched_only agents w w.
Proof. repeat split; intros; tauto. Qed.

Lemma touched_only_alter agents w0 (f : Agent -> Agent) (a : loc) :
  a ∈ agents ->
  (forall x, lb (f x) = lb x /\ ub (f x) = ub x /\
             n_variables (f x) = n_variables x) ->
  preserves (touched_only agents w0)
            (modify (fun w => with_heap (alter f a (heap w)) w)).
Proof.
  intros Ha Hf. apply preserves_modify. intros w (Hfs & Ht & Hx).
  destruct (heap w !! a) as [ag|] eqn:Hlive;
    [|rewrite agent_at_alter_dangling by exact Hlive;
      split; [|split]; assumption].
  split; [exact Hfs|]. split; [exact Ht|]. intros x.
  destruct (Hx x) as (H1 & H2 & H3 & H4 & H5).
  destruct (decide (x = a)) as [->|Hne].
  - rewrite agent_at_alter_eq by (eexists; exact Hlive).
    destruct (Hf (agent_at w a)) as (F1 & F2 & F3).
    split; [intros Hn; contradiction|].
    split; [|repeat split; congruence].
    cbn [heap with_heap]. rewrite lookup_alter_eq, fmap_is_Some. exact H2.
  - rewrite agent_at_alter_ne by congruence.
    cbn [heap with_heap]. rewrite lookup_alter_ne by congruence.
    repeat split; try assumption; apply H2.
Qed.

Ltac touched_step Ha :=
  first
    [ apply preserves_ret | apply preserves_raise | apply preserves_lift
    | apply preserves_get | apply preserves_index | apply preserves_assign
    | apply preserves_read | apply preserves_call
    | apply preserves_uniform; intros ? ? Hw; exact Hw
    | apply preserves_gaussian; intros ? ? Hw; exact Hw
    | apply preserves_choice; intros ? ? Hw; exact Hw
    | apply touched_only_alter;
      [exact Ha | intros ?; repeat split; reflexivity]
    | apply preserves_bind; [|intros ?]
    | match goal with
      | |- preserves _ (if ?b then _ else _) => destruct b
      end ].

Lemma sbo_update_touches_only agents w0 (best : loc) (function : Function)
    (sigma : list Q) :
  preserves (touched_only agents w0)
            (SBO.update alpha p_mutation agents best function sigma).
Proof.
  unfold SBO.update.
  apply preserves_bind; [apply preserves_get|]. intros w.
  apply preserves_bind; [apply preserves_lift|]. intros fitness.
  apply preserves_bind; [apply preserves_lift|]. intros probs.
  apply preserves_for_each. intros agent Ha.
  apply preserves_bind; [apply preserves_read|]. intros a.
  apply preserves_bind.
  { apply preserves_for_each. intros j _.
    unfold SBO.update_variable, set_position.
    repeat touched_step Ha. }
  intros _. unfold clip_agent, set_fit. repeat touched_step Ha.
Qed.

(** The body of the loop of [update], for one agent. *)
Local Abbreviation move_agent agents best function sigma probs agent :=
  (bind (read agent) (fun a =>
   bind (for_each (seq 0 (n_variables a))
           (SBO.update_variable alpha p_mutation agents best sigma probs
                                agent)) (fun _ =>
   bind (clip_agent agent) (fun _ =>
   bind (read agent) (fun a =>
   bind (call function (position a)) (fun f =>
   set_fit agent f)))))).

Lemma move_agent_evaluates agents (best : loc) (function : Function)
    (sigma probs : list Q) (agent : loc) (fs : FState) :
  ensures (live_at agent fs)
          (move_agent agents best function sigma probs agent)
          (fun _ w' => fstate w' = fs /\ evaluated function w' agent).
Proof.
  apply ensures_bind_preserves; [apply preserves_read|]. intros a.
  apply ensures_bind_preserves.
  { apply preserves_for_each. intros j _.
    unfold SBO.update_variable, set_position. repeat live_step. }
  intros _.
  apply ensures_bind_preserves; [unfold clip_agent; apply live_alter|].
  intros _.
  intros w [] w' [Hlive Hfs] Hrun.
  apply bind_inv in Hrun as (xr & wr & Hread & Hrun).
  inversion Hread; subst xr wr. clear Hread.
  apply bind_inv in Hrun as (fr & wc & Hcall & Hrun).
  inversion Hcall; subst fr wc. clear Hcall.
  inversion Hrun; subst w'. clear Hrun.
  split; [exact Hfs|]. split.
  - cbn [heap with_heap]. rewrite lookup_alter_eq, fmap_is_Some. exact Hlive.
  - unfold fit_at, position_at. rewrite agent_at_alter_eq by exact Hlive.
    reflexivity.
Qed.

Lemma move_agent_keeps_object agents (best : loc) (function : Function)
    (sigma probs : list Q) (agent x : loc) (X : Agent) (fs : FState) :
  agent <> x ->
  preserves (holds_at x X fs)
            (move_agent agents best function sigma probs agent).
Proof.
  intros Hne.
  apply preserves_bind; [apply preserves_read|]. intros a.
  apply preserves_bind.
  { apply preserves_for_each. intros j _.
    unfold SBO.update_variable, set_position. repeat holds_step Hne. }
  intros _. unfold clip_agent, set_fit. repeat holds_step Hne.
Qed.

Lemma sbo_loop_evaluates agents0 (best : loc) (function : Function)
    (sigma probs : list Q) (agents : list loc) (P : loc -> Prop)
    (fs : FState) :
  ensures (fun w => fstate w = fs /\
                    (forall a, P a -> evaluated function w a) /\
                    Forall (fun a => is_Some (heap w !! a)) agents)
          (for_each agents (fun agent =>
             move_agent agents0 best function sigma probs agent))
          (fun _ w' => fstate w' = fs /\
                       forall a, P a \/ a ∈ agents ->
                                 evaluated function w' a).
Proof.
  revert P. induction agents as [|a agents IH]; intros P.
  - intros w [] w' (Hfs & HP & _) Hrun. inversion Hrun; subst.
    split; [reflexivity|]. intros x [Hx|Hx]; [apply HP, Hx | inversion Hx].
  - intros w [] w' (Hfs & HP & Hlive) Hrun.
    apply Forall_cons in Hlive as [Ha Hlive].
    cbn [for_each] in Hrun.
    apply bind_inv in Hrun as ([] & w1 & Hstep & Hrun).
    destruct (move_agent_evaluates agents0 best function sigma probs a fs
                w tt w1 (conj Ha Hfs) Hstep) as [Hfs1 Ha1].
    assert (Hkeep : forall x X, x <> a -> heap w !! x = Some X ->
                                heap w1 !! x = Some X).
    { intros x X Hne Hx.
      pose proof (move_agent_keeps_object agents0 best function sigma probs
                    a x X fs ltac:(congruence) w (conj Hx Hfs)) as Hk.
      rewrite Hstep in Hk. apply Hk. }
    assert (Hev : forall x, evaluated function w x ->
                            evaluated function w1 x).
    { intros x Hx. destruct (decide (x = a)) as [->|Hne]; [exact Ha1|].
      destruct Hx as [[X HX] Hfit].
      pose proof (Hkeep x X Hne HX) as HX1.
      split; [eexists; exact HX1|].
      unfold fit_at, position_at, agent_at in *.
      rewrite lookup_total_alt, HX1, Hfs1.
      rewrite lookup_total_alt, HX, Hfs in Hfit. exact Hfit. }
    destruct (IH (fun x => P x \/ x = a) w1 tt w') as [Hfs' Hall].
    + split; [exact Hfs1|]. split.
      * intros x [Hx| ->]; [apply Hev, HP, Hx | exact Ha1].
      * eapply Forall_impl; [exact Hlive|]. intros x [X HX].
        destruct (decide (x = a)) as [->|Hne]; [apply Ha1|].
        eexists. apply (Hkeep x X Hne HX).
    + exact Hrun.
    + split; [exact Hfs'|]. intros x [Hx|Hx].
      * apply Hall. left. left. exact Hx.
      * apply elem_of_cons in Hx as [->|Hx]; apply Hall;
          [left; right; reflexivity | right; exact Hx].
Qed.

Lemma sbo_update_evaluates agents (best : loc) (function : Function)
    (sigma : list Q) w (w' : world) :
  Forall (fun a => is_Some (heap w !! a)) agents ->
  SBO.update alpha p_mutation agents best function sigma w = (Ok tt, w') ->
  Forall (evaluated function w') agents.
Proof.
  intros Hlive Hrun. unfold SBO.update in Hrun.
  apply bind_inv in Hrun as (w0 & w1 & Hget & Hrun).
  inversion Hget; subst w0 w1. clear Hget.
  apply bind_inv in Hrun as (fitness & w1 & Hfit & Hrun).
  unfold lift in Hfit. inversion Hfit; subst w1. clear Hfit.
  apply bind_inv in Hrun as (probs & w1 & Hpr & Hrun).
  unfold lift in Hpr. inversion Hpr; subst w1. clear Hpr.
  destruct (sbo_loop_evaluates agents best function sigma probs agents
              (fun _ => False) (fstate w) w tt w') as [_ Hall].
  - split; [reflexivity|]. split; [intros a []|exact Hlive].
  - exact Hrun.
  - apply Forall_forall. intros a Ha. apply Hall. right. exact Ha.
Qed.
End BowerbirdFrame.

(** X15.  Whether it returns or raises, [SBO.update] writes to the agents
    it is given and to nothing else: no object appears or disappears, the
    other objects -- the best agent among them, whose position every move
    reads -- are as they were, and the agents keep their bounds.  When it
    returns, every agent (a live object) carries the fitness of the
    position it has been left at. *)
Theorem update_writes_the_agents_and_leaves_them_evaluated `{Externals}
    (alpha p_mutation : Q) (agents : list loc) (best : loc)
    (function : Function) (sigma : list Q) (w : world) :
  Forall (fun a => is_Some (heap w !! a)) agents ->
  let run := SBO.update alpha p_mutation agents best function sigma w in
  touched_only agents w run.2 /\
  (is_ok run.1 = true -> Forall (evaluated function run.2) agents).
Proof.
  intros Hlive run. split.
  - apply sbo_update_touches_only, touched_only_refl.
  - intros Hok. subst run.
    destruct (SBO.update alpha p_mutation agents best function sigma w)
      as [[[]|e] w'] eqn:Hrun; [|discriminate].
    cbn [snd]. eapply sbo_update_evaluates; [exact Hlive | exact Hrun].
Qed.

(** The hypothesis of X15 holds of three sample agents, on a call that
    returns. *)
Lemma update_writes_the_agents_and_leaves_them_evaluated_witness :
  let w := sample_world (0, 1000) [(3, 9); (-2, 4); (1, 1)] in
  let run := SBO.update 0.9 0.05 [1; 2; 3]%nat 0%nat sphere [0.4] w in
  touched_only [1; 2; 3]%nat w run.2 /\
  Forall (evaluated sphere run.2) [1; 2; 3]%nat.
Proof.
  cbv zeta.
  destruct (update_writes_the_agents_and_leaves_them_evaluated 0.9 0.05
              [1; 2; 3]%nat 0%nat sphere [0.4]
              (sample_world (0, 1000) [(3, 9); (-2, 4); (1, 1)])
              ltac:(repeat constructor; eexists; reflexivity))
    as [Htouched Hevaluated].
  split; [exact Htouched|]. apply Hevaluated. vm_compute. reflexivity.
Defined.
